(** * Causal-alignment measurement of circuits-benchmark: a shallow embedding

    The development follows the Python sources of the repository:
    - [iit_utils/correspondence.py]: the address model ([hook_name], [idx]),
      [make_edge_corr], [TracrCorrespondence.save]/[load];
    - [circuits_benchmark/metrics/iia.py]: [build_hook_fns],
      [regular_intervention_hook_fn], [evaluate_iia];
    - [utils/resampling_ablation_loss/resampling_ablation_loss.py]:
      [get_interventions];
    - [circuits_benchmark/utils/iit/dataset.py]: [get_total_len],
      [get_unique_data];
    - [circuits_benchmark/benchmark/tracr_benchmark_case.py]: [gen_all_data],
      [sample_data], [get_clean_data].

    Python exceptions are values of [exn]; a call that may raise returns a
    [result].  Dictionaries keyed by hook or file names are [gmap]s; the
    dictionary of a correspondence, whose iteration order the code observes,
    is an association list.  Tensors hold rationals; the kernels of torch
    that the evaluator applies to the logits are parameters. *)

From Stdlib Require Import List String Ascii Arith Lia ZArith QArith Permutation.
From stdpp Require Import base gmap strings list sorting pretty.
Import ListNotations.
Open Scope string_scope.
Open Scope list_scope.
Open Scope nat_scope.

(** ** Python runtime: exceptions, strings *)

Module Py.

Inductive exn : Type :=
| ValueError (msg : string)
| AssertionError (msg : option string)
| KeyError (key : string)
| IndexError (msg : string)
| RuntimeError (msg : string)
| FileNotFoundError (filename : string)
| OverflowError (msg : string).

Inductive result (A : Type) : Type :=
| Ok (a : A)
| Raise (e : exn).
Arguments Ok {A} a.
Arguments Raise {A} e.

#[global] Instance result_ret : MRet result := @Ok.
#[global] Instance result_bind : MBind result :=
  fun A B k r =>
    match r with
    | Ok a => k a
    | Raise e => Raise e
    end.

Definition is_ok {A : Type} (r : result A) : bool :=
  match r with Ok _ => true | Raise _ => false end.

(** A generator that is iterated to its end: the values yielded so far and
    the exception, if one stopped it. *)
Fixpoint generate {A B : Type} (f : A -> result B) (xs : list A)
  : list B * option exn :=
  match xs with
  | [] => ([], None)
  | x :: xs' =>
      match f x with
      | Raise e => ([], Some e)
      | Ok y => let '(ys, e) := generate f xs' in (y :: ys, e)
      end
  end.

(** [sub in s] on strings. *)
Fixpoint contains (s sub : string) : bool :=
  String.prefix sub s ||
  match s with
  | EmptyString => false
  | String _ s' => contains s' sub
  end.

(** [int(c)] for a one-character string [c]: decimal digits only. *)
Definition int_of_char (c : ascii) : result nat :=
  let n := nat_of_ascii c in
  if (48 <=? n) && (n <=? 57) then Ok (n - 48)
  else Raise (ValueError ("invalid literal for int() with base 10: '"
                          ++ String c "'")).

(** [s.zfill(width)]: zeros are inserted after a leading sign. *)
Definition zfill (s : list ascii) (width : nat) : list ascii :=
  let pad := replicate (width - length s) "0"%char in
  match s with
  | c :: s' =>
      if (Ascii.eqb c "+" || Ascii.eqb c "-")%char then c :: pad ++ s'
      else pad ++ s
  | [] => pad
  end.

End Py.
Import Py.

(** ** numpy: [base_repr] *)

Module Np.

Definition digits : list ascii :=
  list_ascii_of_string "0123456789ABCDEFGHIJKLMNOPQRSTUVWXYZ".

(** The loop [while num: res.append(digits[num % base]); num //= base];
    [num] itself bounds the number of iterations. *)
Fixpoint base_repr_loop (fuel num base : nat) : list ascii :=
  match fuel with
  | 0 => []
  | S fuel' =>
      if num =? 0 then []
      else nth (num mod base) digits "0"%char
             :: base_repr_loop fuel' (num / base) base
  end.

(** [np.base_repr(number, base)] for a non-negative [number], no padding. *)
Definition base_repr (number base : nat) : result (list ascii) :=
  if length digits <? base then
    Raise (ValueError "Bases greater than 36 not handled in base_repr.")
  else if base <? 2 then
    Raise (ValueError "Bases less than 2 not handled in base_repr.")
  else
    let res := base_repr_loop number number base in
    Ok (rev (match res with [] => ["0"%char] | _ => res end)).

End Np.

(** ** The combinatorial sampler ([resampling_ablation_loss.py]) *)

(** The process-wide generator of Python's [random] module.  The state is
    threaded explicitly; [random_sample g n k] is
    [random.sample(range(n), k)], specified as the library documents it: a
    list of [k] distinct members of the population.  [random.sample] starts
    with [len(population)], and [len] of a range of more than [sys.maxsize]
    members ([2 ^ 63 - 1] on a 64-bit interpreter) raises [OverflowError]:
    the laws are those of a population that [len] can measure, and
    [get_interventions] raises for a larger one. *)
Definition sys_maxsize : N := (2 ^ 63 - 1)%N.

Class PyRandom (rng : Type) := {
  random_sample : rng -> nat -> nat -> list nat * rng;
  random_sample_length :
    forall g n k, (N.of_nat n <= sys_maxsize)%N -> k <= n ->
                  length (random_sample g n k).1 = k;
  random_sample_NoDup :
    forall g n k, (N.of_nat n <= sys_maxsize)%N -> k <= n ->
                  NoDup (random_sample g n k).1;
  random_sample_range :
    forall g n k i, (N.of_nat n <= sys_maxsize)%N -> k <= n ->
                    i ∈ (random_sample g n k).1 -> i < n
}.

Module Sampler.

Section WithOptions.

(** [InterventionType] and the list
    [InterventionType.get_available_interventions(autoencoder)] come from a
    module outside the sources at hand: both are parameters.  So does the
    class [Intervention]: an intervention is known here by the two lists
    that [get_interventions] hands to its constructor. *)
Context {InterventionType : Type} {rng : Type} `{PyRandom rng}.

Record Intervention : Type := mkIntervention {
  hook_names : list string;
  intervention_types : list InterventionType
}.

Definition should_hook_name_be_skipped_due_to_filters
    (hook_name : option string) (hook_filters : option (list string)) : bool :=
  match hook_filters with
  | None => false
  | Some filters =>
      match hook_name with
      | None => false
      | Some name => negb (existsb (fun f => contains name f) filters)
      end
  end.

Definition hook_names_for_patching
    (base_hooks : list string) (hook_filters : option (list string))
  : list string :=
  List.filter
    (fun name =>
       negb (should_hook_name_be_skipped_due_to_filters (Some name) hook_filters))
    base_hooks.

(** The body of the loop [for index in indices] up to the list of
    intervention types. *)
Definition types_of_index (options : list InterventionType) (k index : nat)
  : result (list InterventionType) :=
  repr ← Np.base_repr index (length options);
  mapM (fun digit =>
          d ← int_of_char digit;
          match options !! d with
          | Some o => Ok o
          | None => Raise (IndexError "list index out of range")
          end)
       (zfill repr k).

Definition get_interventions
    (base_hooks hypothesis_hooks : list string)
    (hook_filters : option (list string))
    (options : list InterventionType)
    (max_interventions : nat) (g : rng)
  : (list Intervention * option exn) * rng :=
  let names := hook_names_for_patching base_hooks hook_filters in
  if negb (forallb (fun name => existsb (String.eqb name) hypothesis_hooks) names)
  then (([], Some (AssertionError
           (Some "All hook names for patching should be present in the hypothesis model."))), g)
  else
    let total_number_combinations := length options ^ length names in
    if (max_interventions <? total_number_combinations)
       && (sys_maxsize <? N.of_nat total_number_combinations)%N
    then (([], Some (OverflowError "Python int too large to convert to C ssize_t")), g)
    else
      let '(indices, g') :=
        if max_interventions <? total_number_combinations
        then random_sample g total_number_combinations max_interventions
        else (seq 0 total_number_combinations, g) in
      (generate (fun index =>
                   tys ← types_of_index options (length names) index;
                   Ok (mkIntervention names tys))
                indices,
       g').

(** The body of [for index in indices]. *)
Definition yield_of (names : list string) (options : list InterventionType)
    (index : nat) : result Intervention :=
  tys ← types_of_index options (length names) index;
  Ok (mkIntervention names tys).

(** *** Positional notation, for the statements about the sampler *)

(** The [k] low digits of [i] in base [m], least significant first. *)
Fixpoint lsb_digits (m k i : nat) : list nat :=
  match k with
  | 0 => []
  | S k' => i mod m :: lsb_digits m k' (i / m)
  end.

(** The digit at position [j], counted from the left, of [index] written
    with [k] digits in base [m]. *)
Definition digit_at (m k index j : nat) : nat := (index / m ^ (k - 1 - j)) mod m.

(** The number written by the digits [ds] in base [m], most significant
    digit first. *)
Definition value_of_digits (m : nat) (ds : list nat) : nat :=
  foldl (fun acc d => acc * m + d) 0 ds.

(** The character numpy writes for the digit [d]. *)
Definition dchar (d : nat) : ascii := nth d Np.digits "0"%char.

(** [tys] lists [options[d]] for the digits [d] of [ds]. *)
Definition picks (options : list InterventionType) (ds : list nat)
    (tys : list InterventionType) : Prop :=
  Forall2 (fun d o => options !! d = Some o) ds tys.

(** [tys] is the reading of [index] as a number of [k] digits in base
    [length options], most significant digit first, digit [d] standing for
    [options[d]]. *)
Definition decodes (options : list InterventionType) (k index : nat)
    (tys : list InterventionType) : Prop :=
  exists ds, length ds = k /\
             Forall (fun d => d < length options) ds /\
             value_of_digits (length options) ds = index /\
             picks options ds tys.

End WithOptions.

End Sampler.

(** A generator for examples: its state is a counter, an even state draws
    the first [k] members of the population and an odd one the last [k]. *)
Definition toy_sample (g n k : nat) : list nat * nat :=
  (if Nat.even g then seq 0 k else seq (n - k) k, S g).

#[global, refine] Instance toy_PyRandom : PyRandom nat :=
  {| random_sample := toy_sample |}.
Proof.
  - intros g n k _ _. unfold toy_sample. simpl. destruct (Nat.even g); apply length_seq.
  - intros g n k _ _. unfold toy_sample. simpl. destruct (Nat.even g); apply NoDup_seq.
  - intros g n k i _ Hk. unfold toy_sample. simpl.
    destruct (Nat.even g); rewrite elem_of_seq; lia.
Defined.

(** The hooks that the default filters keep in a transformer of fifteen
    layers: the two embeddings and, for each layer, the outputs of the
    attention and of the MLP. *)
Definition example_hooks_15_layers : list string :=
  ["hook_embed"; "hook_pos_embed"]
  ++ flat_map (fun layer : nat =>
                 [("blocks." ++ pretty layer ++ ".hook_attn_out")%string;
                  ("blocks." ++ pretty layer ++ ".hook_mlp_out")%string])
              (seq 0 15).

(** ** Tensors and the torch operations the evaluator uses *)

Module Torch.

(** A dense tensor: its shape and its entries in row-major order. *)
Record tensor : Type := mkTensor {
  shape : list nat;
  data : list Q
}.

Definition numel (s : list nat) : nat := fold_right Nat.mul 1 s.

Definition well_shaped (t : tensor) : Prop :=
  length (data t) = numel (shape t).

(** [torch.zeros_like(t)] *)
Definition zeros_like (t : tensor) : tensor :=
  mkTensor (shape t) (replicate (numel (shape t)) 0%Q).

Definition Qsum (l : list Q) : Q := fold_right Qplus 0%Q l.

(** Entry [j] of the slice at index [b] of the first axis, the other axes
    holding [n] entries. *)
Definition entry (t : tensor) (n b j : nat) : Q := nth (b * n + j) (data t) 0%Q.

(** [t.mean(dim=0)]; over an axis of size zero torch produces NaN entries,
    here [0], and every use below repeats such a tensor zero times. *)
Definition mean_dim0 (t : tensor) : tensor :=
  match shape t with
  | [] => t
  | b :: rest =>
      let n := numel rest in
      mkTensor rest
        (map (fun j => (Qsum (map (fun i => entry t n i j) (seq 0 b))
                        / inject_Z (Z.of_nat b))%Q)
             (seq 0 n))
  end.

(** The average over the first axis, of size [b], of the entry [j] of [t]. *)
Definition batch_mean (t : tensor) (b n j : nat) : Q :=
  (Qsum (map (fun i => entry t n i j) (seq 0 b)) / inject_Z (Z.of_nat b))%Q.

(** [p] has the shape of [t] and holds, at every index of the first axis,
    the average of [t] over that axis. *)
Definition is_batch_mean_of (t p : tensor) : Prop :=
  shape p = shape t /\ well_shaped p /\
  forall b rest, shape t = b :: rest ->
    forall i j, i < b -> j < numel rest ->
      entry p (numel rest) i j = batch_mean t b (numel rest) j.

(** [t.repeat(n, 1, ..., 1)] with [nargs] arguments: the shape is padded on
    the left with ones up to [nargs] axes and the tensor is tiled [n] times
    along the first. *)
Definition repeat_dim0 (n nargs : nat) (t : tensor) : result tensor :=
  if nargs <? length (shape t) then
    Raise (RuntimeError
      "Number of dimensions of repeat dims can not be smaller than number of dimensions of tensor")
  else
    match replicate (nargs - length (shape t)) 1 ++ shape t with
    | s0 :: rest => Ok (mkTensor (n * s0 :: rest) (concat (replicate n (data t))))
    | [] => Ok t
    end.

(** [act[:, :, h] = src[:, :, h]].  The two tensors are activations of one
    hook on batches of one size, so that the two slices have one shape; a
    source with other sizes, which torch would try to broadcast, is
    refused. *)
Definition assign_head (act src : tensor) (h : nat) : result tensor :=
  match shape act, shape src with
  | b :: p :: nh :: rest, b' :: p' :: nh' :: rest' =>
      if (h <? nh) && (h <? nh') then
        if decide (b :: p :: rest = b' :: p' :: rest') then
          let inner := numel rest in
          Ok (mkTensor (shape act)
                (imap (fun i x =>
                         if (i / inner) mod nh =? h
                         then nth ((i / (nh * inner) * nh' + h) * inner + i mod inner)
                                  (data src) 0%Q
                         else x)
                      (data act)))
        else Raise (RuntimeError "shape mismatch: value tensor cannot be broadcast to indexing result")
      else Raise (IndexError "index is out of bounds for dimension 2")
  | _, _ => Raise (IndexError "too many indices for tensor")
  end.

End Torch.
Import Torch.

(** ** The intervention engine and the evaluator ([metrics/iia.py]) *)

Module IIA.

(** The value of [tensor.mean().item()]: [NaN] is the mean of no entry. *)
Inductive pyfloat (A : Type) : Type :=
| Finite (a : A)
| NaN.
Arguments Finite {A} a.
Arguments NaN {A}.

Definition ActivationCache : Type := gmap string tensor.

Definition cache_get (cache : gmap string tensor) (name : string) : result tensor :=
  match cache !! name with
  | Some t => Ok t
  | None => Raise (KeyError name)
  end.

(** [partial(regular_intervention_hook_fn, corrupted_cache=..., head_index=...)] *)
Record hook_fn : Type := mkHook {
  corrupted_cache : gmap string tensor;
  head_index : option nat
}.

Definition regular_intervention_hook_fn
    (activation : tensor) (hook_name : string)
    (corrupted_cache : gmap string tensor) (head_index : option nat)
  : result tensor :=
  match head_index with
  | None => cache_get corrupted_cache hook_name
  | Some h =>
      src ← cache_get corrupted_cache hook_name;
      assign_head activation src h
  end.

Definition call_hook (f : hook_fn) (activation : tensor) (hook_name : string)
  : result tensor :=
  regular_intervention_hook_fn activation hook_name (corrupted_cache f) (head_index f).

(** [cache[hook_name].mean(dim=0).repeat(orig_shape[0], 1, ..., 1)] *)
Definition mean_over_batch (nargs : nat) (t : tensor) : result tensor :=
  match shape t with
  | [] => Raise (IndexError "tuple index out of range")
  | b :: _ => repeat_dim0 b nargs (mean_dim0 t)
  end.

Definition build_hook_fns
    (hook_name : string) (head_index : option nat)
    (base_model_clean_cache hypothesis_model_clean_cache
     base_model_corrupted_cache hypothesis_model_corrupted_cache : gmap string tensor)
    (ablation_type : string)
  : result (hook_fn * hook_fn) :=
  patching ←
    (if String.eqb ablation_type "resample" then
       b ← cache_get base_model_corrupted_cache hook_name;
       h ← cache_get hypothesis_model_corrupted_cache hook_name;
       Ok (b, h)
     else if String.eqb ablation_type "mean" then
       bc ← cache_get base_model_clean_cache hook_name;
       hc ← cache_get hypothesis_model_clean_cache hook_name;
       let nargs := if length (shape bc) =? 3 then 3 else 4 in
       b ← mean_over_batch nargs bc;
       h ← mean_over_batch nargs hc;
       Ok (b, h)
     else if String.eqb ablation_type "zero" then
       bc ← cache_get base_model_clean_cache hook_name;
       hc ← cache_get hypothesis_model_clean_cache hook_name;
       Ok (zeros_like bc, zeros_like hc)
     else
       Raise (ValueError ("Unknown ablation type: " ++ ablation_type)%string));
  Ok (mkHook (<[hook_name := patching.1]> ∅) head_index,
      mkHook (<[hook_name := patching.2]> ∅) head_index).

(** The ablation types of [AblationType]. *)
Definition supported (a : string) : Prop := a = "zero" \/ a = "mean" \/ a = "resample".

Definition is_qkv_granularity_hook (hook_name : string) : bool :=
  contains hook_name "_q" || contains hook_name "_k" || contains hook_name "_v".

(** [CircuitNode]: a hook name and an optional head index. *)
Record CircuitNode : Type := mkNode {
  name : string;
  index : option nat
}.

(** [tensor.float().mean().item()] of a boolean tensor, flattened. *)
Definition mean_bool (l : list bool) : pyfloat Q :=
  match l with
  | [] => NaN
  | _ => Finite (Z.of_nat (length (List.filter (fun b : bool => b) l)) # Pos.of_nat (length l))
  end.

(** A float that is a number between 0 and 1. *)
Definition in_unit_interval (x : pyfloat Q) : Prop :=
  exists q, x = Finite q /\ (0 <= q)%Q /\ (q <= 1)%Q.

(** [same[mask]] for a boolean [mask] over the batch axis. *)
Definition masked (same mask : list bool) : result (list bool) :=
  if length same =? length mask then
    Ok (map fst (List.filter snd (zip same mask)))
  else
    Raise (IndexError "The shape of the mask does not match the shape of the indexed tensor").

(** The entries of a result row of [evaluate_iia]. *)
Inductive node_result (K : Type) : Type :=
| Categorical (kl_div : K) (accuracy base_model_effect hypothesis_model_effect : pyfloat Q)
              (effective_accuracy : option (pyfloat Q))
| Continuous (accuracy : pyfloat Q) (base_model_effect hypothesis_model_effect : K).
Arguments Categorical {K}.
Arguments Continuous {K}.


Definition accuracy {K} (r : node_result K) : pyfloat Q :=
  match r with
  | Categorical _ a _ _ _ => a
  | Continuous a _ _ => a
  end.

Section Evaluator.

(** Logits are tensors over the axes batch, position and vocabulary, given
    as nested lists of scalars [F].  The networks, the datasets and the
    numeric kernels of torch are parameters: [forward m hooks x] is [m(x)]
    inside [with m.hooks(hooks)], [outputs_differ clean corrupted] is the
    per-example mask
    [clean.get_correct_outputs() != corrupted.get_correct_outputs()],
    [kl_div input target] is
    [kl_div(input, target, reduction="none", log_target=True).sum(dim=-1).mean().item()],
    [isclose] is [t.isclose] at the tolerance [accuracy_atol] and
    [mean_abs_diff a b] is [t.abs(a - b).mean().item()].  Elementwise
    operations pair entries up; torch requires equal shapes, which the
    outputs of one batch have. *)
Context {F K model dataset inputs : Type}.
Variable forward : model -> list (string * hook_fn) -> inputs -> result (list (list (list F))).
Variable is_categorical : model -> bool.
Variable get_inputs : dataset -> inputs.
Variable outputs_differ : dataset -> dataset -> list bool.
Variable ltb : F -> F -> bool.
Variable log_softmax : list F -> list F.
Variable kl_div : list (list (list F)) -> list (list (list F)) -> K.
Variable isclose : F -> F -> bool.
Variable mean_abs_diff : list (list (list F)) -> list (list (list F)) -> K.

(** [t.argmax(row)]: the position of the first greatest entry. *)
Fixpoint argmax_from (best_i : nat) (best : F) (i : nat) (row : list F) : nat :=
  match row with
  | [] => best_i
  | x :: row' =>
      if ltb best x then argmax_from i x (S i) row'
      else argmax_from best_i best (S i) row'
  end.

Definition argmax (row : list F) : nat :=
  match row with
  | [] => 0
  | x :: row' => argmax_from 0 x 1 row'
  end.

(** [logits[:, 1:]] *)
Definition remove_bos (logits : list (list (list F))) : list (list (list F)) :=
  map (drop 1) logits.

Definition labels (logits : list (list (list F))) : list (list nat) :=
  map (map argmax) logits.

(** [(a == b).all(dim=-1)] *)
Definition same_labels (a b : list (list nat)) : list bool :=
  zip_with (fun r s => forallb (fun b : bool => b) (zip_with Nat.eqb r s)) a b.

(** [(a != b)], flattened over batch and position. *)
Definition changed_labels (a b : list (list nat)) : list bool :=
  concat (zip_with (zip_with (fun x y => negb (x =? y))) a b).

(** [t.isclose(a, b, atol=accuracy_atol)], flattened. *)
Definition close_entries (a b : list (list (list F))) : list bool :=
  concat (concat (zip_with (zip_with (zip_with isclose)) a b)).

(** The body of the loop of [evaluate_iia] for a node that is not skipped. *)
Definition evaluate_node
    (base_model hypothesis_model : model)
    (clean_data corrupted_data : dataset)
    (base_model_corrupted_cache hypothesis_model_corrupted_cache
     base_model_clean_cache hypothesis_model_clean_cache : gmap string tensor)
    (ablation_type : string) (node : CircuitNode)
  : result (node_result K) :=
  let hook_name := name node in
  let head_index := index node in
  base_model_original_logits ← forward base_model [] (get_inputs clean_data);
  hypothesis_model_original_logits ← forward hypothesis_model [] (get_inputs clean_data);
  fns ← build_hook_fns hook_name head_index
          base_model_clean_cache hypothesis_model_clean_cache
          base_model_corrupted_cache hypothesis_model_corrupted_cache
          ablation_type;
  base_model_intervened_logits ←
    forward base_model [(hook_name, fns.1)] (get_inputs clean_data);
  hypothesis_model_intervened_logits ←
    forward hypothesis_model [(hook_name, fns.2)] (get_inputs clean_data);
  let base_model_original_logits := remove_bos base_model_original_logits in
  let hypothesis_model_original_logits := remove_bos hypothesis_model_original_logits in
  let base_model_intervened_logits := remove_bos base_model_intervened_logits in
  let hypothesis_model_intervened_logits := remove_bos hypothesis_model_intervened_logits in
  if is_categorical base_model then
    let base_model_original_logits := map (map log_softmax) base_model_original_logits in
    let hypothesis_model_original_logits :=
      map (map log_softmax) hypothesis_model_original_logits in
    let base_model_intervened_logits := map (map log_softmax) base_model_intervened_logits in
    let hypothesis_model_intervened_logits :=
      map (map log_softmax) hypothesis_model_intervened_logits in
    let base_original_labels := labels base_model_original_logits in
    let hypothesis_original_labels := labels hypothesis_model_original_logits in
    let base_intervened_labels := labels base_model_intervened_logits in
    let hypothesis_intervened_labels := labels hypothesis_model_intervened_logits in
    let kl := kl_div hypothesis_model_intervened_logits base_model_intervened_logits in
    let same_outputs_between_both_models_after_intervention :=
      same_labels base_intervened_labels hypothesis_intervened_labels in
    let acc := mean_bool same_outputs_between_both_models_after_intervention in
    let base_model_effect :=
      mean_bool (changed_labels base_original_labels base_intervened_labels) in
    let hypothesis_model_effect :=
      mean_bool (changed_labels hypothesis_original_labels hypothesis_intervened_labels) in
    if String.eqb ablation_type "resample" then
      selected ← masked same_outputs_between_both_models_after_intervention
                        (outputs_differ clean_data corrupted_data);
      Ok (Categorical kl acc base_model_effect hypothesis_model_effect
                      (Some (mean_bool selected)))
    else
      Ok (Categorical kl acc base_model_effect hypothesis_model_effect None)
  else
    let acc :=
      mean_bool (close_entries base_model_intervened_logits
                               hypothesis_model_intervened_logits) in
    Ok (Continuous acc
          (mean_abs_diff base_model_original_logits base_model_intervened_logits)
          (mean_abs_diff hypothesis_model_original_logits
                         hypothesis_model_intervened_logits)).

(** [evaluate_iia]: the rows of the nodes that are not skipped, keyed by
    [str(node)]; [all_nodes] is [set(full_circuit.nodes)] in the order of
    iteration. *)
Definition evaluate_iia
    (str : CircuitNode -> string) (all_nodes : list CircuitNode)
    (base_model hypothesis_model : model)
    (clean_data corrupted_data : dataset)
    (base_model_corrupted_cache hypothesis_model_corrupted_cache
     base_model_clean_cache hypothesis_model_clean_cache : gmap string tensor)
    (iia_granularity ablation_type : string)
  : result (gmap string (node_result K)) :=
  foldl (fun acc node =>
           results_by_node ← acc;
           if contains (name node) "mlp_in" then Ok results_by_node
           else if negb (String.eqb iia_granularity "qkv")
                   && is_qkv_granularity_hook (name node) then Ok results_by_node
           else
             r ← evaluate_node base_model hypothesis_model clean_data corrupted_data
                   base_model_corrupted_cache hypothesis_model_corrupted_cache
                   base_model_clean_cache hypothesis_model_clean_cache
                   ablation_type node;
             Ok (<[str node := r]> results_by_node))
        (Ok ∅) all_nodes.

(** *** The table over all ablation types *)

(** [run_with_cache m x] is the cache of [m.run_with_cache(x)]. *)
Variable run_with_cache : model -> inputs -> result (gmap string tensor).

(** The values of a row of the table. *)
Inductive cell : Type :=
| CStr (s : string)
| CHead (head_index : option nat)
| CBool (b : bool)
| CFloat (x : pyfloat Q)
| CMetric (k : K).

(** [result_dict.items()] for a row of [evaluate_iia]. *)
Definition result_items (r : node_result K) : list (string * cell) :=
  match r with
  | Categorical kl acc base_effect hypothesis_effect effective =>
      [("kl_div", CMetric kl); ("accuracy", CFloat acc);
       ("base_model_effect", CFloat base_effect);
       ("hypothesis_model_effect", CFloat hypothesis_effect)]
      ++ match effective with
         | Some e => [("effective_accuracy", CFloat e)]
         | None => []
         end
  | Continuous acc base_effect hypothesis_effect =>
      [("accuracy", CFloat acc); ("base_model_effect", CMetric base_effect);
       ("hypothesis_model_effect", CMetric hypothesis_effect)]
  end.

(** [list(typing.get_args(AblationType))] *)
Definition ablation_types : list string := ["zero"; "mean"; "resample"].

(** [table[node_str][key] = v] *)
Definition set_cell (table : gmap string (gmap string cell))
    (node_str key : string) (v : cell) : result (gmap string (gmap string cell)) :=
  match table !! node_str with
  | Some row => Ok (<[node_str := <[key := v]> row]> table)
  | None => Raise (KeyError node_str)
  end.

(** [all_nodes] is [set(full_circuit.nodes)] in the order of iteration and
    [in_circuit node] is [node in ll_circuit.nodes]; the two datasets are
    those the case returns. *)
Definition evaluate_iia_on_all_ablation_types
    (str : CircuitNode -> string) (all_nodes : list CircuitNode)
    (in_circuit : CircuitNode -> bool)
    (base_model hypothesis_model : model)
    (clean_data corrupted_data : dataset)
    (iia_granularity : string)
  : result (gmap string (gmap string cell)) :=
  base_model_corrupted_cache ← run_with_cache base_model (get_inputs corrupted_data);
  hypothesis_model_corrupted_cache ←
    run_with_cache hypothesis_model (get_inputs corrupted_data);
  base_model_clean_cache ← run_with_cache base_model (get_inputs clean_data);
  hypothesis_model_clean_cache ← run_with_cache hypothesis_model (get_inputs clean_data);
  let iia_evaluation_results :=
    foldl (fun table node =>
             let node_str := str node in
             if contains (name node) "mlp_in" then table
             else if negb (String.eqb iia_granularity "qkv")
                     && is_qkv_granularity_hook (name node) then table
             else
               <[node_str := <["node" := CStr node_str]>
                             (<["hook_name" := CStr (name node)]>
                             (<["head_index" := CHead (index node)]>
                             (<["in_circuit" := CBool (in_circuit node)]> ∅)))]> table)
          ∅ all_nodes in
  foldl (fun acc ablation_type =>
           table ← acc;
           results_by_node ←
             evaluate_iia str all_nodes base_model hypothesis_model
                          clean_data corrupted_data
                          base_model_corrupted_cache hypothesis_model_corrupted_cache
                          base_model_clean_cache hypothesis_model_clean_cache
                          iia_granularity ablation_type;
           foldl (fun acc item =>
                    foldl (fun acc entry =>
                             table ← acc;
                             set_cell table item.1
                                      (entry.1 ++ "_" ++ ablation_type ++ "_ablation")%string
                                      entry.2)
                          acc (result_items item.2))
                 (Ok table) (map_to_list results_by_node))
        (Ok iia_evaluation_results) ablation_types.

End Evaluator.

(** A network for examples, over any scalars with a [zero] and a [one]:
    without a patch it predicts the token it reads, under a patch it gives
    the same logits everywhere.  A dataset is its inputs and one correct
    output for each. *)
Definition example_forward {F : Type} (zero one : F) (m : unit)
    (hooks : list (string * hook_fn)) (x : list (list nat))
  : result (list (list (list F))) :=
  Ok (map (map (fun tok =>
                  match hooks with
                  | [] => if tok =? 1 then [one; zero] else [zero; one]
                  | _ => [zero; zero]
                  end)) x).

Definition example_outputs_differ (clean corrupted : list (list nat) * list nat)
  : list bool :=
  zip_with (fun a b => negb (a =? b)) clean.2 corrupted.2.

Definition example_clean : list (list nat) * list nat := ([[0; 1]; [0; 2]], [1; 2]).
Definition example_corrupted : list (list nat) * list nat := ([[0; 2]; [0; 2]], [2; 2]).

(** A clean activation for examples: two inputs, one position, two features. *)
Definition example_activation : tensor :=
  mkTensor [2; 1; 2] [1; 2; 3; 4]%Q.

End IIA.

(** ** The address model and the correspondence ([iit_utils/correspondence.py]) *)

Module Corr.

(** [iit.utils.index.TorchIndex], as the tuple it is built from. *)
Inductive ix_item : Type :=
| IxSlice            (* [:] *)
| IxNone             (* [None] *)
| IxInt (n : Z).

Definition TorchIndex : Type := list ix_item.

(** The third component of a location. *)
Inductive unit_spec : Type :=
| UnitNone
| UnitInt (n : Z)
| UnitIndex (ix : TorchIndex).

Definition location : Type := Z * string * unit_spec.

#[global] Instance ix_item_eq_dec : EqDecision ix_item.
Proof. solve_decision. Defined.

#[global] Instance unit_spec_eq_dec : EqDecision unit_spec.
Proof. solve_decision. Defined.

Definition is_attn_or_mlp (attn_or_mlp : string) : bool :=
  String.eqb attn_or_mlp "attn" || String.eqb attn_or_mlp "mlp".

Definition unknown_attn_or_mlp (attn_or_mlp : string) : exn :=
  AssertionError (Some ("Unknown attn_or_mlp " ++ attn_or_mlp)%string).

Section HookName.

(** [repr] of a location, used by the ["wrapper"] style; it depends on how
    the index library prints a [TorchIndex]. *)
Variable repr_loc : location -> string.

Definition hook_name (loc : location) (style : string) : result string :=
  let '(layer, attn_or_mlp, unit) := loc in
  if negb (is_attn_or_mlp attn_or_mlp) then Raise (unknown_attn_or_mlp attn_or_mlp)
  else if String.eqb style "tl" then
    Ok ("blocks." ++ pretty layer ++ "." ++ attn_or_mlp ++ "."
        ++ (if String.eqb attn_or_mlp "attn" then "hook_result" else "hook_post"))%string
  else if String.eqb style "wrapper" then
    Ok ("mod.blocks." ++ repr_loc loc ++ ".mod." ++ attn_or_mlp ++ ".hook_point")%string
  else Raise (ValueError ("Unknown style " ++ style)%string).

End HookName.

Definition idx (loc : location) : result TorchIndex :=
  let '(_, attn_or_mlp, unit) := loc in
  match unit with
  | UnitIndex ix => Ok ix
  | _ =>
      if negb (is_attn_or_mlp attn_or_mlp) then Raise (unknown_attn_or_mlp attn_or_mlp)
      else if String.eqb attn_or_mlp "attn" then
        Ok [IxSlice; IxSlice;
            match unit with UnitInt n => IxInt n | _ => IxNone end;
            IxSlice]
      else
        match unit with
        | UnitNone => Ok [IxNone]
        | _ => Raise (AssertionError None)
        end
  end.

(** [TracrHLNode]; [__eq__] compares the four fields. *)
Record TracrHLNode : Type := mkHLNode {
  hl_name : string;
  label : string;
  num_classes : Z;
  hl_index : option TorchIndex
}.

(** [mp.LLNode(name, index, subspace)] *)
Record LLNode : Type := mkLLNode {
  ll_name : string;
  ll_index : TorchIndex;
  subspace : option TorchIndex
}.

#[global] Instance TracrHLNode_eq_dec : EqDecision TracrHLNode.
Proof. solve_decision. Defined.

#[global] Instance LLNode_eq_dec : EqDecision LLNode.
Proof. solve_decision. Defined.

(** [TracrCorrespondence(dict[TracrHLNode, set[LLNode]])]: the items in
    the order of iteration, each set as its members in the order of
    iteration. *)
Definition TracrCorrespondence : Type := list (TracrHLNode * list LLNode).

Definition keys (d : TracrCorrespondence) : list TracrHLNode := map fst d.

(** [d[k]] *)
Fixpoint getitem (d : TracrCorrespondence) (k : TracrHLNode) : option (list LLNode) :=
  match d with
  | [] => None
  | (k', v) :: d' => if decide (k = k') then Some v else getitem d' k
  end.

(** [d[k] = v]: an existing key keeps its place. *)
Fixpoint setitem (d : TracrCorrespondence) (k : TracrHLNode) (v : list LLNode)
  : TracrCorrespondence :=
  match d with
  | [] => [(k, v)]
  | (k', v') :: d' => if decide (k = k') then (k, v) :: d' else (k', v') :: setitem d' k v
  end.

(** The keys are pairwise different and no set lists a member twice. *)
Definition is_dict (d : TracrCorrespondence) : Prop :=
  NoDup (keys d) /\ Forall (fun kv => NoDup kv.2) d.

(** [a == b] on sets. *)
Definition set_eqb (a b : list LLNode) : bool :=
  (length a =? length b) && forallb (fun x => bool_decide (x ∈ b)) a.

(** [a == b] on dictionaries: as many keys, and every key of [a] is one of
    [b] with an equal value. *)
Definition dict_eqb (a b : TracrCorrespondence) : bool :=
  (length a =? length b)
  && forallb (fun kv => match getitem b kv.1 with
                        | Some v => set_eqb kv.2 v
                        | None => false
                        end) a.

Record EdgeCorr : Type := mkEdgeCorr {
  hookpoint_from : string;
  index_from : TorchIndex;
  hookpoint_to : string;
  index_to : TorchIndex
}.

(** The inner loop [for hl_node in hl_ll_corr.keys()] that looks the two
    endpoints up by label. *)
Definition find_hl_nodes (tracr_n_from tracr_n_to : string) (hl_nodes : list TracrHLNode)
  : option TracrHLNode * option TracrHLNode :=
  foldl (fun '(hl_node_from, hl_node_to) hl_node =>
           if String.eqb tracr_n_from (label hl_node) then (Some hl_node, hl_node_to)
           else if String.eqb tracr_n_to (label hl_node) then (hl_node_from, Some hl_node)
           else (hl_node_from, hl_node_to))
        (None, None) hl_nodes.

Definition edge_corrs (ll_froms ll_tos : list LLNode) : list EdgeCorr :=
  ll_from ← ll_froms;
  ll_to ← ll_tos;
  [mkEdgeCorr (ll_name ll_from) (ll_index ll_from) (ll_name ll_to) (ll_index ll_to)].

Definition make_edge_corr (tracr_edges : list (string * string))
    (hl_ll_corr : TracrCorrespondence) : result (list EdgeCorr) :=
  foldl (fun acc tracr_edge =>
           ll_edges ← acc;
           let '(tracr_n_from, tracr_n_to) := tracr_edge in
           match find_hl_nodes tracr_n_from tracr_n_to (keys hl_ll_corr) with
           | (Some hl_node_from, Some hl_node_to) =>
               match getitem hl_ll_corr hl_node_from, getitem hl_ll_corr hl_node_to with
               | Some ll_froms, Some ll_tos => Ok (ll_edges ++ edge_corrs ll_froms ll_tos)
               | _, _ => Raise (KeyError "hl_node")
               end
           | _ => Ok ll_edges
           end)
        (Ok []) tracr_edges.

(** The last of [hl_nodes] whose label is [l]: the node the loop of
    [find_hl_nodes] is left with for an endpoint [l]. *)
Definition last_with_label (l : string) (hl_nodes : list TracrHLNode) : option TracrHLNode :=
  List.find (fun hl_node => String.eqb l (label hl_node)) (rev hl_nodes).

(** What an edge between two different labels adds to the result. *)
Definition edge_contribution (hl_ll_corr : TracrCorrespondence) (edge : string * string)
  : list EdgeCorr :=
  match last_with_label edge.1 (keys hl_ll_corr), last_with_label edge.2 (keys hl_ll_corr) with
  | Some hl_from, Some hl_to =>
      match getitem hl_ll_corr hl_from, getitem hl_ll_corr hl_to with
      | Some ll_froms, Some ll_tos => edge_corrs ll_froms ll_tos
      | _, _ => []
      end
  | _, _ => []
  end.

(** What any edge adds to the result: nothing when its two labels are the
    same. *)
Definition edge_result (hl_ll_corr : TracrCorrespondence) (edge : string * string)
  : list EdgeCorr :=
  if String.eqb edge.1 edge.2 then [] else edge_contribution hl_ll_corr edge.

(** A correspondence for examples: [u] is realised by two heads of the
    first attention layer, [v] by the first mlp. *)
Definition example_u : TracrHLNode :=
  mkHLNode "blocks.0.attn.hook_result" "u" 0 (Some [IxSlice; IxSlice; IxInt 0; IxSlice]).
Definition example_v : TracrHLNode :=
  mkHLNode "blocks.0.mlp.hook_post" "v" 0 (Some [IxNone]).
Definition example_A : LLNode :=
  mkLLNode "blocks.0.attn.hook_result" [IxSlice; IxSlice; IxInt 0; IxSlice] None.
Definition example_B : LLNode :=
  mkLLNode "blocks.0.attn.hook_result" [IxSlice; IxSlice; IxInt 1; IxSlice] None.
Definition example_C : LLNode :=
  mkLLNode "blocks.0.mlp.hook_post" [IxNone] None.
Definition example_corr : TracrCorrespondence :=
  [(example_u, [example_A; example_B]); (example_v, [example_C])].

(** *** Persistence

    [pickle] is modelled at the level of its reduction protocol: a
    dictionary subclass is written as the sequence of its items, and read
    back by storing each item with [obj[key] = value] into a fresh
    dictionary, every set being rebuilt by adding its members.  The
    encoding of that sequence as bytes is not modelled.  The file system
    maps file names to what was written. *)

Definition pickled : Type := list (TracrHLNode * list LLNode).

Definition set_add (s : list LLNode) (x : LLNode) : list LLNode :=
  if bool_decide (x ∈ s) then s else s ++ [x].

Definition set_of (members : list LLNode) : list LLNode := foldl set_add [] members.

Definition pickle_dumps (d : TracrCorrespondence) : pickled := d.

Definition pickle_loads (p : pickled) : TracrCorrespondence :=
  foldl (fun d kv => setitem d kv.1 (set_of kv.2)) [] p.

(** [cls(d)]: the items of [d] stored into a new dictionary. *)
Definition cls (d : TracrCorrespondence) : TracrCorrespondence :=
  foldl (fun d' kv => setitem d' kv.1 kv.2) [] d.

Definition save (self : TracrCorrespondence) (filename : string)
    (fs : gmap string pickled) : gmap string pickled :=
  <[filename := pickle_dumps self]> fs.

Definition load (filename : string) (fs : gmap string pickled)
  : result TracrCorrespondence :=
  match fs !! filename with
  | Some p => Ok (cls (pickle_loads p))
  | None => Raise (FileNotFoundError filename)
  end.

(** *** Building a correspondence ([make_hl_ll_corr]) *)

Section MakeCorr.

(** The values of tracr's basis directions are of any type [V] with a
    decidable equality.  [tracr_hl_corr.items()] is a list of basis
    directions with their high-level locations; [tracr_ll_corr] maps a name
    and a value to a set of low-level locations. *)
Context {V : Type} `{EqDecision V}.
Variable repr_loc : location -> string.

Record BasisDirection : Type := mkBasis {
  bd_name : string;
  bd_value : V
}.

(** [tracr_ll_corr[name, value]] *)
Fixpoint ll_realizations (tracr_ll_corr : list (string * V * list location))
    (name : string) (value : V) : result (list location) :=
  match tracr_ll_corr with
  | [] => Raise (KeyError name)
  | (n, v, ll_locs) :: rest =>
      if decide (n = name /\ v = value) then Ok ll_locs
      else ll_realizations rest name value
  end.

(** [TracrHLNode(hook_name(hl_loc, style), label=basis_dir.name, num_classes=0, idx=idx(hl_loc))] *)
Definition hl_node (basis_dir : BasisDirection) (hl_loc : location)
    (hook_name_style : string) : result TracrHLNode :=
  n ← hook_name repr_loc hl_loc hook_name_style;
  ix ← idx hl_loc;
  Ok (mkHLNode n (bd_name basis_dir) 0 (Some ix)).

(** [mp.LLNode(hook_name(loc, style), idx(loc))] *)
Definition ll_node (loc : location) (style : string) : result LLNode :=
  n ← hook_name repr_loc loc style;
  ix ← idx loc;
  Ok (mkLLNode n ix None).

Definition make_hl_ll_corr
    (tracr_hl_corr : list (BasisDirection * location))
    (tracr_ll_corr : option (list (string * V * list location)))
    (hook_name_style : string) : result TracrCorrespondence :=
  match tracr_ll_corr with
  | None =>
      d ← foldl (fun acc item =>
                   d ← acc;
                   k ← hl_node item.1 item.2 hook_name_style;
                   n ← ll_node item.2 hook_name_style;
                   Ok (setitem d k [n]))
                (Ok []) tracr_hl_corr;
      Ok (cls d)
  | Some ll_corr =>
      d ← foldl (fun acc item =>
                   d ← acc;
                   k ← hl_node item.1 item.2 hook_name_style;
                   ll_locs ← ll_realizations ll_corr (bd_name item.1) (bd_value item.1);
                   nodes ← mapM (fun ll_loc => ll_node ll_loc "tl") ll_locs;
                   Ok (setitem d k (set_of nodes)))
                (Ok []) tracr_hl_corr;
      Ok (cls d)
  end.

(** A basis direction is realised: its node can be built, the map has an
    entry for its name and value, and every location of that entry has a
    hook name and an index. *)
Definition realised (ll_corr : list (string * V * list location)) (style : string)
    (item : BasisDirection * location) : Prop :=
  (exists k, hl_node item.1 item.2 style = Ok k) /\
  exists ll_locs,
    ll_realizations ll_corr (bd_name item.1) (bd_value item.1) = Ok ll_locs /\
    Forall (fun ll_loc => exists n, ll_node ll_loc "tl" = Ok n) ll_locs.

End MakeCorr.

End Corr.

(** ** The unique-data selector ([utils/iit/dataset.py]) *)

(** The process-wide generator of [numpy.random]; [random_choice g n k] is
    [np.random.choice(n, k, replace=False)]. *)
Class NpRandom (nprng : Type) := {
  random_choice : nprng -> nat -> nat -> list nat * nprng;
  random_choice_length :
    forall g n k, k <= n -> length (random_choice g n k).1 = k;
  random_choice_NoDup :
    forall g n k, k <= n -> NoDup (random_choice g n k).1;
  random_choice_range :
    forall g n k i, k <= n -> i ∈ (random_choice g n k).1 -> i < n
}.

Module Dataset.

Section WithCase.

(** Rows are sequences of [token]s.  A case is the interface
    [BenchmarkCase] as this module uses it: its vocabulary, its sequence
    lengths and its generator called as [get_clean_data(count=...)], which
    returns the inputs and the correct outputs as two arrays and may draw
    from the generator of [numpy.random].  The classes of the sources have
    no parameter [count] (see [TracrCase.call_get_clean_data] below); a case
    is here any implementation that has one.  [str_row] is [str] on a row
    of a numpy array. *)
Context {token nprng : Type} `{NpRandom nprng}.

Record BenchmarkCase : Type := mkCase {
  get_vocab : list token;
  get_max_seq_len : nat;
  get_min_seq_len : nat;
  get_clean_data : nat -> nprng -> (list (list token) * list (list token)) * nprng
}.

Variable str_row : list token -> string.

Record TracrDataset : Type := mkDataset {
  data : list (list token);
  labels : list (list token)
}.

(** [array.shape] of a two-dimensional array. *)
Definition shape2 (rows : list (list token)) : nat * nat :=
  (length rows, match rows with r :: _ => length r | [] => 0 end).

(** [TracrDataset(data, labels)] with its assertion on the shapes. *)
Definition new_TracrDataset (data labels : list (list token)) : result TracrDataset :=
  if decide (shape2 data = shape2 labels) then Ok (mkDataset data labels)
  else Raise (AssertionError None).

(** [range(lo, hi)] *)
Definition range (lo hi : nat) : list nat := seq lo (hi - lo).

Definition get_total_len (case : BenchmarkCase) : nat :=
  let vals := get_vocab case in
  let max_len := get_max_seq_len case in
  let min_len := get_min_seq_len case in
  foldl (fun total_len l => total_len + length vals ^ l) 0 (range min_len (max_len + 1)).

(** [", ".join(s)] for a string [s]: the separator between its characters. *)
Fixpoint join_chars (s : string) : string :=
  match s with
  | EmptyString => EmptyString
  | String c EmptyString => String c EmptyString
  | String c s' => String c (", " ++ join_chars s')%string
  end.

Definition row_key (row : list token) : string := join_chars (str_row row).

(** [np.unique(keys)]: the different keys, sorted. *)
Definition np_unique (keys : list string) : list string :=
  merge_sort (fun a b => String.leb a b) (remove_dups keys).

(** The second result of [np.unique(keys, return_inverse=True)]. *)
Definition inverse (arr keys : list string) : list nat :=
  map (fun k => match list_find (fun a => a = k) arr with
                | Some (i, _) => i
                | None => 0
                end) keys.

(** [array[indices]] *)
Definition take_indices {A : Type} (array : list A) (indices : list nat)
  : result (list A) :=
  mapM (fun i => match array !! i with
                 | Some x => Ok x
                 | None => Raise (IndexError "index is out of bounds for axis 0")
                 end) indices.

(** [np.where(idxs == i)[0][0]] *)
Definition first_where (idxs : list nat) (i : nat) : result nat :=
  match list_find (fun j => j = i) idxs with
  | Some (p, _) => Ok p
  | None => Raise (IndexError "index 0 is out of bounds for axis 0 with size 0")
  end.

Definition get_unique_data (case : BenchmarkCase) (max_len : nat) (g : nprng)
  : result TracrDataset * nprng :=
  let total_len := get_total_len case in
  if total_len <? max_len then
    let '((test_inputs, test_outputs), g) := get_clean_data case total_len g in
    (new_TracrDataset test_inputs test_outputs, g)
  else
    let '((test_inputs, test_outputs), g) := get_clean_data case (3 * max_len) g in
    let keys := map row_key test_inputs in
    let arr := np_unique keys in
    let idxs := inverse arr keys in
    let all_possible_inputs := seq 0 (length arr) in
    match mapM (first_where idxs) all_possible_inputs with
    | Raise e => (Raise e, g)
    | Ok first_occurences =>
        match take_indices test_inputs first_occurences,
              take_indices test_outputs first_occurences with
        | Raise e, _ | Ok _, Raise e => (Raise e, g)
        | Ok unique_test_inputs, Ok unique_test_outputs =>
            if max_len <? length unique_test_inputs then
              let '(random_indices, g) :=
                random_choice g (length unique_test_inputs) max_len in
              (unique_test_inputs ← take_indices unique_test_inputs random_indices;
               unique_test_outputs ← take_indices unique_test_outputs random_indices;
               new_TracrDataset unique_test_inputs unique_test_outputs, g)
            else (new_TracrDataset unique_test_inputs unique_test_outputs, g)
        end
    end.

(** [ds] lists rows of [inputs], each with the row of [outputs] at the same
    position, and each the first row of [inputs] with its key. *)
Definition selected_from (inputs outputs : list (list token)) (ds : TracrDataset) : Prop :=
  exists indices,
    Forall2 (fun i x => inputs !! i = Some x) indices (data ds) /\
    Forall2 (fun i y => outputs !! i = Some y) indices (labels ds) /\
    Forall (fun i => forall j x x', j < i -> inputs !! j = Some x ->
                       inputs !! i = Some x' -> row_key x <> row_key x') indices.

End WithCase.

End Dataset.

(** A case for examples: one token after BOS out of a vocabulary of two, so
    two possible inputs; the generator repeats each of its draws once. *)
Definition toy_str_row (row : list nat) : string :=
  String.concat " " (map pretty row).

#[global, refine] Instance toy_NpRandom : NpRandom nat :=
  {| random_choice := toy_sample |}.
Proof.
  - intros g n k _. unfold toy_sample. simpl. destruct (Nat.even g); apply length_seq.
  - intros g n k _. unfold toy_sample. simpl. destruct (Nat.even g); apply NoDup_seq.
  - intros g n k i Hk. unfold toy_sample. simpl.
    destruct (Nat.even g); rewrite elem_of_seq; lia.
Defined.

Definition toy_case : @Dataset.BenchmarkCase nat nat :=
  {| Dataset.get_vocab := [1; 2];
     Dataset.get_max_seq_len := 1;
     Dataset.get_min_seq_len := 1;
     Dataset.get_clean_data := fun count g =>
       ((map (fun i => [0; 1 + (i / 2) mod 2]) (seq 0 count),
         map (fun i => [0; 2 - (i / 2) mod 2]) (seq 0 count)), g) |}.

(** ** The data of a case ([benchmark/tracr_benchmark_case.py]) *)

(** The three global generators that [get_clean_data] seeds and draws
    from: the one of [random] ([random_randint] is [random.randint]), the
    one of [numpy.random] ([np_random_choice g vals n] is
    [np.random.choice(vals, size=n).tolist()], [np_random_shuffle g n] is
    [np.random.shuffle] on [np.arange(n)]) and the one of torch, which is
    only seeded.  What the draws are is left open, up to their ranges; a
    choice is made among the members of a list that is not empty, or is
    a choice of no member. *)
Class CaseRandom (token pyrng nprng trng : Type) := {
  random_seed : nat -> pyrng;
  np_random_seed : nat -> nprng;
  torch_manual_seed : nat -> trng;
  random_randint : pyrng -> nat -> nat -> nat * pyrng;
  random_randint_range :
    forall g a b, a <= b -> a <= (random_randint g a b).1 <= b;
  np_random_choice : nprng -> list token -> nat -> list token * nprng;
  np_random_choice_length :
    forall g vals n, vals <> [] \/ n = 0 -> length (np_random_choice g vals n).1 = n;
  np_random_choice_elem :
    forall g vals n v, vals <> [] \/ n = 0 ->
                       v ∈ (np_random_choice g vals n).1 -> v ∈ vals;
  np_random_shuffle : nprng -> nat -> list nat * nprng;
  np_random_shuffle_Permutation :
    forall g n, (np_random_shuffle g n).1 ≡ₚ seq 0 n
}.

Module TracrCase.

(** The exceptions that the generation of the data can meet. *)
Inductive error : Type :=
| TypeError (msg : string)
| ZeroDivisionError (msg : string)
| ListIndexError (msg : string)
| AssertionError (msg : string)
| ValueError (msg : string)
| RuntimeError (msg : string).

Inductive outcome (A : Type) : Type :=
| Done (a : A)
| Fail (e : error).
Arguments Done {A} a.
Arguments Fail {A} e.

#[global] Instance outcome_ret : MRet outcome := @Done.
#[global] Instance outcome_bind : MBind outcome :=
  fun A B k r =>
    match r with
    | Done a => k a
    | Fail e => Fail e
    end.

Section WithCase.

(** Sequences are lists of [token]s, among them the markers [TRACR_BOS]
    and [TRACR_PAD].  The case gives its vocabulary (a set, listed without
    an order), its two sequence lengths and its program, run by
    [get_correct_output_for_input]; [sorted] is the builtin of Python. *)
Context {token : Type}.
Variables TRACR_BOS TRACR_PAD : token.
Variable get_vocab : list token.
Variable sorted : list token -> list token.
Variables get_max_seq_len get_min_seq_len : nat.
Variable get_correct_output_for_input : list token -> list token.

(** [vals[i]] *)
Definition getitem (vals : list token) (i : nat) : outcome token :=
  match vals !! i with
  | Some v => Done v
  | None => Fail (ListIndexError "list index out of range")
  end.

(** The loop [while num: sample.append(vals[num % base]); num //= base].
    For a [base] of at least 2, [num] bounds the number of iterations; for
    the base 1 the loop of the source ends only for [num = 0], the one
    number [gen_all_data] runs it on. *)
Fixpoint digits_loop (fuel num base : nat) (vals : list token)
  : outcome (list token) :=
  match fuel with
  | 0 => Done []
  | S fuel' =>
      if num =? 0 then Done []
      else if base =? 0 then Fail (ZeroDivisionError "integer modulo by zero")
      else
        v ← getitem vals (num mod base);
        sample ← digits_loop fuel' (num / base) base vals;
        Done (v :: sample)
  end.

(** The body of [for index in range(count)] up to the reversed sample. *)
Definition sample_of_index (vals : list token) (seq_len index : nat)
  : outcome (list token) :=
  let base := length vals in
  sample ← digits_loop index index base vals;
  sample ← (if length sample <? seq_len - 1 then
              v0 ← getitem vals 0;
              Done (sample ++ replicate (seq_len - 1 - length sample) v0)
            else Done sample);
  Done (rev sample).

(** [range(len(vals) ** (seq_len - 1))]: a negative power of an integer is
    a float, which [range] refuses, and zero has no negative power. *)
Definition index_range (base seq_len : nat) : outcome (list nat) :=
  match seq_len with
  | 0 =>
      if base =? 0
      then Fail (ZeroDivisionError "0.0 cannot be raised to a negative power")
      else Fail (TypeError "'float' object cannot be interpreted as an integer")
  | S k => Done (seq 0 (base ^ k))
  end.

Definition gen_all_data (min_seq_len max_seq_len : nat)
  : outcome (list (list token) * list (list token)) :=
  let vals := sorted get_vocab in
  foldl (fun acc seq_len =>
           data ← acc;
           let pad_len := max_seq_len - seq_len in
           let pad := replicate pad_len TRACR_PAD in
           indices ← index_range (length vals) seq_len;
           foldl (fun acc index =>
                    data ← acc;
                    sample ← sample_of_index vals seq_len index;
                    let output := get_correct_output_for_input sample in
                    Done (data.1 ++ [TRACR_BOS :: sample ++ pad],
                          data.2 ++ [TRACR_BOS :: output ++ pad]))
                 (Done data) indices)
        (Done ([], [])) (Dataset.range min_seq_len (max_seq_len + 1)).

Definition get_total_data_len : nat :=
  let vals := sorted get_vocab in
  let max_len := get_max_seq_len in
  let min_len := get_min_seq_len in
  foldl (fun total_len l => total_len + length vals ^ l) 0
        (Dataset.range min_len (max_len + 1)).

End WithCase.

(** *** Calls by keyword *)








Section WithGenerators.

Context {token pyrng nprng trng : Type} `{EqDecision token}
        `{CaseRandom token pyrng nprng trng}.
Variables TRACR_BOS TRACR_PAD : token.
Variable get_vocab : list token.
Variable sorted : list token -> list token.
Variables get_max_seq_len get_min_seq_len : nat.
Variable get_correct_output_for_input : list token -> list token.
(** [str] on a list of tokens. *)
Variable str : list token -> string.

(** The states of the three global generators. *)
Record generators : Type := mkGenerators {
  random_state : pyrng;
  numpy_state : nprng;
  torch_state : trng
}.

Definition gen_random_input_output (vals : list token) (min_seq_len max_seq_len : nat)
    (st : generators) : outcome (list token * list token) * generators :=
  if max_seq_len <? min_seq_len then
    (Fail (ValueError "empty range for randrange()"), st)
  else
    let '(seq_len, g) := random_randint (random_state st) min_seq_len max_seq_len in
    let st := mkGenerators g (numpy_state st) (torch_state st) in
    let pad_len := max_seq_len - seq_len in
    let pad := replicate pad_len TRACR_PAD in
    if bool_decide (vals = []) && negb (seq_len =? 1) then
      (Fail (ValueError "'a' cannot be empty unless no samples are taken"), st)
    else if seq_len =? 0 then
      (Fail (ValueError "negative dimensions are not allowed"), st)
    else
      let '(sample, g) := np_random_choice (numpy_state st) vals (seq_len - 1) in
      let st := mkGenerators (random_state st) g (torch_state st) in
      let output := get_correct_output_for_input sample in
      (Done (TRACR_BOS :: sample ++ pad, TRACR_BOS :: output ++ pad), st).

(** The loop [for _ in range(n_samples)] of [sample_data]. *)
Fixpoint sample_data_loop (n : nat) (vals : list token) (min_seq_len max_seq_len : nat)
    (data : list (list token) * list (list token)) (st : generators)
  : outcome (list (list token) * list (list token)) * generators :=
  match n with
  | 0 => (Done data, st)
  | S n' =>
      match gen_random_input_output vals min_seq_len max_seq_len st with
      | (Fail e, st) => (Fail e, st)
      | (Done (input, output), st) =>
          sample_data_loop n' vals min_seq_len max_seq_len
                           (data.1 ++ [input], data.2 ++ [output]) st
      end
  end.

Definition sample_data (n_samples min_seq_len max_seq_len : nat) (st : generators)
  : outcome (list (list token) * list (list token)) * generators :=
  let vals := sorted get_vocab in
  sample_data_loop n_samples vals min_seq_len max_seq_len ([], []) st.

(** The members of [unique_inputs]: the loop looks a string up in a set to
    which it adds tuples. *)
Inductive pyobj : Type :=
| PyStr (s : string)
| PyTuple (t : list token).

#[global] Instance pyobj_eq_dec : EqDecision pyobj.
Proof. solve_decision. Defined.

(** The loop [for i in range(len(input_data))] under [if unique_data]. *)
Definition remove_duplicates (input_data output_data : list (list token))
  : outcome (list (list token) * list (list token)) :=
  r ← foldl (fun acc i =>
               '(unique_inputs, unique_input_data, unique_output_data) ← acc;
               input ← match input_data !! i with
                       | Some input => Done input
                       | None => Fail (ListIndexError "list index out of range")
                       end;
               if bool_decide (PyStr (str input) ∉ unique_inputs) then
                 output ← match output_data !! i with
                          | Some output => Done output
                          | None => Fail (ListIndexError "list index out of range")
                          end;
                 Done (if bool_decide (PyTuple input ∈ unique_inputs)
                       then unique_inputs else unique_inputs ++ [PyTuple input],
                       unique_input_data ++ [input],
                       unique_output_data ++ [output])
               else Done (unique_inputs, unique_input_data, unique_output_data))
            (Done ([], [], [])) (seq 0 (length input_data));
  Done (r.1.2, r.2).

(** [[data[i] for i in indices]] *)
Definition reorder (data : list (list token)) (indices : list nat)
  : outcome (list (list token)) :=
  mapM (fun i => match data !! i with
                 | Some row => Done row
                 | None => Fail (ListIndexError "list index out of range")
                 end) indices.

(** The three calls that seed the generators. *)
Definition seed_generators (seed : option nat) (st : generators)
  : outcome unit * generators :=
  match seed with
  | None => (Done tt, st)
  | Some seed =>
      if (2 ^ 64 <=? N.of_nat seed)%N then
        (Fail (RuntimeError "Overflow when unpacking long"), st)
      else
        let st := mkGenerators (random_state st) (numpy_state st)
                               (torch_manual_seed seed) in
        if (2 ^ 32 <=? N.of_nat seed)%N then
          (Fail (ValueError "Seed must be between 0 and 2**32 - 1"), st)
        else
          (Done tt, mkGenerators (random_seed seed) (np_random_seed seed)
                                 (torch_state st))
  end.

(** The choice between all the sequences and a sample; [None] when no
    branch of the source assigns [input_data]. *)
Definition produce_data (min_samples max_samples : option nat)
    (min_seq_len max_seq_len : nat) (st : generators)
  : outcome (option (list (list token) * list (list token))) * generators :=
  let total := get_total_data_len get_vocab sorted get_max_seq_len get_min_seq_len in
  let all_data :=
    (data ← gen_all_data TRACR_BOS TRACR_PAD get_vocab sorted
                         get_correct_output_for_input min_seq_len max_seq_len;
     Done (Some data), st) in
  let sampled n :=
    let '(r, st) := sample_data n min_seq_len max_seq_len st in
    (data ← r; Done (Some data), st) in
  match min_samples, max_samples with
  | Some lo, Some hi =>
      if (lo <? total) && (total <? hi) then all_data
      else if total <? lo then sampled lo
      else sampled hi
  | None, None => all_data
  | Some lo, None =>
      if total <? lo then sampled lo
      else (Done None, st)
  | None, Some hi => sampled hi
  end.

Definition get_clean_data (min_samples max_samples seed : option nat)
    (unique_data variable_length_seqs : bool) (st : generators)
  : outcome (list (list token) * list (list token)) * generators :=
  let max_seq_len := get_max_seq_len in
  let min_seq_len := if variable_length_seqs then get_min_seq_len else max_seq_len in
  if min_seq_len <? 2 then
    (Fail (AssertionError "min_seq_len must be at least 2 to account for BOS"), st)
  else
    match seed_generators seed st with
    | (Fail e, st) => (Fail e, st)
    | (Done _, st) =>
        match produce_data min_samples max_samples min_seq_len max_seq_len st with
        | (Fail e, st) => (Fail e, st)
        | (Done None, st) =>
            (Fail (TypeError "'NoneType' object is not iterable"), st)
        | (Done (Some (input_data, output_data)), st) =>
            if negb (1 <? length (remove_dups output_data)) then
              (Fail (AssertionError "All outputs are the same for this case"), st)
            else
              match (if unique_data then remove_duplicates input_data output_data
                     else Done (input_data, output_data)) with
              | Fail e => (Fail e, st)
              | Done (input_data, output_data) =>
                  let '(indices, g) :=
                    np_random_shuffle (numpy_state st) (length input_data) in
                  let st := mkGenerators (random_state st) g (torch_state st) in
                  (input_data' ← reorder input_data indices;
                   output_data' ← reorder output_data indices;
                   Done (input_data', output_data'), st)
              end
        end
    end.

Definition get_corrupted_data (min_samples max_samples seed : option nat)
    (unique_data : bool) (st : generators)
  : outcome (list (list token) * list (list token)) * generators :=
  get_clean_data min_samples max_samples seed unique_data false st.


End WithGenerators.

End TracrCase.

(** A case for examples: the vocabulary [1, 2], the markers [0] and [9],
    and a program that reverses its input. *)
Definition example_gen_all_data (min_seq_len max_seq_len : nat)
  : TracrCase.outcome (list (list nat) * list (list nat)) :=
  TracrCase.gen_all_data 0 9 [1; 2] (fun l => l) (@rev nat) min_seq_len max_seq_len.

(** Generators for examples: a state is a counter; [randint] alternates
    between its two bounds, [choice] reads the list round and round from
    the position of the counter and [shuffle] reverses. *)
Definition toy_choice (g : nat) (vals : list nat) (n : nat) : list nat * nat :=
  (match vals with
   | [] => []
   | v :: _ => map (fun i => nth ((g + i) mod length vals) vals v) (seq 0 n)
   end, S g).

#[global, refine] Instance toy_CaseRandom : CaseRandom nat nat nat nat :=
  {| random_seed := fun seed => seed;
     np_random_seed := fun seed => seed;
     torch_manual_seed := fun seed => seed;
     random_randint := fun g a b => (if Nat.even g then a else b, S g);
     np_random_choice := toy_choice;
     np_random_shuffle := fun g n => (rev (seq 0 n), S g) |}.
Proof.
  - intros g a b Hab. simpl. destruct (Nat.even g); lia.
  - intros g vals n Hv. unfold toy_choice. simpl. destruct vals as [|v vals].
    + destruct Hv as [Hv| ->]; [contradiction|reflexivity].
    + rewrite length_map, length_seq. reflexivity.
  - intros g vals n v _. unfold toy_choice. simpl. destruct vals as [|v0 vals].
    + intros Hin. inversion Hin.
    + intros Hin. apply list_elem_of_In, in_map_iff in Hin as (i & <- & _).
      apply list_elem_of_In, nth_In, Nat.mod_upper_bound. simpl. lia.
  - intros g n. simpl. symmetry. apply Permutation_rev.
Defined.

(** [get_clean_data] of the case of the examples, with sequences of two
    or three positions. *)
Definition example_get_clean_data (min_samples max_samples seed : option nat)
    (unique_data variable_length_seqs : bool)
    (st : @TracrCase.generators nat nat nat)
  : TracrCase.outcome (list (list nat) * list (list nat))
    * @TracrCase.generators nat nat nat :=
  TracrCase.get_clean_data 0 9 [1; 2] (fun l => l) 3 2 (@rev nat) toy_str_row
    min_samples max_samples seed unique_data variable_length_seqs st.

(** * Facts

    ** Lists and results *)

Lemma mapM_result_cons {A B} (f : A -> result B) x l :
  mapM f (x :: l) = (y ← f x; k ← mapM f l; Ok (y :: k)).
Proof. reflexivity. Qed.

Lemma bind_Ok {A B} (a : A) (k : A -> result B) : (Ok a ≫= k) = k a.
Proof. reflexivity. Qed.

Lemma Forall2_elem_r {A B} (R : A -> B -> Prop) xs ys y :
  Forall2 R xs ys -> y ∈ ys -> exists x, x ∈ xs /\ R x y.
Proof.
  intros HF Hy. apply list_elem_of_lookup in Hy as [i Hi].
  destruct (Forall2_lookup_r _ _ _ _ _ HF Hi) as (x & Hx & Hr).
  exists x. split; [eapply list_elem_of_lookup_2; eauto|auto].
Qed.

Lemma Forall2_elem_l {A B} (R : A -> B -> Prop) xs ys x :
  Forall2 R xs ys -> x ∈ xs -> exists y, y ∈ ys /\ R x y.
Proof.
  intros HF Hx. apply list_elem_of_lookup in Hx as [i Hi].
  destruct (Forall2_lookup_l _ _ _ _ _ HF Hi) as (y & Hy & Hr).
  exists y. split; [eapply list_elem_of_lookup_2; eauto|auto].
Qed.

Lemma Forall2_NoDup_inj {A B} (R : A -> B -> Prop) xs ys :
  (forall x x' y, x ∈ xs -> x' ∈ xs -> R x y -> R x' y -> x = x') ->
  Forall2 R xs ys -> NoDup xs -> NoDup ys.
Proof.
  intros Hinj HF. induction HF as [|x y xs ys Hxy HF IH]; intros Hnd.
  - constructor.
  - apply NoDup_cons in Hnd as [Hx Hnd]. apply NoDup_cons. split.
    + intros Hy. apply (Forall2_elem_r _ _ _ _ HF) in Hy as (x' & Hx' & Hr).
      assert (x = x'); [|subst; contradiction].
      eapply Hinj; eauto; set_solver.
    + apply IH; auto. intros; eapply Hinj; eauto; set_solver.
Qed.

Lemma mapM_result_Forall2 {A B} (f : A -> result B) (P : A -> B -> Prop) (l : list A) :
  Forall (fun x => exists y, f x = Ok y /\ P x y) l ->
  exists ys, mapM f l = Ok ys /\ Forall2 P l ys.
Proof.
  induction 1 as [|x l (y & Hy & HP) _ (ys & Hys & HF)].
  - exists []. split; [reflexivity|constructor].
  - exists (y :: ys). split; [|constructor; assumption].
    change (mapM f (x :: l)) with (y ← f x; k ← mapM f l; Ok (y :: k)).
    rewrite Hy. cbn [mbind result_bind]. rewrite Hys. reflexivity.
Qed.


(** ** The combinatorial sampler *)

Import Sampler.

Lemma lsb_digits_length m k i : length (lsb_digits m k i) = k.
Proof. revert i; induction k; intros; simpl; auto. Qed.

Lemma lsb_digits_zero m k : lsb_digits m k 0 = replicate k 0.
Proof.
  induction k; simpl; auto.
  rewrite Nat.Div0.mod_0_l, Nat.Div0.div_0_l. f_equal. auto.
Qed.

Lemma lsb_digits_bound m k i : 0 < m -> Forall (fun d => d < m) (lsb_digits m k i).
Proof.
  intros Hm. revert i. induction k; intros; simpl; constructor; auto.
  apply Nat.mod_upper_bound. lia.
Qed.

Lemma div_lt_pow m k i : 0 < m -> i < m ^ S k -> i / m < m ^ k.
Proof.
  intros Hm Hi. apply Nat.Div0.div_lt_upper_bound. simpl in Hi. lia.
Qed.

Lemma map_dchar_zeros k : map dchar (replicate k 0) = replicate k "0"%char.
Proof. induction k; simpl; [|rewrite IHk]; reflexivity. Qed.

Lemma base_repr_loop_pad m fuel : 2 <= m ->
  forall num k, num <= fuel -> num < m ^ k ->
    length (Np.base_repr_loop fuel num m) <= k /\
    map dchar (lsb_digits m k num) =
      Np.base_repr_loop fuel num m
        ++ replicate (k - length (Np.base_repr_loop fuel num m)) "0"%char.
Proof.
  intros Hm. induction fuel as [|fuel IH]; intros num k Hf Hk.
  - assert (num = 0) by lia. subst. simpl. split; [lia|].
    rewrite lsb_digits_zero, Nat.sub_0_r. apply map_dchar_zeros.
  - simpl. destruct (Nat.eqb_spec num 0) as [->|Hn].
    + simpl. split; [lia|]. rewrite lsb_digits_zero, Nat.sub_0_r.
      apply map_dchar_zeros.
    + destruct k as [|k]; [simpl in Hk; lia|].
      assert (Hd : num / m <= fuel).
      { assert (num / m < num) by (apply Nat.div_lt; lia). lia. }
      destruct (IH (num / m) k Hd (div_lt_pow m k num ltac:(lia) Hk)) as [Hl He].
      simpl. split; [lia|]. unfold dchar at 1. f_equal. exact He.
Qed.

Lemma value_of_digits_app m ds d :
  value_of_digits m (ds ++ [d]) = value_of_digits m ds * m + d.
Proof. unfold value_of_digits. rewrite foldl_app. reflexivity. Qed.

Lemma value_rev_lsb m k i : 0 < m -> i < m ^ k ->
  value_of_digits m (rev (lsb_digits m k i)) = i.
Proof.
  intros Hm. revert i. induction k; intros i Hi.
  - simpl in *. unfold value_of_digits. simpl. lia.
  - simpl. rewrite value_of_digits_app, IHk by (apply div_lt_pow; auto).
    rewrite (Nat.mul_comm (i / m) m). symmetry. apply Nat.div_mod_eq.
Qed.

Lemma lsb_of_value m ds : 0 < m -> Forall (fun d => d < m) ds ->
  value_of_digits m (rev ds) < m ^ length ds /\
  lsb_digits m (length ds) (value_of_digits m (rev ds)) = ds.
Proof.
  intros Hm. induction 1 as [|d ds Hd Hds [IHv IHl]].
  - simpl. unfold value_of_digits. simpl. split; [lia|reflexivity].
  - simpl rev. rewrite value_of_digits_app. simpl length. simpl lsb_digits.
    set (v := value_of_digits m (rev ds)) in *.
    assert (Hmod : (v * m + d) mod m = d).
    { rewrite Nat.add_comm, Nat.Div0.mod_add. apply Nat.mod_small; auto. }
    assert (Hdiv : (v * m + d) / m = v).
    { rewrite Nat.add_comm, Nat.div_add by lia. rewrite Nat.div_small; auto. }
    rewrite Hmod, Hdiv, IHl. split; auto.
    simpl. nia.
Qed.

Lemma int_of_dchar d : d < 10 -> int_of_char (dchar d) = Ok d.
Proof. intros Hd. do 10 (destruct d as [|d]; [reflexivity|]). lia. Qed.

Lemma dchar_not_sign d :
  (Ascii.eqb (dchar d) "+" || Ascii.eqb (dchar d) "-")%char = false.
Proof.
  unfold dchar. do 36 (destruct d as [|d]; [reflexivity|]).
  destruct d; reflexivity.
Qed.

Lemma zfill_unsigned c s k :
  (Ascii.eqb c "+" || Ascii.eqb c "-")%char = false ->
  zfill (c :: s) k = replicate (k - length (c :: s)) "0"%char ++ c :: s.
Proof. intros Hc. unfold zfill. rewrite Hc. reflexivity. Qed.

Lemma rev_replicate {A} (x : A) n : rev (replicate n x) = replicate n x.
Proof.
  induction n; simpl; auto. rewrite IHn. clear.
  induction n; simpl; auto. f_equal. auto.
Qed.

Lemma zfill_base_repr m k index :
  2 <= m <= 36 -> 1 <= k -> index < m ^ k ->
  exists repr, Np.base_repr index m = Ok repr /\
               zfill repr k = map dchar (rev (lsb_digits m k index)).
Proof.
  intros [Hm2 Hm36] Hk Hi. unfold Np.base_repr.
  change (length Np.digits) with 36.
  destruct (Nat.ltb_spec 36 m); [lia|]. destruct (Nat.ltb_spec m 2); [lia|].
  eexists; split; [reflexivity|].
  destruct (base_repr_loop_pad m index Hm2 index k (le_n _) Hi) as [Hl He].
  rewrite map_rev, He.
  destruct (Np.base_repr_loop index index m) as [|c res] eqn:Hres.
  - simpl rev at 1. rewrite zfill_unsigned by reflexivity.
    simpl length. rewrite Nat.sub_0_r, app_nil_l, rev_replicate.
    destruct k; [lia|]. simpl. rewrite Nat.sub_0_r. clear.
    induction k; simpl; auto. f_equal; auto.
  - rewrite rev_app_distr, rev_replicate.
    assert (Hin : forall x, In x (c :: res) -> exists d, x = dchar d).
    { intros x Hx.
      assert (Hx' : In x (map dchar (lsb_digits m k index))).
      { rewrite He. apply in_or_app. auto. }
      apply in_map_iff in Hx' as (d & <- & _). eauto. }
    destruct (rev (c :: res)) as [|c' s'] eqn:Hrev.
    { apply (f_equal (@length _)) in Hrev. rewrite length_rev in Hrev.
      simpl in Hrev. lia. }
    destruct (Hin c') as [d ->].
    { apply in_rev. rewrite Hrev. left; reflexivity. }
    rewrite zfill_unsigned by apply dchar_not_sign.
    rewrite <- Hrev, length_rev. reflexivity.
Qed.

Section Decode.

Context {InterventionType : Type}.
Implicit Types (options tys : list InterventionType) (ds : list nat).


Lemma mapM_digits options ds :
  length options <= 10 -> Forall (fun d => d < length options) ds ->
  exists tys,
    mapM (fun digit =>
            d ← int_of_char digit;
            match options !! d with
            | Some o => Ok o
            | None => Raise (IndexError "list index out of range")
            end) (map dchar ds) = Ok tys /\ picks options ds tys.
Proof.
  intros Hm. induction 1 as [|d ds Hd Hds (tys & He & Hp)].
  - exists []. split; [reflexivity|constructor].
  - destruct (lookup_lt_is_Some_2 options d Hd) as [o Ho].
    exists (o :: tys). split; [|constructor; auto].
    rewrite map_cons, mapM_result_cons, He, int_of_dchar by lia.
    rewrite !bind_Ok, Ho, !bind_Ok. reflexivity.
Qed.

Lemma types_of_index_ok options k index :
  2 <= length options <= 10 -> 1 <= k -> index < length options ^ k ->
  exists tys, Sampler.types_of_index options k index = Ok tys /\
              picks options (rev (lsb_digits (length options) k index)) tys.
Proof.
  intros Hm Hk Hi. unfold Sampler.types_of_index.
  destruct (zfill_base_repr (length options) k index) as (repr & Hb & Hz);
    [lia|lia|lia|].
  rewrite Hb, bind_Ok, Hz.
  apply mapM_digits; [lia|].
  apply Forall_rev, lsb_digits_bound. lia.
Qed.

Lemma picks_length options ds tys : picks options ds tys -> length ds = length tys.
Proof. apply Forall2_length. Qed.

Lemma picks_fun options ds tys tys' :
  picks options ds tys -> picks options ds tys' -> tys = tys'.
Proof.
  intros H. revert tys'. induction H; intros tys' H'; inversion H'; subst; auto.
  f_equal; [congruence|auto].
Qed.

Lemma picks_inj options ds ds' tys :
  NoDup options -> picks options ds tys -> picks options ds' tys -> ds = ds'.
Proof.
  intros Hnd H. revert ds'. induction H; intros ds' H'; inversion H'; subst; auto.
  f_equal; [|auto]. eapply NoDup_lookup; eauto.
Qed.

Lemma picks_exists options tys :
  Forall (fun o => o ∈ options) tys ->
  exists ds, picks options ds tys /\ Forall (fun d => d < length options) ds.
Proof.
  induction 1 as [|o tys Ho _ (ds & Hp & Hb)].
  - exists []. split; constructor.
  - apply list_elem_of_lookup in Ho as [d Hd].
    exists (d :: ds). split; constructor; auto.
    eapply lookup_lt_Some; eauto.
Qed.

End Decode.

Lemma lsb_digits_small m j : 0 < m -> forall k i, j <= k -> i < m ^ j ->
  lsb_digits m k i = lsb_digits m j i ++ replicate (k - j) 0.
Proof.
  intros Hm. induction j as [|j IH]; intros k i Hjk Hi.
  - simpl in Hi. assert (i = 0) by lia. subst.
    rewrite lsb_digits_zero, Nat.sub_0_r. reflexivity.
  - destruct k as [|k]; [lia|]. simpl.
    rewrite (IH k (i / m)) by (try apply div_lt_pow; auto; lia). reflexivity.
Qed.

Lemma rev_lookup {A} (l : list A) i :
  i < length l -> rev l !! i = l !! (length l - S i).
Proof. intros Hi. rewrite rev_alt. apply (reverse_lookup l i Hi). Qed.

Lemma lsb_digits_lookup m k i p :
  p < k -> lsb_digits m k i !! p = Some ((i / m ^ p) mod m).
Proof.
  revert i p. induction k as [|k IH]; intros i p Hp; [lia|].
  destruct p as [|p].
  - change (m ^ 0) with 1. rewrite Nat.div_1_r. reflexivity.
  - change (lsb_digits m (S k) i !! S p) with (lsb_digits m k (i / m) !! p).
    rewrite IH by lia. rewrite Nat.Div0.div_div. reflexivity.
Qed.

(** The digits of an index, most significant first, are those of
    [digit_at]. *)
Lemma msb_digits_lookup m k i j :
  j < k -> rev (lsb_digits m k i) !! j = Some (digit_at m k i j).
Proof.
  intros Hj. rewrite rev_lookup by (rewrite lsb_digits_length; lia).
  rewrite lsb_digits_length, lsb_digits_lookup by lia.
  unfold digit_at. replace (k - S j) with (k - 1 - j) by lia. reflexivity.
Qed.

Section SamplerCorrect.

Context {InterventionType : Type} {rng : Type} `{PyRandom rng}.
Implicit Types (options tys : list InterventionType).

Lemma generate_ok {A B} (f : A -> result B) (xs : list A) :
  Forall (fun x => exists y, f x = Ok y) xs ->
  exists ys, generate f xs = (ys, None) /\ Forall2 (fun x y => f x = Ok y) xs ys.
Proof.
  induction 1 as [|x xs [y Hy] _ (ys & He & Hf)].
  - exists []. split; [reflexivity|constructor].
  - exists (y :: ys). simpl. rewrite Hy, He. split; [reflexivity|].
    constructor; auto.
Qed.

Lemma decodes_canonical options k index :
  0 < length options -> index < length options ^ k -> forall tys,
  picks options (rev (lsb_digits (length options) k index)) tys ->
  decodes options k index tys.
Proof.
  intros Hm Hi tys Hp. exists (rev (lsb_digits (length options) k index)).
  rewrite length_rev, lsb_digits_length. repeat split; auto.
  - apply Forall_rev, lsb_digits_bound; auto.
  - apply value_rev_lsb; auto.
Qed.

Lemma decodes_inj options k index index' tys :
  NoDup options -> decodes options k index tys -> decodes options k index' tys ->
  index = index'.
Proof.
  intros Hnd (ds & _ & _ & <- & Hp) (ds' & _ & _ & <- & Hp').
  rewrite (picks_inj options ds ds' tys Hnd Hp Hp'). reflexivity.
Qed.

Lemma decodes_padding options k index tys j o0 :
  0 < length options -> decodes options k index tys ->
  j <= k -> index < length options ^ j -> options !! 0 = Some o0 ->
  take (k - j) tys = replicate (k - j) o0.
Proof.
  intros Hm (ds & Hl & Hb & Hv & Hp) Hj Hi Ho.
  destruct (lsb_of_value (length options) (rev ds) Hm (Forall_rev Hb)) as [_ Hd].
  rewrite rev_involutive, length_rev, Hv, Hl in Hd.
  rewrite (lsb_digits_small _ j Hm k index Hj Hi) in Hd.
  apply (f_equal (@rev _)) in Hd. rewrite rev_involutive, rev_app_distr, rev_replicate in Hd.
  subst ds. apply Forall2_app_inv_l in Hp as (t1 & t2 & H1 & H2 & ->).
  assert (Hl1 : length t1 = k - j).
  { rewrite <- (Forall2_length _ _ _ H1), length_replicate. reflexivity. }
  rewrite take_app_length' by (symmetry; exact Hl1).
  clear - H1 Ho. remember (k - j) as n. clear Heqn. revert t1 H1.
  induction n; intros t1 H1; inversion H1; subst; simpl; auto.
  f_equal; [congruence|auto].
Qed.

(** The types picked along the digits of an index: position by position,
    the type of the digit [digit_at]. *)
Lemma picks_lookup options k index tys :
  picks options (rev (lsb_digits (length options) k index)) tys ->
  length tys = k /\
  forall j, j < k -> tys !! j = options !! digit_at (length options) k index j.
Proof.
  intros Hp. split.
  - rewrite <- (Forall2_length _ _ _ Hp), length_rev, lsb_digits_length. reflexivity.
  - intros j Hj. pose proof (msb_digits_lookup (length options) k index j Hj) as Hd.
    destruct (Forall2_lookup_l _ _ _ _ _ Hp Hd) as (o & Ho & Hopt).
    rewrite Ho, Hopt. reflexivity.
Qed.

Lemma yield_of_ok names options index :
  2 <= length options <= 10 -> 1 <= length names ->
  index < length options ^ length names ->
  exists tys, yield_of names options index = Ok (Sampler.mkIntervention names tys) /\
              picks options (rev (lsb_digits (length options) (length names) index)) tys.
Proof.
  intros Hm Hk Hi.
  destruct (types_of_index_ok options (length names) index Hm Hk Hi) as (tys & He & Hp).
  exists tys. unfold yield_of. rewrite He, bind_Ok. split; [reflexivity|exact Hp].
Qed.

Lemma names_present (names hypothesis_hooks : list string) :
  (forall name, name ∈ names -> name ∈ hypothesis_hooks) ->
  forallb (fun name => existsb (String.eqb name) hypothesis_hooks) names = true.
Proof.
  intros Hsub. apply forallb_forall. intros name Hin.
  apply existsb_exists. exists name. split.
  - apply list_elem_of_In, Hsub, list_elem_of_In, Hin.
  - apply String.eqb_refl.
Qed.

(** The loop [for index in indices] on indices below [m ^ k]: one
    intervention for each index, in the order of the indices, read off the
    digits of the index. *)
Lemma generate_indices (names : list string) options indices :
  2 <= length options <= 10 -> 1 <= length names ->
  (forall i, i ∈ indices -> i < length options ^ length names) ->
  exists ys,
    generate (yield_of names options) indices = (ys, None) /\
    Forall2 (fun i y =>
               Sampler.hook_names y = names /\
               picks options (rev (lsb_digits (length options) (length names) i))
                     (Sampler.intervention_types y))
            indices ys.
Proof.
  intros Hm Hk Hrange.
  destruct (generate_ok (yield_of names options) indices) as (ys & Hg & HF).
  { apply Forall_forall. intros i Hi.
    destruct (yield_of_ok names options i Hm Hk) as (tys & He & _); eauto. }
  exists ys. split; [exact Hg|].
  apply Forall2_same_length_lookup. split; [eapply Forall2_length; eauto|].
  intros p i y Hi Hy. pose proof (Forall2_lookup_lr _ _ _ _ _ _ HF Hi Hy) as He.
  destruct (yield_of_ok names options i Hm Hk) as (tys & He' & Hd).
  { apply Hrange. eapply list_elem_of_lookup_2; eauto. }
  rewrite He in He'. inversion He'; subst. simpl. auto.
Qed.

(** Interventions read off different indices differ when the types are
    pairwise different. *)
Lemma generate_indices_NoDup (names : list string) options indices ys :
  0 < length options -> NoDup options -> NoDup indices ->
  (forall i, i ∈ indices -> i < length options ^ length names) ->
  Forall2 (fun i y =>
             Sampler.hook_names y = names /\
             picks options (rev (lsb_digits (length options) (length names) i))
                   (Sampler.intervention_types y))
          indices ys ->
  NoDup ys.
Proof.
  intros Hm Hopt Hnd Hrange HF.
  eapply Forall2_NoDup_inj; [|exact HF|exact Hnd].
  intros i i' y Hi Hi' [_ Hd] [_ Hd'].
  eapply decodes_inj; [exact Hopt| |]; apply decodes_canonical; eauto.
Qed.

(** The guard of [random.sample] does not fire on a population that [len]
    can measure. *)
Lemma no_overflow (b total : nat) :
  (b < total -> (N.of_nat total <= sys_maxsize)%N) ->
  (b <? total) && (sys_maxsize <? N.of_nat total)%N = false.
Proof.
  intros Hb. destruct (Nat.ltb_spec b total) as [Hlt|Hge]; [|reflexivity].
  simpl. apply N.ltb_ge, Hb, Hlt.
Qed.

(** The run of [get_interventions] in the range of the claim: the indices
    it uses and the interventions it yields for them, one by one. *)
Lemma get_interventions_run
    (base_hooks hypothesis_hooks : list string) (hook_filters : option (list string))
    options (b : nat) (g : rng) :
  let names := Sampler.hook_names_for_patching base_hooks hook_filters in
  let k := length names in
  let m := length options in
  let indices := if b <? m ^ k then (random_sample g (m ^ k) b).1 else seq 0 (m ^ k) in
  let g' := if b <? m ^ k then (random_sample g (m ^ k) b).2 else g in
  1 <= k -> 2 <= m <= 10 ->
  (forall name, name ∈ names -> name ∈ hypothesis_hooks) ->
  (b < m ^ k -> (N.of_nat (m ^ k) <= sys_maxsize)%N) ->
  NoDup indices /\
  (forall index, index ∈ indices -> index < m ^ k) /\
  length indices = (if b <? m ^ k then b else m ^ k) /\
  exists ys,
    Sampler.get_interventions base_hooks hypothesis_hooks hook_filters options b g
      = ((ys, None), g') /\
    Forall2 (fun index y =>
               Sampler.hook_names y = names /\
               picks options (rev (lsb_digits m k index)) (Sampler.intervention_types y))
            indices ys.
Proof.
  intros names k m indices g' Hk Hm Hsub Hmax. subst k m.
  assert (Hnd : NoDup indices /\
                (forall index, index ∈ indices -> index < length options ^ length names) /\
                length indices = if b <? length options ^ length names
                                 then b else length options ^ length names).
  { subst indices. destruct (Nat.ltb_spec b (length options ^ length names)) as [Hlt|Hge].
    - assert (Hb : b <= length options ^ length names) by lia.
      split; [apply random_sample_NoDup; auto|].
      split; [intros index; apply random_sample_range; auto|].
      apply random_sample_length; auto.
    - split; [apply NoDup_seq|]. split; [|apply length_seq].
      intros index Hi. apply elem_of_seq in Hi. lia. }
  destruct Hnd as (Hnd & Hrange & Hlen).
  split; [exact Hnd|]. split; [exact Hrange|]. split; [exact Hlen|].
  destruct (generate_indices names options indices Hm Hk Hrange) as (ys & Hg & HF).
  exists ys. split; [|exact HF].
  unfold Sampler.get_interventions. fold names.
  rewrite (names_present names hypothesis_hooks Hsub). simpl negb. cbv iota.
  rewrite (no_overflow b _ Hmax).
  change (fun index => tys ← Sampler.types_of_index options (length names) index;
                       Ok (Sampler.mkIntervention names tys))
    with (yield_of names options).
  subst indices g'. destruct (b <? length options ^ length names).
  - destruct (random_sample g (length options ^ length names) b) as [indices g1].
    simpl in Hg |- *. rewrite Hg. reflexivity.
  - rewrite Hg. reflexivity.
Qed.

(** C2, as the code has it.  The sampler on [k >= 1] locations and
    [2 <= m <= 10] intervention types, with a budget [b], and with
    [m ^ k] at most [sys.maxsize] when the budget is below it.  No
    exception is raised.  The indices used are [0 .. m^k - 1] in this order
    when [b >= m^k], and otherwise the [b] indices that
    [random.sample(range(m^k), b)] draws in the current state of the
    generator: pairwise different members of [0 .. m^k - 1].  One
    intervention is yielded for each index, in the order of the indices: its
    hook names are the locations and its type at position [j] is
    [options[d]] for the digit [d] at position [j] of the index written with
    [k] digits in base [m], so that an index below [m^j] gets the first type
    at its [k - j] leading positions.  In the first case every assignment of
    types to the locations is yielded; the yielded interventions are
    pairwise different when the types are. *)
Theorem get_interventions_sampler
    (base_hooks hypothesis_hooks : list string) (hook_filters : option (list string))
    options (b : nat) (g : rng) :
  let names := Sampler.hook_names_for_patching base_hooks hook_filters in
  let k := length names in
  let m := length options in
  let indices := if b <? m ^ k then (random_sample g (m ^ k) b).1 else seq 0 (m ^ k) in
  let g' := if b <? m ^ k then (random_sample g (m ^ k) b).2 else g in
  1 <= k -> 2 <= m <= 10 ->
  (forall name, name ∈ names -> name ∈ hypothesis_hooks) ->
  (b < m ^ k -> (N.of_nat (m ^ k) <= sys_maxsize)%N) ->
  exists ys,
    Sampler.get_interventions base_hooks hypothesis_hooks hook_filters options b g
      = ((ys, None), g') /\
    Forall2 (fun index y =>
               Sampler.hook_names y = names /\
               length (Sampler.intervention_types y) = k /\
               (forall j, j < k ->
                  Sampler.intervention_types y !! j = options !! digit_at m k index j) /\
               (forall j o0, j <= k -> index < m ^ j -> options !! 0 = Some o0 ->
                  take (k - j) (Sampler.intervention_types y) = replicate (k - j) o0))
            indices ys /\
    NoDup indices /\
    (forall index, index ∈ indices -> index < m ^ k) /\
    (m ^ k <= b -> length ys = m ^ k) /\
    (b < m ^ k -> length ys = b) /\
    (NoDup options -> NoDup ys) /\
    (m ^ k <= b ->
       forall tys, length tys = k -> Forall (fun o => o ∈ options) tys ->
                   Sampler.mkIntervention names tys ∈ ys).
Proof.
  intros names k m indices g' Hk Hm Hsub Hmax.
  destruct (get_interventions_run base_hooks hypothesis_hooks hook_filters options b g
              Hk Hm Hsub Hmax) as (Hnd & Hrange & Hlen & ys & Hget & HF).
  fold names k m indices g' in Hnd, Hrange, Hlen, Hget, HF.
  assert (Hm0 : 0 < m) by lia.
  pose proof (Forall2_length _ _ _ HF) as Hlen'.
  exists ys. split; [exact Hget|]. split.
  { apply Forall2_same_length_lookup. split; [exact Hlen'|].
    intros p i y Hi Hy. destruct (Forall2_lookup_lr _ _ _ _ _ _ HF Hi Hy) as [Hn Hp].
    destruct (picks_lookup options k i _ Hp) as [Hl Hd].
    repeat split; auto.
    intros j o0 Hj Hij Ho.
    eapply decodes_padding; eauto.
    apply decodes_canonical; auto.
    apply Hrange. eapply list_elem_of_lookup_2; eauto. }
  split; [exact Hnd|]. split; [exact Hrange|].
  split.
  { intros Hge. rewrite <- Hlen', Hlen.
    destruct (Nat.ltb_spec b (m ^ k)); [lia|reflexivity]. }
  split.
  { intros Hlt. rewrite <- Hlen', Hlen.
    destruct (Nat.ltb_spec b (m ^ k)); [reflexivity|lia]. }
  split.
  { intros Hopt. eapply generate_indices_NoDup; eauto. }
  intros Hge tys Hlt Hin.
  assert (Hseq : indices = seq 0 (m ^ k)).
  { subst indices. destruct (Nat.ltb_spec b (m ^ k)); [lia|reflexivity]. }
  destruct (picks_exists options tys Hin) as (ds & Hp & Hb).
  destruct (lsb_of_value m (rev ds) Hm0 (Forall_rev Hb)) as [Hv Hd].
  rewrite rev_involutive, length_rev in Hv, Hd.
  assert (Hdk : length ds = k) by (rewrite (picks_length _ _ _ Hp); exact Hlt).
  rewrite Hdk in Hv, Hd.
  assert (Hi : value_of_digits m ds ∈ indices).
  { rewrite Hseq. apply elem_of_seq. lia. }
  destruct (Forall2_elem_l _ _ _ _ HF Hi) as (y & Hy & Hn & Hpy).
  rewrite Hd, rev_involutive in Hpy.
  destruct y as [ns tys']. simpl in Hn, Hpy. subst ns.
  rewrite (picks_fun _ _ _ _ Hp Hpy). exact Hy.
Qed.

(** Beyond [sys.maxsize] combinations a budget below their number stops
    the sampler at [random.sample]: nothing is yielded. *)
Lemma get_interventions_overflow
    (base_hooks hypothesis_hooks : list string) (hook_filters : option (list string))
    options (b : nat) (g : rng) :
  let names := Sampler.hook_names_for_patching base_hooks hook_filters in
  forallb (fun name => existsb (String.eqb name) hypothesis_hooks) names = true ->
  b < length options ^ length names ->
  (sys_maxsize < N.of_nat (length options ^ length names))%N ->
  Sampler.get_interventions base_hooks hypothesis_hooks hook_filters options b g
    = (([], Some (OverflowError "Python int too large to convert to C ssize_t")), g).
Proof.
  intros names Hsub Hb Hmax. unfold Sampler.get_interventions. fold names.
  rewrite Hsub. simpl negb. cbv iota.
  destruct (Nat.ltb_spec b (length options ^ length names)) as [_|]; [|lia].
  destruct (N.ltb_spec sys_maxsize (N.of_nat (length options ^ length names))) as [_|];
    [reflexivity|lia].
Qed.

End SamplerCorrect.

(** C2 as stated fails outside that range: with one type numpy refuses
    base 1 before anything is yielded; with eleven types the digit [A] of
    index 10 is no decimal literal; with no location the one index is still
    read as one digit, so one type for no location; and with the 32
    locations of a transformer of fifteen layers and four types there are
    [2 ^ 64] combinations, of which [random.sample] cannot draw one. *)
Lemma get_interventions_outside_range :
  ~ (exists ys,
       (get_interventions ["hook_embed"] ["hook_embed"] None [0] 1 0).1 = (ys, None)
       /\ length ys = 1 ^ 1)
  /\ (get_interventions ["hook_embed"] ["hook_embed"] None [0] 1 0).1
     = ([], Some (ValueError "Bases less than 2 not handled in base_repr."))
  /\ ((get_interventions ["hook_embed"] ["hook_embed"] None (seq 0 11) 11 0).1).2
     = Some (ValueError "invalid literal for int() with base 10: 'A'")
  /\ types_of_index [0; 1] (length (hook_names_for_patching [] None)) 0 = Ok [0]
  /\ (get_interventions example_hooks_15_layers example_hooks_15_layers
        (Some ["hook_embed"; "hook_pos_embed"; "hook_attn_out"; "hook_mlp_out"])
        [0; 1; 2; 3] 1 0).1
     = ([], Some (OverflowError "Python int too large to convert to C ssize_t")).
Proof.
  split.
  { intros (ys & He & _). vm_compute in He. discriminate He. }
  split; [vm_compute; reflexivity|]. split; [vm_compute; reflexivity|].
  split; [vm_compute; reflexivity|].
  assert (Hk : length (hook_names_for_patching example_hooks_15_layers
                 (Some ["hook_embed"; "hook_pos_embed"; "hook_attn_out"; "hook_mlp_out"]))
               = 32) by (vm_compute; reflexivity).
  rewrite get_interventions_overflow; [reflexivity| | |].
  - vm_compute. reflexivity.
  - rewrite Hk. apply Nat.pow_gt_1; [simpl; lia|discriminate].
  - rewrite Hk, Nat2N.inj_pow. vm_compute. reflexivity.
Qed.

(** Three locations and three types: a budget of 5 out of 27. *)
Lemma get_interventions_sampler_witness :
  exists ys,
    (get_interventions
       ["hook_embed"; "blocks.0.hook_attn_out"; "blocks.0.hook_mlp_out"; "blocks.0.hook_mlp_in"]
       ["hook_embed"; "blocks.0.hook_attn_out"; "blocks.0.hook_mlp_out"; "blocks.0.hook_mlp_in"]
       (Some ["hook_embed"; "hook_pos_embed"; "hook_attn_out"; "hook_mlp_out"])
       [0; 1; 2] 5 0).1 = (ys, None) /\
    NoDup ys /\ length ys = 5.
Proof.
  destruct (get_interventions_sampler
              ["hook_embed"; "blocks.0.hook_attn_out"; "blocks.0.hook_mlp_out"; "blocks.0.hook_mlp_in"]
              ["hook_embed"; "blocks.0.hook_attn_out"; "blocks.0.hook_mlp_out"; "blocks.0.hook_mlp_in"]
              (Some ["hook_embed"; "hook_pos_embed"; "hook_attn_out"; "hook_mlp_out"])
              [0; 1; 2] 5 0)
    as (ys & He & _ & _ & _ & _ & Hlen & Hnd & _).
  - vm_compute. lia.
  - vm_compute. lia.
  - intros name Hn. apply list_elem_of_In. apply list_elem_of_In in Hn.
    vm_compute in Hn. simpl. tauto.
  - intros _. vm_compute. discriminate.
  - exists ys. split; [rewrite He; reflexivity|]. split.
    + apply Hnd. apply (bool_decide_unpack _). vm_compute. exact I.
    + apply Hlen. vm_compute. lia.
Defined.

(** ** The intervention engine *)

Import Torch IIA.

Lemma nth_concat_replicate {A} (l : list A) (d : A) n :
  length l = n -> forall reps b j, b < reps -> j < n ->
  nth (b * n + j) (concat (replicate reps l)) d = nth j l d.
Proof.
  intros Hl. induction reps as [|reps IH]; intros b j Hb Hj; [lia|].
  simpl. destruct b as [|b].
  - simpl. rewrite app_nth1 by lia. reflexivity.
  - rewrite app_nth2 by (rewrite Hl; simpl; lia).
    replace (S b * n + j - length l) with (b * n + j) by (rewrite Hl; simpl; lia).
    apply IH; lia.
Qed.

Lemma length_concat_replicate {A} (l : list A) reps :
  length (concat (replicate reps l)) = reps * length l.
Proof. induction reps; simpl; [|rewrite length_app, IHreps]; reflexivity. Qed.

Lemma nth_map_seq {A} (f : nat -> A) (d : A) n j :
  j < n -> nth j (map f (seq 0 n)) d = f j.
Proof.
  intros Hj. rewrite (nth_indep _ d (f 0)) by (rewrite length_map, length_seq; lia).
  rewrite (map_nth f (seq 0 n) 0 j), seq_nth by lia. reflexivity.
Qed.

Lemma mean_over_batch_spec nargs (t : tensor) :
  length (shape t) = nargs -> 1 <= nargs ->
  exists p, mean_over_batch nargs t = Ok p /\ is_batch_mean_of t p.
Proof.
  intros Hrank Hn. unfold mean_over_batch, mean_dim0.
  destruct (shape t) as [|b rest] eqn:Hs; [simpl in Hrank; lia|].
  unfold repeat_dim0. cbn [shape].
  simpl in Hrank.
  destruct (Nat.ltb_spec nargs (length rest)); [lia|].
  replace (nargs - length rest) with 1 by lia. cbn [replicate app].
  eexists. split; [reflexivity|].
  unfold is_batch_mean_of, well_shaped. cbn [shape data].
  rewrite Hs, Nat.mul_1_r. split; [reflexivity|]. split.
  - rewrite length_concat_replicate, length_map, length_seq. reflexivity.
  - intros b' rest' Heq i j Hi Hj. inversion Heq; subst b' rest'.
    unfold entry at 1. cbn [data].
    rewrite nth_concat_replicate with (n := numel rest); try lia.
    + rewrite nth_map_seq by lia. reflexivity.
    + rewrite length_map, length_seq. reflexivity.
Qed.

Section BuildHookFns.

Implicit Types (bc hc bk hk : gmap string tensor) (hook_name a : string).

Lemma cache_get_Some (c : gmap string tensor) k t : c !! k = Some t -> cache_get c k = Ok t.
Proof. unfold cache_get. intros ->. reflexivity. Qed.

Lemma build_hook_fns_mean
    hook_name (head_index : option nat) bc hc bk hk (tb th : tensor) :
  bc !! hook_name = Some tb -> hc !! hook_name = Some th ->
  length (shape tb) = 3 \/ length (shape tb) = 4 ->
  length (shape th) = length (shape tb) ->
  exists pb ph,
    build_hook_fns hook_name head_index bc hc bk hk "mean"
      = Ok (mkHook (<[hook_name := pb]> ∅) head_index,
            mkHook (<[hook_name := ph]> ∅) head_index) /\
    is_batch_mean_of tb pb /\ is_batch_mean_of th ph /\
    (forall activation,
        regular_intervention_hook_fn activation hook_name (<[hook_name := pb]> ∅) None
        = Ok pb).
Proof.
  intros Hb Hh Hrank Hsame. unfold build_hook_fns.
  change (String.eqb "mean" "resample") with false.
  change (String.eqb "mean" "mean") with true. cbv iota.
  rewrite (cache_get_Some _ _ _ Hb), bind_Ok, (cache_get_Some _ _ _ Hh), bind_Ok.
  set (nargs := if length (shape tb) =? 3 then 3 else 4).
  assert (Hn : length (shape tb) = nargs).
  { unfold nargs. destruct Hrank as [-> | ->]; reflexivity. }
  destruct (mean_over_batch_spec nargs tb Hn) as (pb & Hpb & Hmb).
  { unfold nargs. destruct (length (shape tb) =? 3); lia. }
  destruct (mean_over_batch_spec nargs th) as (ph & Hph & Hmh).
  { congruence. }
  { unfold nargs. destruct (length (shape tb) =? 3); lia. }
  exists pb, ph. rewrite Hpb, bind_Ok, Hph, !bind_Ok. cbn [fst snd].
  repeat split; try apply Hmb; try apply Hmh.
  intros activation. unfold regular_intervention_hook_fn, cache_get.
  rewrite lookup_insert_eq. reflexivity.
Qed.

(** C4.  Mean ablation: for a hook whose clean activations have three or
    four axes (batch first), the replacement of each network has the shape
    of its clean activation and holds at every batch index the same value,
    the average of the clean activation over the batch; the patch function
    without a head index returns that replacement. *)
Theorem mean_ablation_broadcasts_batch_mean
    hook_name (head_index : option nat) bc hc bk hk (tb th : tensor) :
  bc !! hook_name = Some tb -> hc !! hook_name = Some th ->
  length (shape tb) = 3 \/ length (shape tb) = 4 ->
  length (shape th) = length (shape tb) ->
  exists pb ph,
    build_hook_fns hook_name head_index bc hc bk hk "mean"
      = Ok (mkHook (<[hook_name := pb]> ∅) head_index,
            mkHook (<[hook_name := ph]> ∅) head_index) /\
    is_batch_mean_of tb pb /\ is_batch_mean_of th ph /\
    (forall b rest i i' j, shape tb = b :: rest -> i < b -> i' < b -> j < numel rest ->
        entry pb (numel rest) i j = entry pb (numel rest) i' j) /\
    (forall activation,
        regular_intervention_hook_fn activation hook_name (<[hook_name := pb]> ∅) None
        = Ok pb).
Proof.
  intros Hb Hh Hrank Hsame.
  destruct (build_hook_fns_mean hook_name head_index bc hc bk hk tb th Hb Hh Hrank Hsame)
    as (pb & ph & He & Hmb & Hmh & Hfn).
  exists pb, ph. repeat split; try apply Hmb; try apply Hmh; auto.
  intros b rest i i' j Hs Hi Hi' Hj. destruct Hmb as (_ & _ & Hm).
  rewrite (Hm b rest Hs i j Hi Hj), (Hm b rest Hs i' j Hi' Hj). reflexivity.
Qed.

Lemma mean_ablation_broadcasts_batch_mean_witness :
  exists pb ph,
    build_hook_fns "hook_embed" None
      (<["hook_embed" := example_activation]> ∅) (<["hook_embed" := example_activation]> ∅)
      ∅ ∅ "mean"
      = Ok (mkHook (<["hook_embed" := pb]> ∅) None,
            mkHook (<["hook_embed" := ph]> ∅) None) /\
    is_batch_mean_of example_activation pb /\ is_batch_mean_of example_activation ph /\
    (forall b rest i i' j, shape example_activation = b :: rest ->
        i < b -> i' < b -> j < numel rest ->
        entry pb (numel rest) i j = entry pb (numel rest) i' j) /\
    (forall activation,
        regular_intervention_hook_fn activation "hook_embed" (<["hook_embed" := pb]> ∅) None
        = Ok pb).
Proof.
  apply (mean_ablation_broadcasts_batch_mean "hook_embed" None
           (<["hook_embed" := example_activation]> ∅)
           (<["hook_embed" := example_activation]> ∅) ∅ ∅
           example_activation example_activation).
  - reflexivity.
  - reflexivity.
  - left. reflexivity.
  - reflexivity.
Defined.

Lemma supported_cases a :
  supported a \/
  (String.eqb a "resample" = false /\ String.eqb a "mean" = false /\
   String.eqb a "zero" = false /\ ~ supported a).
Proof.
  unfold supported.
  destruct (String.eqb_spec a "resample"); [auto|].
  destruct (String.eqb_spec a "mean"); [auto|].
  destruct (String.eqb_spec a "zero"); [auto|].
  right. repeat split; auto. intros [?|[?|?]]; contradiction.
Qed.

Lemma cache_get_not_ValueError (c : gmap string tensor) k :
  (exists t, cache_get c k = Ok t) \/ cache_get c k = Raise (KeyError k).
Proof. unfold cache_get. destruct (c !! k); eauto. Qed.

Lemma mean_over_batch_not_ValueError nargs t msg :
  mean_over_batch nargs t <> Raise (ValueError msg).
Proof.
  unfold mean_over_batch, repeat_dim0. destruct (shape t) as [|b rest]; [discriminate|].
  destruct (nargs <? _); [discriminate|].
  destruct (replicate _ _ ++ _); discriminate.
Qed.

(** C9.  The patch builder raises its "Unknown ablation type" error exactly
    when the ablation type is none of zero, mean and resample; for these
    three it returns the two patch functions whenever the hook was captured
    in the caches it reads (and, for mean, the captured activations have
    three or four axes). *)
Theorem build_hook_fns_unknown_ablation_type
    hook_name (head_index : option nat) bc hc bk hk a :
  ((exists msg, build_hook_fns hook_name head_index bc hc bk hk a = Raise (ValueError msg))
     <-> ~ supported a) /\
  (~ supported a ->
     build_hook_fns hook_name head_index bc hc bk hk a
       = Raise (ValueError ("Unknown ablation type: " ++ a)%string)) /\
  (a = "resample" -> is_Some (bk !! hook_name) -> is_Some (hk !! hook_name) ->
     exists fns, build_hook_fns hook_name head_index bc hc bk hk a = Ok fns) /\
  (a = "zero" -> is_Some (bc !! hook_name) -> is_Some (hc !! hook_name) ->
     exists fns, build_hook_fns hook_name head_index bc hc bk hk a = Ok fns) /\
  (a = "mean" ->
     forall tb th, bc !! hook_name = Some tb -> hc !! hook_name = Some th ->
       length (shape tb) = 3 \/ length (shape tb) = 4 ->
       length (shape th) = length (shape tb) ->
     exists fns, build_hook_fns hook_name head_index bc hc bk hk a = Ok fns).
Proof.
  assert (Hunk : ~ supported a ->
     build_hook_fns hook_name head_index bc hc bk hk a
       = Raise (ValueError ("Unknown ablation type: " ++ a)%string)).
  { intros Hns. destruct (supported_cases a) as [Hs|(H1 & H2 & H3 & _)]; [contradiction|].
    unfold build_hook_fns. rewrite H1, H2, H3. reflexivity. }
  split; [split|split; [exact Hunk|repeat split]].
  - intros [msg He] Hs. unfold build_hook_fns in He.
    destruct Hs as [-> | [-> | ->]].
    + change (String.eqb "zero" "resample") with false in He.
      change (String.eqb "zero" "mean") with false in He.
      change (String.eqb "zero" "zero") with true in He. cbv iota in He.
      destruct (cache_get_not_ValueError bc hook_name) as [[t Ht]|Ht];
        rewrite Ht in He; [|discriminate He].
      destruct (cache_get_not_ValueError hc hook_name) as [[t' Ht']|Ht'];
        rewrite bind_Ok, Ht' in He; discriminate He.
    + change (String.eqb "mean" "resample") with false in He.
      change (String.eqb "mean" "mean") with true in He. cbv iota in He.
      destruct (cache_get_not_ValueError bc hook_name) as [[t Ht]|Ht];
        rewrite Ht in He; [|discriminate He].
      destruct (cache_get_not_ValueError hc hook_name) as [[t' Ht']|Ht'];
        rewrite bind_Ok, Ht' in He; [|discriminate He].
      rewrite bind_Ok in He.
      set (nargs := if length (shape t) =? 3 then 3 else 4) in He.
      destruct (mean_over_batch nargs t) as [p|e] eqn:Hp.
      * rewrite bind_Ok in He.
        destruct (mean_over_batch nargs t') as [p'|e'] eqn:Hp'; [discriminate He|].
        inversion He; subst e'. exact (mean_over_batch_not_ValueError _ _ _ Hp').
      * inversion He; subst e. exact (mean_over_batch_not_ValueError _ _ _ Hp).
    + change (String.eqb "resample" "resample") with true in He. cbv iota in He.
      destruct (cache_get_not_ValueError bk hook_name) as [[t Ht]|Ht];
        rewrite Ht in He; [|discriminate He].
      destruct (cache_get_not_ValueError hk hook_name) as [[t' Ht']|Ht'];
        rewrite bind_Ok, Ht' in He; discriminate He.
  - intros Hns. eexists. apply Hunk, Hns.
  - intros -> [tb Hb] [th Hh]. unfold build_hook_fns.
    change (String.eqb "resample" "resample") with true. cbv iota.
    rewrite (cache_get_Some _ _ _ Hb), bind_Ok, (cache_get_Some _ _ _ Hh).
    eexists. reflexivity.
  - intros -> [tb Hb] [th Hh]. unfold build_hook_fns.
    change (String.eqb "zero" "resample") with false.
    change (String.eqb "zero" "mean") with false.
    change (String.eqb "zero" "zero") with true. cbv iota.
    rewrite (cache_get_Some _ _ _ Hb), bind_Ok, (cache_get_Some _ _ _ Hh).
    eexists. reflexivity.
  - intros -> tb th Hb Hh Hrank Hsame.
    destruct (build_hook_fns_mean hook_name head_index bc hc bk hk
                tb th Hb Hh Hrank Hsame) as (pb & ph & He & _).
    eexists. exact He.
Qed.

End BuildHookFns.

(** ** The causal-effect evaluator *)

Import Torch IIA.

Lemma Zpos_of_nat n : n <> 0 -> Z.pos (Pos.of_nat n) = Z.of_nat n.
Proof.
  intros Hn. rewrite <- (Nat2Pos.id n Hn) at 2. rewrite positive_nat_Z. reflexivity.
Qed.

Lemma length_filter_le {A} (f : A -> bool) (l : list A) :
  length (List.filter f l) <= length l.
Proof. induction l as [|x l IH]; simpl; [lia|]. destruct (f x); simpl; lia. Qed.

Lemma mean_bool_unit_interval (l : list bool) : l <> [] -> in_unit_interval (mean_bool l).
Proof.
  intros Hl. destruct l as [|b l]; [contradiction|].
  unfold mean_bool. eexists. split; [reflexivity|].
  pose proof (length_filter_le (fun b : bool => b) (b :: l)) as Hle.
  set (n := length (b :: l)) in *. set (c := length (List.filter _ _)) in *.
  assert (Hn : n <> 0) by (subst n; simpl; lia).
  unfold Qle. cbn [Qnum Qden]. rewrite Zpos_of_nat by exact Hn. split; lia.
Qed.


Lemma filter_all_true (l : list bool) :
  Forall (fun b => b = true) l -> List.filter (fun b : bool => b) l = l.
Proof.
  induction 1 as [|x l Hx _ IH]; [reflexivity|].
  simpl. rewrite Hx. f_equal. exact IH.
Qed.

Lemma mean_bool_all_true (l : list bool) :
  l <> [] -> Forall (fun b => b = true) l ->
  exists q, mean_bool l = Finite q /\ (q == 1)%Q.
Proof.
  intros Hl Hall. destruct l as [|b l]; [contradiction|].
  unfold mean_bool. eexists. split; [reflexivity|].
  rewrite (filter_all_true _ Hall). unfold Qeq. cbn [Qnum Qden].
  rewrite Zpos_of_nat by (simpl; lia). lia.
Qed.


Section EvaluatorFacts.

Context {F K model dataset inputs : Type}.
Variable forward : model -> list (string * hook_fn) -> inputs -> result (list (list (list F))).
Variable is_categorical : model -> bool.
Variable get_inputs : dataset -> inputs.
Variable outputs_differ : dataset -> dataset -> list bool.
Variable ltb : F -> F -> bool.
Variable log_softmax : list F -> list F.
Variable kl_div : list (list (list F)) -> list (list (list F)) -> K.
Variable isclose : F -> F -> bool.
Variable mean_abs_diff : list (list (list F)) -> list (list (list F)) -> K.

#[local] Abbreviation evaluate_node :=
  (evaluate_node forward is_categorical get_inputs outputs_differ ltb log_softmax
                 kl_div isclose mean_abs_diff).
#[local] Abbreviation predicted logits := (labels ltb (map (map log_softmax) (remove_bos logits))).

(** The row of a categorical model once the four forward passes and the
    patch builder have returned. *)
Lemma evaluate_node_categorical
    (base hyp : model) (clean corrupted : dataset)
    (bk hk bc hc : gmap string tensor) (a : string) (node : CircuitNode)
    (fns : hook_fn * hook_fn) (ob oh ib ih : list (list (list F))) :
  forward base [] (get_inputs clean) = Ok ob ->
  forward hyp [] (get_inputs clean) = Ok oh ->
  build_hook_fns (name node) (index node) bc hc bk hk a = Ok fns ->
  forward base [(name node, fns.1)] (get_inputs clean) = Ok ib ->
  forward hyp [(name node, fns.2)] (get_inputs clean) = Ok ih ->
  is_categorical base = true ->
  let same := same_labels (predicted ib) (predicted ih) in
  let kl := kl_div (map (map log_softmax) (remove_bos ih))
                   (map (map log_softmax) (remove_bos ib)) in
  let be := mean_bool (changed_labels (predicted ob) (predicted ib)) in
  let he := mean_bool (changed_labels (predicted oh) (predicted ih)) in
  evaluate_node base hyp clean corrupted bk hk bc hc a node =
    if String.eqb a "resample" then
      selected ← masked same (outputs_differ clean corrupted);
      Ok (Categorical kl (mean_bool same) be he (Some (mean_bool selected)))
    else Ok (Categorical kl (mean_bool same) be he None).
Proof.
  intros Hob Hoh Hfns Hib Hih Hcat. unfold IIA.evaluate_node.
  rewrite Hob. cbn [mbind result_bind]. rewrite Hoh. cbn [mbind result_bind].
  rewrite Hfns. cbn [mbind result_bind]. rewrite Hib. cbn [mbind result_bind].
  rewrite Hih. cbn [mbind result_bind]. rewrite Hcat. reflexivity.
Qed.

Lemma same_labels_refl (l : list (list nat)) :
  Forall (fun b => b = true) (same_labels l l) /\ length (same_labels l l) = length l.
Proof.
  unfold same_labels. induction l as [|r l [IH1 IH2]]; simpl; [split; [constructor|reflexivity]|].
  split; [|f_equal; exact IH2]. constructor; [|exact IH1].
  clear. induction r as [|x r IH]; simpl; [reflexivity|].
  rewrite Nat.eqb_refl. exact IH.
Qed.

Lemma length_predicted (logits : list (list (list F))) :
  length (predicted logits) = length logits.
Proof. unfold labels, remove_bos. rewrite !length_map. reflexivity. Qed.

Lemma changed_labels_nonempty (a b : list (list (list F))) :
  a <> [] -> length a = length b ->
  Forall (fun row => 2 <= length row) a -> Forall (fun row => 2 <= length row) b ->
  changed_labels (predicted a) (predicted b) <> [].
Proof.
  intros Ha Hl HFa HFb.
  destruct a as [|ra a]; [contradiction|]. destruct b as [|rb b]; [discriminate|].
  inversion HFa as [|? ? Hra _]; subst. inversion HFb as [|? ? Hrb _]; subst.
  destruct ra as [|x0 [|x1 ra]]; simpl in Hra; try lia.
  destruct rb as [|y0 [|y1 rb]]; simpl in Hrb; try lia.
  unfold changed_labels, labels, remove_bos. simpl. discriminate.
Qed.

(** C1.  One network compared with itself, caches captured from that one
    network, zero ablation at any location (the embedding hook among them),
    categorical output, a batch that is not empty and whose sequences reach
    beyond the BOS position: the evaluator returns a row whose accuracy
    equals 1 and whose two effects are the same number.  The four forward
    passes are assumed to return; [orig] and [int] are the logits without
    and with the patch. *)
Theorem identical_networks_zero_ablation
    (m : model) (clean corrupted : dataset)
    (corrupted_cache clean_cache : gmap string tensor)
    (node : CircuitNode) (act : tensor) (orig int : list (list (list F))) :
  is_categorical m = true ->
  clean_cache !! name node = Some act ->
  forward m [] (get_inputs clean) = Ok orig ->
  forward m [(name node, mkHook (<[name node := zeros_like act]> ∅) (index node))]
          (get_inputs clean) = Ok int ->
  orig <> [] -> length orig = length int ->
  Forall (fun row => 2 <= length row) orig ->
  Forall (fun row => 2 <= length row) int ->
  exists kl acc effect,
    evaluate_node m m clean corrupted corrupted_cache corrupted_cache
                  clean_cache clean_cache "zero" node
      = Ok (Categorical kl (Finite acc) (Finite effect) (Finite effect) None)
    /\ (acc == 1)%Q
    /\ Forall (fun agree => agree = true) (same_labels (predicted int) (predicted int))
    /\ length (same_labels (predicted int) (predicted int)) = length int.
Proof.
  intros Hcat Hact Horig Hint Hne Hlen Ho Hi.
  assert (Hfns : build_hook_fns (name node) (index node) clean_cache clean_cache
                   corrupted_cache corrupted_cache "zero"
                 = Ok (mkHook (<[name node := zeros_like act]> ∅) (index node),
                       mkHook (<[name node := zeros_like act]> ∅) (index node))).
  { unfold build_hook_fns, cache_get.
    change (String.eqb "zero" "resample") with false.
    change (String.eqb "zero" "mean") with false.
    change (String.eqb "zero" "zero") with true. cbv iota.
    rewrite Hact. reflexivity. }
  rewrite (evaluate_node_categorical m m clean corrupted corrupted_cache corrupted_cache
             clean_cache clean_cache "zero" node _ orig orig int int
             Horig Horig Hfns Hint Hint Hcat).
  change (String.eqb "zero" "resample") with false. cbv iota.
  destruct (same_labels_refl (predicted int)) as [Hall Hsl].
  rewrite length_predicted in Hsl.
  destruct (mean_bool_all_true (same_labels (predicted int) (predicted int)))
    as (acc & Hacc & Hone); [|exact Hall|].
  { intros Hnil. rewrite Hnil in Hsl. simpl in Hsl.
    destruct orig; [contradiction|]. simpl in Hlen. lia. }
  destruct (mean_bool_unit_interval (changed_labels (predicted orig) (predicted int)))
    as (e & He & _).
  { apply changed_labels_nonempty; assumption. }
  exists (kl_div (map (map log_softmax) (remove_bos int))
                 (map (map log_softmax) (remove_bos int))), acc, e.
  rewrite Hacc, He. repeat split; auto.
Qed.


End EvaluatorFacts.

Lemma identical_networks_zero_ablation_witness :
  exists kl acc effect,
    IIA.evaluate_node (example_forward 0%Z 1%Z) (fun _ => true) fst
        example_outputs_differ Z.ltb (fun row => row) (fun _ _ => tt) Z.eqb (fun _ _ => tt)
        tt tt example_clean example_corrupted ∅ ∅
        (<["hook_embed" := example_activation]> ∅)
        (<["hook_embed" := example_activation]> ∅)
        "zero" (mkNode "hook_embed" None)
      = Ok (Categorical kl (Finite acc) (Finite effect) (Finite effect) None)
    /\ (acc == 1)%Q.
Proof.
  destruct (identical_networks_zero_ablation
              (example_forward 0%Z 1%Z) (fun _ => true) fst
              example_outputs_differ Z.ltb (fun row => row) (fun _ _ => tt) Z.eqb
              (fun _ _ => tt)
              tt example_clean example_corrupted ∅
              (<["hook_embed" := example_activation]> ∅)
              (mkNode "hook_embed" None) example_activation
              [[[0; 1]; [1; 0]]; [[0; 1]; [0; 1]]]%Z
              [[[0; 0]; [0; 0]]; [[0; 0]; [0; 0]]]%Z)
    as (kl & acc & effect & He & Hacc & _).
  - reflexivity.
  - reflexivity.
  - reflexivity.
  - reflexivity.
  - discriminate.
  - reflexivity.
  - repeat constructor.
  - repeat constructor.
  - exists kl, acc, effect. split; [exact He|exact Hacc].
Defined.




(** ** The address model and the correspondence *)

Import Corr.

Section AddressModel.

Variable repr_loc : location -> string.

Lemma is_attn_or_mlp_spec kind :
  is_attn_or_mlp kind = true <-> kind = "attn" \/ kind = "mlp".
Proof.
  unfold is_attn_or_mlp. rewrite orb_true_iff, !String.eqb_eq. reflexivity.
Qed.

(** C8, as the code has it.  [idx] returns a unit that already is an index
    unchanged, whatever the component kind; otherwise it fails on a kind
    that is neither attn nor mlp; for attn it selects [(:, :, unit, :)], the
    unit being a head or [None]; for mlp it selects [[None]], no
    restriction, when the unit is unspecified, and fails its assertion when a
    unit is given.  [hook_name] fails on every kind that is neither attn nor
    mlp. *)
Theorem idx_cases (layer : Z) (kind : string) (unit : unit_spec) :
  (forall ix, unit = UnitIndex ix -> idx (layer, kind, unit) = Ok ix) /\
  (forall head, kind = "attn" -> unit = UnitInt head ->
     idx (layer, kind, unit) = Ok [IxSlice; IxSlice; IxInt head; IxSlice]) /\
  (kind = "attn" -> unit = UnitNone ->
     idx (layer, kind, unit) = Ok [IxSlice; IxSlice; IxNone; IxSlice]) /\
  (kind = "mlp" -> unit = UnitNone -> idx (layer, kind, unit) = Ok [IxNone]) /\
  (forall n, kind = "mlp" -> unit = UnitInt n ->
     idx (layer, kind, unit) = Raise (AssertionError None)) /\
  (kind <> "attn" -> kind <> "mlp" ->
     (forall ix, unit <> UnitIndex ix) ->
     idx (layer, kind, unit) = Raise (unknown_attn_or_mlp kind)) /\
  (kind <> "attn" -> kind <> "mlp" ->
     forall style, hook_name repr_loc (layer, kind, unit) style
                   = Raise (unknown_attn_or_mlp kind)).
Proof.
  repeat split.
  - intros ix ->. reflexivity.
  - intros head -> ->. reflexivity.
  - intros -> ->. reflexivity.
  - intros -> ->. reflexivity.
  - intros n -> ->. reflexivity.
  - intros Ha Hm Hix. unfold idx.
    assert (Hk : is_attn_or_mlp kind = false).
    { apply not_true_is_false. rewrite is_attn_or_mlp_spec. tauto. }
    destruct unit as [|n|ix]; [| |destruct (Hix ix); reflexivity];
      rewrite Hk; reflexivity.
  - intros Ha Hm style. unfold hook_name.
    assert (Hk : is_attn_or_mlp kind = false).
    { apply not_true_is_false. rewrite is_attn_or_mlp_spec. tauto. }
    rewrite Hk. reflexivity.
Qed.

(** An mlp location with a unit does not get the index without restriction:
    the assertion [unit is None] fails. *)
Lemma idx_mlp_with_unit_fails :
  idx (0%Z, "mlp", UnitInt 3) = Raise (AssertionError None)
  /\ idx (0%Z, "mlp", UnitInt 3) <> Ok [IxNone].
Proof. split; [reflexivity|discriminate]. Qed.

End AddressModel.

(** *** Edges *)

Lemma find_hl_nodes_distinct (u v : string) (hl_nodes : list TracrHLNode) :
  u <> v ->
  find_hl_nodes u v hl_nodes = (last_with_label u hl_nodes, last_with_label v hl_nodes).
Proof.
  intros Huv. unfold find_hl_nodes, last_with_label.
  induction hl_nodes as [|x hl_nodes IH] using rev_ind; [reflexivity|].
  rewrite foldl_app, IH, rev_app_distr. simpl.
  destruct (String.eqb_spec u (label x)) as [Hu|Hu].
  - destruct (String.eqb_spec v (label x)) as [Hv|Hv]; [congruence|reflexivity].
  - destruct (String.eqb_spec v (label x)); reflexivity.
Qed.

Lemma find_hl_nodes_self (u : string) (hl_nodes : list TracrHLNode) :
  find_hl_nodes u u hl_nodes = (last_with_label u hl_nodes, None).
Proof.
  unfold find_hl_nodes, last_with_label.
  induction hl_nodes as [|x hl_nodes IH] using rev_ind; [reflexivity|].
  rewrite foldl_app, IH, rev_app_distr. simpl.
  destruct (String.eqb_spec u (label x)); reflexivity.
Qed.

Lemma last_with_label_key l d k :
  last_with_label l (keys d) = Some k -> k ∈ keys d /\ label k = l.
Proof.
  unfold last_with_label. intros Hf. apply find_some in Hf as [Hin Hl].
  apply in_rev, list_elem_of_In in Hin. apply String.eqb_eq in Hl. auto.
Qed.

Lemma getitem_key d k : k ∈ keys d -> is_Some (getitem d k).
Proof.
  unfold keys. induction d as [|[k' v] d IH]; simpl; intros Hin.
  - inversion Hin.
  - destruct (decide (k = k')); [eauto|]. apply IH.
    apply elem_of_cons in Hin as [Hin|Hin]; [contradiction|exact Hin].
Qed.

(** Edges between different labels: an edge with an endpoint that no key
    carries as its label adds nothing and raises nothing, every other edge
    adds the pairs of the two sets, one [EdgeCorr] for each pair. *)
Lemma make_edge_corr_distinct_endpoints tracr_edges hl_ll_corr :
  Forall (fun edge => edge.1 <> edge.2) tracr_edges ->
  make_edge_corr tracr_edges hl_ll_corr
  = Ok (flat_map (edge_contribution hl_ll_corr) tracr_edges).
Proof.
  intros Hall. unfold make_edge_corr.
  induction tracr_edges as [|[u v] edges IH] using rev_ind; [reflexivity|].
  apply Forall_app in Hall as [Hall Huv]. inversion Huv as [|? ? Hne _]; subst.
  simpl in Hne. rewrite foldl_app, IH by exact Hall. simpl.
  rewrite flat_map_app. simpl. rewrite app_nil_r.
  rewrite find_hl_nodes_distinct by exact Hne.
  unfold edge_contribution. simpl.
  destruct (last_with_label u (keys hl_ll_corr)) as [ku|] eqn:Hu;
    [|rewrite app_nil_r; reflexivity].
  destruct (last_with_label v (keys hl_ll_corr)) as [kv|] eqn:Hv;
    [|rewrite app_nil_r; reflexivity].
  destruct (getitem_key hl_ll_corr ku) as [fr ->];
    [apply (last_with_label_key u), Hu|].
  destruct (getitem_key hl_ll_corr kv) as [to ->];
    [apply (last_with_label_key v), Hv|].
  reflexivity.
Qed.

Lemma edge_corrs_cons (ll_from : LLNode) ll_froms ll_tos :
  edge_corrs (ll_from :: ll_froms) ll_tos
  = map (fun ll_to => mkEdgeCorr (ll_name ll_from) (ll_index ll_from)
                                 (ll_name ll_to) (ll_index ll_to)) ll_tos
    ++ edge_corrs ll_froms ll_tos.
Proof.
  unfold edge_corrs. cbn [mbind list_bind]. f_equal.
Qed.

Lemma edge_corrs_length ll_froms ll_tos :
  length (edge_corrs ll_froms ll_tos) = length ll_froms * length ll_tos.
Proof.
  induction ll_froms as [|a fr IH]; [reflexivity|].
  rewrite edge_corrs_cons, length_app, length_map, IH. simpl. reflexivity.
Qed.

(** Every pair of the two sets gives an [EdgeCorr] of the result, and the
    result holds nothing else. *)
Lemma edge_corrs_pairs ll_froms ll_tos (e : EdgeCorr) :
  e ∈ edge_corrs ll_froms ll_tos <->
  exists ll_from ll_to, ll_from ∈ ll_froms /\ ll_to ∈ ll_tos /\
    e = mkEdgeCorr (ll_name ll_from) (ll_index ll_from) (ll_name ll_to) (ll_index ll_to).
Proof.
  induction ll_froms as [|a fr IH].
  - split; [intros H; inversion H|intros (x & _ & H & _); inversion H].
  - rewrite edge_corrs_cons, elem_of_app, IH, list_elem_of_fmap. split.
    + intros [(b & -> & Hb)|(x & y & Hx & Hy & ->)].
      * exists a, b. split; [left|auto].
      * exists x, y. split; [right; exact Hx|auto].
    + intros (x & y & Hx & Hy & ->). apply elem_of_cons in Hx as [->|Hx].
      * left. exists y. auto.
      * right. exists x, y. auto.
Qed.

(** The edge [(u, v)] of a correspondence in which [u] is realised by
    [{A, B}] and [v] by [{C}] gives [(A, C)] and [(B, C)]; an edge to a label
    that no key carries gives nothing. *)
Example make_edge_corr_cross_product :
  make_edge_corr [("u", "v"); ("u", "w")] example_corr
  = Ok [mkEdgeCorr (ll_name example_A) (ll_index example_A)
                   (ll_name example_C) (ll_index example_C);
        mkEdgeCorr (ll_name example_B) (ll_index example_B)
                   (ll_name example_C) (ll_index example_C)].
Proof. reflexivity. Qed.

(** C3 at an edge from a label to itself.  Both endpoints match the key
    [u], whose set is [{A, B}]; the claim asks for the four pairs of that set
    with itself.  The loop sets [hl_node_from] and, by its [elif], never
    [hl_node_to]: the edge is skipped and nothing is returned. *)
Theorem make_edge_corr_drops_self_edge :
  find_hl_nodes "u" "u" (keys example_corr) = (Some example_u, None)
  /\ make_edge_corr [("u", "u")] example_corr = Ok []
  /\ getitem example_corr example_u = Some [example_A; example_B]
  /\ length (edge_corrs [example_A; example_B] [example_A; example_B]) = 4.
Proof. repeat split; reflexivity. Qed.

(** An edge from a label to itself is skipped in every correspondence. *)
Lemma make_edge_corr_self_edge (u : string) hl_ll_corr :
  make_edge_corr [(u, u)] hl_ll_corr = Ok [].
Proof. unfold make_edge_corr. simpl. rewrite find_hl_nodes_self.
  destruct (last_with_label u (keys hl_ll_corr)); reflexivity. Qed.

(** *** Persistence *)

Lemma setitem_fresh d k v : k ∉ keys d -> setitem d k v = d ++ [(k, v)].
Proof.
  unfold keys. induction d as [|[k' v'] d IH]; simpl; intros Hk; [reflexivity|].
  apply not_elem_of_cons in Hk as [Hne Hk].
  destruct (decide (k = k')); [contradiction|]. rewrite IH by exact Hk. reflexivity.
Qed.

Lemma foldl_set_add acc members :
  NoDup (acc ++ members) -> foldl set_add acc members = acc ++ members.
Proof.
  revert acc. induction members as [|x l IH]; intros acc Hnd; simpl.
  - rewrite app_nil_r. reflexivity.
  - assert (Hx : x ∉ acc).
    { apply NoDup_app in Hnd as (_ & Hdisj & _). intros Hin.
      apply (Hdisj x Hin). left. }
    unfold set_add at 2. rewrite bool_decide_eq_false_2 by exact Hx.
    rewrite IH; rewrite <- app_assoc; [reflexivity|exact Hnd].
Qed.

Lemma set_of_NoDup members : NoDup members -> set_of members = members.
Proof. intros Hnd. unfold set_of. rewrite foldl_set_add; [reflexivity|exact Hnd]. Qed.

Lemma foldl_setitem (f : list LLNode -> list LLNode) acc items :
  NoDup (keys acc ++ keys items) ->
  foldl (fun d kv => setitem d kv.1 (f kv.2)) acc items
  = acc ++ map (fun kv => (kv.1, f kv.2)) items.
Proof.
  revert acc. induction items as [|[k v] items IH]; intros acc Hnd; simpl.
  - rewrite app_nil_r. reflexivity.
  - assert (Hk : k ∉ keys acc).
    { apply NoDup_app in Hnd as (_ & Hdisj & _). intros Hin.
      apply (Hdisj k Hin). left. }
    rewrite setitem_fresh by exact Hk. rewrite IH.
    + rewrite <- app_assoc. reflexivity.
    + unfold keys in *. rewrite map_app, <- app_assoc. exact Hnd.
Qed.

Lemma pickle_loads_dumps d : is_dict d -> pickle_loads (pickle_dumps d) = d.
Proof.
  intros [Hk Hv]. unfold pickle_loads, pickle_dumps.
  rewrite (foldl_setitem set_of [] d) by exact Hk. simpl.
  induction Hv as [|[k v] d Hkv _ IH]; simpl; [reflexivity|].
  rewrite set_of_NoDup by exact Hkv. f_equal. apply IH.
  unfold keys in Hk. simpl in Hk. apply NoDup_cons in Hk as [_ Hk]. exact Hk.
Qed.

Lemma cls_dict d : NoDup (keys d) -> cls d = d.
Proof.
  intros Hk. unfold cls. rewrite (foldl_setitem (fun v => v) [] d) by exact Hk.
  simpl. induction d as [|[k v] d IH]; simpl; [reflexivity|]. f_equal. apply IH.
  unfold keys in Hk. simpl in Hk. apply NoDup_cons in Hk as [_ Hk]. exact Hk.
Qed.

Lemma set_eqb_refl (s : list LLNode) : set_eqb s s = true.
Proof.
  unfold set_eqb. rewrite Nat.eqb_refl. simpl. apply forallb_forall.
  intros x Hx. apply bool_decide_eq_true_2, list_elem_of_In, Hx.
Qed.

Lemma getitem_item d k v : NoDup (keys d) -> (k, v) ∈ d -> getitem d k = Some v.
Proof.
  unfold keys. induction d as [|[k' v'] d IH]; simpl; intros Hnd Hin; [inversion Hin|].
  apply NoDup_cons in Hnd as [Hk' Hnd].
  apply elem_of_cons in Hin as [Heq|Hin].
  - injection Heq as -> ->. rewrite decide_True by reflexivity. reflexivity.
  - destruct (decide (k = k')) as [->|Hne]; [|apply IH; assumption].
    exfalso. apply Hk'. apply list_elem_of_fmap. exists (k', v). auto.
Qed.

Lemma dict_eqb_refl d : NoDup (keys d) -> dict_eqb d d = true.
Proof.
  intros Hnd. unfold dict_eqb. rewrite Nat.eqb_refl. simpl. apply forallb_forall.
  intros [k v] Hin. simpl.
  rewrite (getitem_item d k v Hnd) by (apply list_elem_of_In, Hin).
  apply set_eqb_refl.
Qed.

(** Equality of dictionaries does not see the order of the items nor the
    order of the members of a set. *)
Example dict_eqb_order :
  dict_eqb example_corr
           [(example_v, [example_C]); (example_u, [example_B; example_A])] = true.
Proof. reflexivity. Qed.

(** C7.  Saving a correspondence to a file and loading that file gives a
    correspondence equal to it: the same keys, each with an equal set,
    whatever the file system held before. *)
Theorem load_save_roundtrip (corr : TracrCorrespondence) (filename : string)
    (fs : gmap string pickled) :
  is_dict corr ->
  exists loaded, load filename (save corr filename fs) = Ok loaded
                 /\ dict_eqb loaded corr = true
                 /\ keys loaded = keys corr
                 /\ Forall2 (fun kv kv' => set_eqb kv.2 kv'.2 = true) loaded corr.
Proof.
  intros Hd. exists corr. unfold load, save. rewrite lookup_insert_eq.
  rewrite (pickle_loads_dumps corr Hd), (cls_dict corr (proj1 Hd)).
  split; [reflexivity|]. split; [apply dict_eqb_refl, Hd|]. split; [reflexivity|].
  clear. induction corr; constructor; [apply set_eqb_refl|assumption].
Qed.

Lemma load_save_roundtrip_witness :
  exists loaded, load "corr.pkl" (save example_corr "corr.pkl" ∅) = Ok loaded
                 /\ dict_eqb loaded example_corr = true
                 /\ keys loaded = keys example_corr
                 /\ Forall2 (fun kv kv' => set_eqb kv.2 kv'.2 = true) loaded example_corr.
Proof.
  apply (load_save_roundtrip example_corr "corr.pkl" ∅).
  split.
  - apply (bool_decide_unpack _). vm_compute. exact I.
  - repeat constructor; apply (bool_decide_unpack _); vm_compute; exact I.
Defined.

(** ** The unique-data selector *)

Import Dataset.

Lemma take_indices_ok {A} (array : list A) (indices : list nat) :
  Forall (fun i => i < length array) indices ->
  exists xs, take_indices array indices = Ok xs /\
             Forall2 (fun i x => array !! i = Some x) indices xs.
Proof.
  intros Hall. unfold take_indices. apply mapM_result_Forall2.
  eapply Forall_impl; [exact Hall|]. intros i Hi. cbv beta in Hi.
  destruct (lookup_lt_is_Some_2 array i Hi) as [x Hx]. exists x. rewrite Hx. auto.
Qed.

Lemma np_unique_Permutation keys : np_unique keys ≡ₚ remove_dups keys.
Proof. unfold np_unique. apply merge_sort_Permutation. Qed.

Lemma np_unique_NoDup keys : NoDup (np_unique keys).
Proof. rewrite np_unique_Permutation. apply NoDup_remove_dups. Qed.

Lemma np_unique_elem keys k : k ∈ np_unique keys <-> k ∈ keys.
Proof. rewrite np_unique_Permutation. apply elem_of_remove_dups. Qed.

Lemma np_unique_length keys : length (np_unique keys) = length (remove_dups keys).
Proof. rewrite np_unique_Permutation. reflexivity. Qed.

Lemma inverse_lookup (arr keys : list string) p k i :
  NoDup arr -> keys !! p = Some k -> arr !! i = Some k ->
  inverse arr keys !! p = Some i.
Proof.
  intros Hnd Hp Hi. unfold inverse.
  change (map ?f keys) with (f <$> keys). rewrite list_lookup_fmap, Hp. simpl.
  destruct (list_find (fun a => a = k) arr) as [[i' a]|] eqn:Hf.
  - apply list_find_Some in Hf as (Hi' & -> & _).
    f_equal. eapply NoDup_lookup; eauto.
  - apply list_find_None in Hf. rewrite Forall_forall in Hf.
    exfalso. apply (Hf k); [eapply list_elem_of_lookup_2; eauto|reflexivity].
Qed.

Lemma length_inverse arr keys : length (inverse arr keys) = length keys.
Proof. unfold inverse. apply length_map. Qed.

(** The entry [i] of [first_occurences] is the first position of the input
    whose key is the [i]-th of the different keys. *)
Lemma first_where_spec (arr keys : list string) i k :
  NoDup arr -> (forall k', k' ∈ arr <-> k' ∈ keys) -> arr !! i = Some k ->
  exists p, first_where (inverse arr keys) i = Ok p /\
            keys !! p = Some k /\
            forall j k', j < p -> keys !! j = Some k' -> k' <> k.
Proof.
  intros Hnd Helem Hi.
  assert (Hk : k ∈ keys) by (apply Helem; eapply list_elem_of_lookup_2; eauto).
  apply list_elem_of_lookup in Hk as [p0 Hp0].
  pose proof (inverse_lookup arr keys p0 k i Hnd Hp0 Hi) as Hinv0.
  unfold first_where.
  destruct (list_find_elem_of (fun j => j = i) (inverse arr keys) i) as [[p x] Hf];
    [eapply list_elem_of_lookup_2; eauto|reflexivity|].
  rewrite Hf. apply list_find_Some in Hf as (Hp & -> & Hfirst).
  exists p. split; [reflexivity|].
  assert (Hlt : p < length keys).
  { rewrite <- length_inverse with (arr := arr). eapply lookup_lt_Some; eauto. }
  destruct (lookup_lt_is_Some_2 keys p Hlt) as [kp Hkp].
  assert (Hkp_arr : kp ∈ arr) by (apply Helem; eapply list_elem_of_lookup_2; eauto).
  apply list_elem_of_lookup in Hkp_arr as [ip Hip].
  pose proof (inverse_lookup arr keys p kp ip Hnd Hkp Hip) as Hinv.
  rewrite Hp in Hinv. injection Hinv as <-.
  assert (kp = k) by congruence. subst kp.
  split; [exact Hkp|].
  intros j k' Hj Hkj ->.
  pose proof (inverse_lookup arr keys j k i Hnd Hkj Hi) as Hinvj.
  exact (Hfirst j i Hinvj Hj eq_refl).
Qed.

Lemma lookup_NoDup_select {A} (l : list A) (indices : list nat) (xs : list A) :
  NoDup l -> NoDup indices ->
  Forall2 (fun i x => l !! i = Some x) indices xs -> NoDup xs.
Proof.
  intros Hl Hi HF. eapply Forall2_NoDup_inj; [|exact HF|exact Hi].
  intros i i' x _ _ H1 H2. exact (NoDup_lookup l i i' x Hl H1 H2).
Qed.

Lemma Forall2_lookup_compose {A} (l : list A) (first : list nat) (mid : list A)
    (picked : list nat) (xs : list A) (chosen : list nat) :
  Forall2 (fun p x => l !! p = Some x) first mid ->
  Forall2 (fun j x => mid !! j = Some x) picked xs ->
  Forall2 (fun j i => first !! j = Some i) picked chosen ->
  Forall2 (fun i x => l !! i = Some x) chosen xs.
Proof.
  intros H1 H2 H3. apply Forall2_same_length_lookup. split.
  - rewrite <- (Forall2_length _ _ _ H3). apply (Forall2_length _ _ _ H2).
  - intros q i x Hi Hx.
    destruct (Forall2_lookup_r _ _ _ _ _ H3 Hi) as (j & Hj & Hfj).
    destruct (Forall2_lookup_l _ _ _ _ _ H2 Hj) as (x' & Hx' & Hmj).
    assert (x' = x) by congruence. subst x'.
    exact (Forall2_lookup_lr _ _ _ _ _ _ H1 Hfj Hmj).
Qed.

Section Selector.

Context {token nprng : Type} `{NpRandom nprng}.
Variable str_row : list token -> string.

#[local] Abbreviation row_key := (Dataset.row_key str_row).
#[local] Abbreviation get_unique_data := (Dataset.get_unique_data str_row).
#[local] Abbreviation selected_from := (Dataset.selected_from str_row).

Lemma new_TracrDataset_ok (xs ys : list (list token)) :
  Forall2 (fun x y => length x = length y) xs ys ->
  new_TracrDataset xs ys = Ok (mkDataset xs ys).
Proof.
  intros HF. unfold new_TracrDataset. rewrite decide_True; [reflexivity|].
  unfold shape2. rewrite (Forall2_length _ _ _ HF). destruct HF; [reflexivity|].
  f_equal. assumption.
Qed.

Lemma select_same_width (inputs outputs : list (list token)) indices xs ys :
  Forall2 (fun x y => length x = length y) inputs outputs ->
  Forall2 (fun i x => inputs !! i = Some x) indices xs ->
  Forall2 (fun i y => outputs !! i = Some y) indices ys ->
  Forall2 (fun x y => length x = length y) xs ys.
Proof.
  intros Hw Hx Hy. apply Forall2_same_length_lookup. split.
  - rewrite <- (Forall2_length _ _ _ Hx). apply (Forall2_length _ _ _ Hy).
  - intros q x y Hqx Hqy.
    destruct (Forall2_lookup_r _ _ _ _ _ Hx Hqx) as (i & Hi & Hix).
    destruct (Forall2_lookup_r _ _ _ _ _ Hy Hqy) as (i' & Hi' & Hiy).
    assert (i' = i) by congruence. subst i'.
    exact (Forall2_lookup_lr _ _ _ _ _ _ Hw Hix Hiy).
Qed.

(** The stage [first_occurences]: one position for each different key, the
    first position of the input with that key. *)
Lemma first_occurences_spec (inputs : list (list token)) :
  let keys := map row_key inputs in
  let arr := np_unique keys in
  exists first_occurences,
    mapM (first_where (inverse arr keys)) (seq 0 (length arr)) = Ok first_occurences /\
    Forall2 (fun k p => keys !! p = Some k /\
                        forall j k', j < p -> keys !! j = Some k' -> k' <> k)
            arr first_occurences.
Proof.
  intros keys arr.
  destruct (mapM_result_Forall2 (first_where (inverse arr keys))
              (fun i p => exists k, arr !! i = Some k /\ keys !! p = Some k /\
                          forall j k', j < p -> keys !! j = Some k' -> k' <> k)
              (seq 0 (length arr))) as (focc & Hm & HF).
  { apply Forall_forall. intros i Hi. apply elem_of_seq in Hi.
    destruct (lookup_lt_is_Some_2 arr i) as [k Hk]; [lia|].
    destruct (first_where_spec arr keys i k (np_unique_NoDup keys)
                (np_unique_elem keys) Hk) as (p & Hp & Hkp & Hfirst).
    exists p. split; [exact Hp|]. exists k. auto. }
  exists focc. split; [exact Hm|].
  apply Forall2_same_length_lookup. split.
  - rewrite <- (Forall2_length _ _ _ HF), length_seq. reflexivity.
  - intros i k p Hk Hp.
    assert (Hi : seq 0 (length arr) !! i = Some i).
    { rewrite lookup_seq. split; [reflexivity|]. eapply lookup_lt_Some; eauto. }
    destruct (Forall2_lookup_lr _ _ _ _ _ _ HF Hi Hp) as (k' & Hk' & Hkp & Hfirst).
    assert (k' = k) by congruence. subst k'. auto.
Qed.


Lemma get_unique_data_large (case : BenchmarkCase) (max_len : nat) (g g1 : nprng)
    (ins outs : list (list token)) :
  max_len <= get_total_len case ->
  get_clean_data case (3 * max_len) g = ((ins, outs), g1) ->
  Forall2 (fun x y => length x = length y) ins outs ->
  exists ds g2,
    get_unique_data case max_len g = (Ok ds, g2) /\
    NoDup (map row_key (data ds)) /\
    length (data ds) = length (labels ds) /\
    length (data ds) = Nat.min max_len (length (remove_dups (map row_key ins))) /\
    selected_from ins outs ds /\
    (length (remove_dups (map row_key ins)) <= max_len ->
       g2 = g1 /\ forall x, x ∈ ins -> row_key x ∈ map row_key (data ds)) /\
    (max_len < length (remove_dups (map row_key ins)) ->
       let draw := random_choice g1 (length (remove_dups (map row_key ins))) max_len in
       g2 = draw.2 /\
       exists unique_test_inputs unique_test_outputs : list (list token),
         map row_key unique_test_inputs = np_unique (map row_key ins) /\
         Forall2 (fun j x => unique_test_inputs !! j = Some x) draw.1 (data ds) /\
         Forall2 (fun j y => unique_test_outputs !! j = Some y) draw.1 (labels ds)).
Proof.
  intros Hge Hgen Hw. unfold Dataset.get_unique_data.
  destruct (Nat.ltb_spec (get_total_len case) max_len); [lia|].
  rewrite Hgen.
  set (keys := map (Dataset.row_key str_row) ins).
  destruct (first_occurences_spec ins) as (focc & Hm & HF). fold keys in Hm, HF.
  rewrite Hm.
  pose proof (Forall2_length _ _ _ Hw) as Hlen_io.
  assert (Hkeys_len : length keys = length ins) by apply length_map.
  assert (Hrange : Forall (fun p => p < length ins) focc).
  { apply Forall_forall. intros p Hp.
    destruct (Forall2_elem_r _ _ _ _ HF Hp) as (k & _ & Hk & _).
    rewrite <- Hkeys_len. eapply lookup_lt_Some; eauto. }
  destruct (take_indices_ok ins focc Hrange) as (uin & Huin & HFin).
  destruct (take_indices_ok outs focc) as (uout & Huout & HFout).
  { rewrite <- Hlen_io. exact Hrange. }
  rewrite Huin, Huout.
  assert (Hfirst : Forall (fun i => forall j x x', j < i -> ins !! j = Some x ->
                     ins !! i = Some x' -> row_key x <> row_key x') focc).
  { apply Forall_forall. intros p Hp j x x' Hj Hx Hx'.
    destruct (Forall2_elem_r _ _ _ _ HF Hp) as (k & _ & Hk & Hfst).
    assert (Hkx' : keys !! p = Some (row_key x')).
    { unfold keys. change (map ?f ins) with (f <$> ins).
      rewrite list_lookup_fmap, Hx'. reflexivity. }
    assert (Hkx : keys !! j = Some (row_key x)).
    { unfold keys. change (map ?f ins) with (f <$> ins).
      rewrite list_lookup_fmap, Hx. reflexivity. }
    assert (k = row_key x') by congruence. subst k. exact (Hfst j _ Hj Hkx). }
  assert (Hukeys : map row_key uin = np_unique keys).
  { apply list_eq_same_length with (n := length focc).
    - rewrite (Forall2_length _ _ _ HF). reflexivity.
    - rewrite length_map, (Forall2_length _ _ _ HFin). reflexivity.
    - intros q kx k Hq Hkx Hk.
      change (map ?f uin) with (f <$> uin) in Hkx.
      rewrite list_lookup_fmap in Hkx.
      destruct (uin !! q) as [x|] eqn:Hx; [|discriminate]. simpl in Hkx.
      injection Hkx as <-.
      destruct (Forall2_lookup_r _ _ _ _ _ HFin Hx) as (p & Hp & Hpx).
      destruct (Forall2_lookup_lr _ _ _ _ _ _ HF Hk Hp) as [Hkp _].
      unfold keys in Hkp. change (map ?f ins) with (f <$> ins) in Hkp.
      rewrite list_lookup_fmap, Hpx in Hkp. simpl in Hkp. congruence. }
  assert (Hulen : length uin = length (remove_dups keys)).
  { rewrite <- np_unique_length, <- Hukeys, length_map. reflexivity. }
  assert (Huio : length uin = length uout).
  { rewrite <- (Forall2_length _ _ _ HFin). apply (Forall2_length _ _ _ HFout). }
  assert (Hwu : Forall2 (fun x y => length x = length y) uin uout).
  { eapply select_same_width; eauto. }
  destruct (Nat.ltb_spec max_len (length uin)) as [Hbig|Hsmall].
  - destruct (random_choice g1 (length uin) max_len) as [r g2] eqn:Hr.
    assert (Hle : max_len <= length uin) by lia.
    pose proof (random_choice_length g1 _ _ Hle) as Hrl.
    pose proof (random_choice_NoDup g1 _ _ Hle) as Hrn.
    pose proof (fun i => random_choice_range g1 _ _ i Hle) as Hrr.
    rewrite Hr in Hrl, Hrn, Hrr. simpl in Hrl, Hrn, Hrr.
    assert (Hrr' : Forall (fun j => j < length uin) r) by (apply Forall_forall, Hrr).
    destruct (take_indices_ok uin r Hrr') as (uin' & Huin' & HFin').
    destruct (take_indices_ok uout r) as (uout' & Huout' & HFout').
    { rewrite <- Huio. exact Hrr'. }
    destruct (take_indices_ok focc r) as (chosen & _ & HFc).
    { rewrite (Forall2_length _ _ _ HFin). exact Hrr'. }
    rewrite Huin'. cbn [mbind result_bind]. rewrite Huout'. cbn [mbind result_bind].
    rewrite new_TracrDataset_ok by (eapply select_same_width; eauto).
    exists (mkDataset uin' uout'), g2. cbn [data labels].
    split; [reflexivity|]. split; [|split; [|split; [|split; [|split]]]].
    + apply (lookup_NoDup_select (map row_key uin) r).
      * rewrite Hukeys. apply np_unique_NoDup.
      * exact Hrn.
      * apply Forall2_fmap_r. eapply Forall2_impl; [exact HFin'|].
        intros j x Hjx. cbv beta. change (map ?f uin) with (f <$> uin).
        rewrite list_lookup_fmap, Hjx. reflexivity.
    + rewrite <- (Forall2_length _ _ _ HFin'). apply (Forall2_length _ _ _ HFout').
    + rewrite <- (Forall2_length _ _ _ HFin'), Hrl. fold keys. lia.
    + exists chosen. split; [|split].
      * eapply Forall2_lookup_compose; eauto.
      * eapply Forall2_lookup_compose; eauto.
      * apply Forall_forall. intros i Hi.
        destruct (Forall2_elem_r _ _ _ _ HFc Hi) as (j & _ & Hj).
        rewrite Forall_forall in Hfirst. apply Hfirst.
        eapply list_elem_of_lookup_2; eauto.
    + fold keys. intros Hcap. lia.
    + fold keys. intros _. rewrite <- Hulen, Hr. cbn [fst snd].
      split; [reflexivity|]. exists uin, uout. auto.
  - rewrite new_TracrDataset_ok by exact Hwu.
    exists (mkDataset uin uout), g1. cbn [data labels].
    split; [reflexivity|]. split; [|split; [|split; [|split; [|split]]]].
    + rewrite Hukeys. apply np_unique_NoDup.
    + exact Huio.
    + fold keys. lia.
    + exists focc. auto.
    + intros _. split; [reflexivity|]. intros x Hx. rewrite Hukeys.
      apply np_unique_elem. unfold keys. apply list_elem_of_fmap. eauto.
    + fold keys. intros Hcap. lia.
Qed.

(** X30.  The branch of the samples.  When the input space is not smaller than
    [max_len], and the inputs and outputs that [get_clean_data] draws have
    one shape, the selector returns rows with pairwise different keys, hence
    pairwise different inputs, each the first drawn with its key and each
    with the output drawn at the same position; there are [min max_len d]
    of them for [d] different keys among the [3 * max_len] samples, so
    exactly [max_len] when [d] exceeds it and fewer than [max_len] when [d]
    is below it; when [d] does not exceed [max_len] every drawn input is
    represented. *)
Theorem get_unique_data_sample_branch (case : BenchmarkCase) (max_len : nat) (g g1 : nprng)
    (ins outs : list (list token)) :
  max_len <= get_total_len case ->
  get_clean_data case (3 * max_len) g = ((ins, outs), g1) ->
  Forall2 (fun x y => length x = length y) ins outs ->
  exists ds g2,
    get_unique_data case max_len g = (Ok ds, g2) /\
    NoDup (map row_key (data ds)) /\ NoDup (data ds) /\
    length (data ds) = length (labels ds) /\
    length (data ds) = Nat.min max_len (length (remove_dups (map row_key ins))) /\
    selected_from ins outs ds /\
    (length (remove_dups (map row_key ins)) <= max_len ->
       forall x, x ∈ ins -> row_key x ∈ map row_key (data ds)).
Proof.
  intros Hge Hgen Hw.
  destruct (get_unique_data_large case max_len g g1 ins outs Hge Hgen Hw)
    as (ds & g2 & He & Hnd & Hl & Hlen & Hsel & Hcov & _).
  exists ds, g2. repeat split; auto.
  - apply (NoDup_fmap_1 row_key). exact Hnd.
  - intros Hcap. apply Hcov, Hcap.
Qed.

End Selector.


(** The toy case at a cap of two: the six samples hold both inputs, and
    each is returned once, with its output. *)
Lemma get_unique_data_sample_branch_witness :
  exists ds g2,
    Dataset.get_unique_data toy_str_row toy_case 2 0 = (Ok ds, g2) /\
    NoDup (data ds) /\ length (data ds) = length (labels ds).
Proof.
  destruct (get_unique_data_sample_branch toy_str_row toy_case 2 0 0
              (map (fun i => [0; 1 + (i / 2) mod 2]) (seq 0 6))
              (map (fun i => [0; 2 - (i / 2) mod 2]) (seq 0 6)))
    as (ds & g2 & He & _ & Hnd & Hl & _).
  - vm_compute. lia.
  - reflexivity.
  - repeat constructor.
  - exists ds, g2. split; [exact He|]. split; [exact Hnd|exact Hl].
Defined.

(** At a cap of two the six samples hold both inputs, each kept once with
    its output; at a cap of one, one of the two is drawn. *)
Example get_unique_data_deduplicates :
  (Dataset.get_unique_data toy_str_row toy_case 2 0).1
  = Ok (mkDataset [[0; 1]; [0; 2]] [[0; 2]; [0; 1]])
  /\ (Dataset.get_unique_data toy_str_row toy_case 1 0).1
     = Ok (mkDataset [[0; 1]] [[0; 2]]).
Proof. split; vm_compute; reflexivity. Qed.

(** ** Randomised steps and the global generators *)

Section GlobalGenerators.

Context {InterventionType rng token nprng : Type} `{PyRandom rng} `{NpRandom nprng}.
Variable str_row : list token -> string.


End GlobalGenerators.


(** * Further facts

    ** Edges of a correspondence *)

Import Corr.

Lemma last_with_label_None l hl_nodes :
  last_with_label l hl_nodes = None <-> forall k, k ∈ hl_nodes -> label k <> l.
Proof.
  unfold last_with_label. split.
  - intros Hf k Hk Hl.
    pose proof (find_none _ _ Hf k) as Hn. cbv beta in Hn.
    rewrite Hl, String.eqb_refl in Hn. discriminate Hn.
    apply -> in_rev. apply list_elem_of_In, Hk.
  - intros Hall. destruct (List.find _ _) as [k|] eqn:Hf; [|reflexivity].
    apply find_some in Hf as [Hin Hl]. apply String.eqb_eq in Hl.
    exfalso. apply (Hall k); [apply list_elem_of_In, in_rev, Hin|auto].
Qed.

Lemma last_with_label_unique l hl_nodes k :
  NoDup (map label hl_nodes) -> k ∈ hl_nodes -> label k = l ->
  last_with_label l hl_nodes = Some k.
Proof.
  intros Hnd Hk Hl. destruct (last_with_label l hl_nodes) as [k'|] eqn:Hf.
  - unfold last_with_label in Hf. apply find_some in Hf as [Hin Hl'].
    apply String.eqb_eq in Hl'. apply in_rev, list_elem_of_In in Hin.
    f_equal. apply list_elem_of_lookup in Hk as [i Hi].
    apply list_elem_of_lookup in Hin as [j Hj].
    assert (Hij : i = j).
    { eapply (NoDup_lookup (map label hl_nodes) i j l Hnd).
      - change (map label hl_nodes) with (label <$> hl_nodes).
        rewrite list_lookup_fmap, Hi. simpl. congruence.
      - change (map label hl_nodes) with (label <$> hl_nodes).
        rewrite list_lookup_fmap, Hj. simpl. congruence. }
    subst j. congruence.
  - exfalso. apply (proj1 (last_with_label_None l hl_nodes) Hf k Hk Hl).
Qed.

(** X1.  [make_edge_corr] never raises: its result lists, edge after edge, what
    each edge adds, which is nothing for an edge from a label to itself. *)
Theorem make_edge_corr_flat_map tracr_edges hl_ll_corr :
  make_edge_corr tracr_edges hl_ll_corr
  = Ok (flat_map (edge_result hl_ll_corr) tracr_edges).
Proof.
  unfold make_edge_corr.
  induction tracr_edges as [|[u v] edges IH] using rev_ind; [reflexivity|].
  rewrite foldl_app, IH. simpl. rewrite flat_map_app. simpl. rewrite app_nil_r.
  unfold edge_result. simpl. destruct (String.eqb_spec u v) as [->|Hne].
  - rewrite find_hl_nodes_self, app_nil_r.
    destruct (last_with_label v (keys hl_ll_corr)); reflexivity.
  - rewrite find_hl_nodes_distinct by exact Hne. unfold edge_contribution. simpl.
    destruct (last_with_label u (keys hl_ll_corr)) as [ku|] eqn:Hu;
      [|rewrite app_nil_r; reflexivity].
    destruct (last_with_label v (keys hl_ll_corr)) as [kv|] eqn:Hv;
      [|rewrite app_nil_r; reflexivity].
    destruct (getitem_key hl_ll_corr ku) as [fr ->];
      [apply (last_with_label_key u), Hu|].
    destruct (getitem_key hl_ll_corr kv) as [to ->];
      [apply (last_with_label_key v), Hv|].
    reflexivity.
Qed.

(** X2.  One edge between two different labels, in a dictionary whose keys carry
    pairwise different labels: an endpoint that no key carries gives no
    [EdgeCorr]; two endpoints carried by keys with the sets [ll_froms] and
    [ll_tos] give one [EdgeCorr] for each pair of a member of [ll_froms] and
    a member of [ll_tos], and nothing else. *)
Theorem make_edge_corr_one_edge (u v : string) hl_ll_corr :
  u <> v -> is_dict hl_ll_corr -> NoDup (map label (keys hl_ll_corr)) ->
  ((forall k, k ∈ keys hl_ll_corr -> label k <> u) \/
   (forall k, k ∈ keys hl_ll_corr -> label k <> v) ->
   make_edge_corr [(u, v)] hl_ll_corr = Ok []) /\
  (forall hl_from hl_to ll_froms ll_tos,
     (hl_from, ll_froms) ∈ hl_ll_corr -> (hl_to, ll_tos) ∈ hl_ll_corr ->
     label hl_from = u -> label hl_to = v ->
     exists ll_edges,
       make_edge_corr [(u, v)] hl_ll_corr = Ok ll_edges /\
       length ll_edges = length ll_froms * length ll_tos /\
       forall e, e ∈ ll_edges <->
         exists ll_from ll_to, ll_from ∈ ll_froms /\ ll_to ∈ ll_tos /\
           e = mkEdgeCorr (ll_name ll_from) (ll_index ll_from)
                          (ll_name ll_to) (ll_index ll_to)).
Proof.
  intros Hne [Hkeys _] Hlabels.
  assert (Hone : make_edge_corr [(u, v)] hl_ll_corr
                 = Ok (edge_contribution hl_ll_corr (u, v))).
  { unfold make_edge_corr. simpl. rewrite find_hl_nodes_distinct by exact Hne.
    unfold edge_contribution. simpl.
    destruct (last_with_label u (keys hl_ll_corr)) as [ku|] eqn:Hu; [|reflexivity].
    destruct (last_with_label v (keys hl_ll_corr)) as [kv|] eqn:Hv; [|reflexivity].
    destruct (getitem_key hl_ll_corr ku) as [fr ->];
      [apply (last_with_label_key u), Hu|].
    destruct (getitem_key hl_ll_corr kv) as [to ->];
      [apply (last_with_label_key v), Hv|].
    reflexivity. }
  rewrite Hone. split.
  - intros Hmiss. unfold edge_contribution. simpl. destruct Hmiss as [Hu|Hv].
    + rewrite (proj2 (last_with_label_None u _) Hu). reflexivity.
    + rewrite (proj2 (last_with_label_None v _) Hv).
      destruct (last_with_label u (keys hl_ll_corr)); reflexivity.
  - intros hl_from hl_to ll_froms ll_tos Hf Ht Hlu Hlv.
    assert (Hkf : hl_from ∈ keys hl_ll_corr).
    { apply list_elem_of_fmap. exists (hl_from, ll_froms). auto. }
    assert (Hkt : hl_to ∈ keys hl_ll_corr).
    { apply list_elem_of_fmap. exists (hl_to, ll_tos). auto. }
    unfold edge_contribution. simpl.
    rewrite (last_with_label_unique u _ hl_from Hlabels Hkf Hlu).
    rewrite (last_with_label_unique v _ hl_to Hlabels Hkt Hlv).
    rewrite (getitem_item _ _ _ Hkeys Hf), (getitem_item _ _ _ Hkeys Ht).
    eexists. split; [reflexivity|]. split; [apply edge_corrs_length|].
    apply edge_corrs_pairs.
Qed.

Lemma make_edge_corr_one_edge_witness :
  exists ll_edges,
    make_edge_corr [("u", "v")] example_corr = Ok ll_edges /\
    length ll_edges = 2.
Proof.
  destruct (make_edge_corr_one_edge "u" "v" example_corr) as [_ Hpairs].
  - discriminate.
  - split.
    + apply (bool_decide_unpack _). vm_compute. exact I.
    + repeat constructor; apply (bool_decide_unpack _); vm_compute; exact I.
  - apply (bool_decide_unpack _). vm_compute. exact I.
  - destruct (Hpairs example_u example_v [example_A; example_B] [example_C])
      as (ll_edges & He & Hlen & _).
    + left.
    + right. left.
    + reflexivity.
    + reflexivity.
    + exists ll_edges. split; [exact He|exact Hlen].
Defined.

(** ** Hook names *)

Lemma list_ascii_app (s t : string) :
  list_ascii_of_string (s ++ t)%string = list_ascii_of_string s ++ list_ascii_of_string t.
Proof. induction s as [|c s IH]; simpl; [reflexivity|]. rewrite IH. reflexivity. Qed.

Lemma list_ascii_inj (s t : string) :
  list_ascii_of_string s = list_ascii_of_string t -> s = t.
Proof.
  intros He. rewrite <- (string_of_list_ascii_of_string s),
    <- (string_of_list_ascii_of_string t), He. reflexivity.
Qed.

Lemma string_app_inv_tail (s1 s2 t : string) :
  (s1 ++ t = s2 ++ t)%string -> s1 = s2.
Proof.
  intros He. apply list_ascii_inj. apply (f_equal list_ascii_of_string) in He.
  rewrite !list_ascii_app in He. exact (app_inv_tail _ _ _ He).
Qed.

Lemma tl_suffix_differs (s1 s2 : string) :
  (s1 ++ ".attn.hook_result")%string <> (s2 ++ ".mlp.hook_post")%string.
Proof.
  intros He. apply (f_equal list_ascii_of_string) in He.
  rewrite !list_ascii_app in He. apply (f_equal (@rev ascii)) in He.
  rewrite !rev_app_distr in He. simpl in He. discriminate He.
Qed.

Section HookNames.

Variable repr_loc : location -> string.

Lemma hook_name_tl (layer : Z) (kind : string) (unit : unit_spec) (s : string) :
  hook_name repr_loc (layer, kind, unit) "tl" = Ok s ->
  (kind = "attn" /\ s = ("blocks." ++ pretty layer ++ ".attn.hook_result")%string) \/
  (kind = "mlp" /\ s = ("blocks." ++ pretty layer ++ ".mlp.hook_post")%string).
Proof.
  unfold hook_name. destruct (is_attn_or_mlp kind) eqn:Hk; [|discriminate].
  apply is_attn_or_mlp_spec in Hk. simpl. intros He. injection He as <-.
  destruct Hk as [-> | ->]; [left|right]; split; reflexivity.
Qed.

(** X3.  In the style ["tl"] the name of a hook determines the layer and the
    component kind of the location it was made from: two locations get the
    same name only if they agree on both (the unit is not part of the
    name). *)
Theorem hook_name_tl_injective (loc1 loc2 : location) (s : string) :
  hook_name repr_loc loc1 "tl" = Ok s ->
  hook_name repr_loc loc2 "tl" = Ok s ->
  loc1.1.1 = loc2.1.1 /\ loc1.1.2 = loc2.1.2.
Proof.
  destruct loc1 as [[l1 k1] u1], loc2 as [[l2 k2] u2]. simpl. intros H1 H2.
  apply (hook_name_tl l1 k1 u1) in H1. apply (hook_name_tl l2 k2 u2) in H2.
  assert (Hsame : forall suffix : string,
            ("blocks." ++ pretty l1 ++ suffix)%string
            = ("blocks." ++ pretty l2 ++ suffix)%string -> l1 = l2).
  { intros suffix He. apply String.app_inj in He.
    apply string_app_inv_tail in He. apply (inj pretty) in He. exact He. }
  destruct H1 as [[-> ->]|[-> ->]], H2 as [[-> H2]|[-> H2]].
  - split; [apply (Hsame _ H2)|reflexivity].
  - exfalso. apply String.app_inj in H2. exact (tl_suffix_differs _ _ H2).
  - exfalso. apply String.app_inj in H2. symmetry in H2.
    exact (tl_suffix_differs _ _ H2).
  - split; [apply (Hsame _ H2)|reflexivity].
Qed.

End HookNames.

Lemma hook_name_tl_injective_witness :
  (0%Z, "attn", UnitInt 1).1.1 = (0%Z, "attn", UnitNone).1.1
  /\ (0%Z, "attn", UnitInt 1).1.2 = (0%Z, "attn", UnitNone).1.2.
Proof.
  apply (hook_name_tl_injective (fun _ => "") (0%Z, "attn", UnitInt 1)
           (0%Z, "attn", UnitNone) "blocks.0.attn.hook_result").
  - vm_compute. reflexivity.
  - vm_compute. reflexivity.
Defined.

(** ** Building a correspondence *)

Lemma keys_setitem d k v :
  keys (setitem d k v) = if bool_decide (k ∈ keys d) then keys d else keys d ++ [k].
Proof.
  unfold keys. induction d as [|[k' v'] d IH]; simpl; [reflexivity|].
  destruct (decide (k = k')) as [->|Hne].
  - rewrite bool_decide_eq_true_2 by left. reflexivity.
  - simpl. rewrite IH. destruct (bool_decide (k ∈ map fst d)) eqn:Hd.
    + apply bool_decide_eq_true_1 in Hd.
      rewrite bool_decide_eq_true_2 by (right; exact Hd). reflexivity.
    + apply bool_decide_eq_false_1 in Hd.
      rewrite bool_decide_eq_false_2; [reflexivity|].
      intros Hin. apply elem_of_cons in Hin as [?|?]; contradiction.
Qed.

Lemma setitem_NoDup d k v : NoDup (keys d) -> NoDup (keys (setitem d k v)).
Proof.
  intros Hnd. rewrite keys_setitem. destruct (bool_decide (k ∈ keys d)) eqn:Hd; [exact Hnd|].
  apply bool_decide_eq_false_1 in Hd. apply NoDup_app. split; [exact Hnd|].
  split; [|apply NoDup_singleton].
  intros x Hx Hx'. apply list_elem_of_singleton in Hx'. subst x. contradiction.
Qed.

Lemma setitem_key d k v : k ∈ keys (setitem d k v).
Proof.
  rewrite keys_setitem. destruct (bool_decide (k ∈ keys d)) eqn:Hd.
  - apply bool_decide_eq_true_1 in Hd. exact Hd.
  - apply elem_of_app. right. left.
Qed.

Lemma setitem_keys_mono d k v k' : k' ∈ keys d -> k' ∈ keys (setitem d k v).
Proof.
  intros Hin. rewrite keys_setitem. destruct (bool_decide (k ∈ keys d)); [exact Hin|].
  apply elem_of_app. left. exact Hin.
Qed.

Lemma setitem_elem d k v kv : kv ∈ setitem d k v -> kv = (k, v) \/ kv ∈ d.
Proof.
  induction d as [|[k' v'] d IH]; simpl; intros Hin.
  - apply list_elem_of_singleton in Hin. left. exact Hin.
  - destruct (decide (k = k')).
    + apply elem_of_cons in Hin as [->|Hin]; [left; reflexivity|right; right; exact Hin].
    + apply elem_of_cons in Hin as [->|Hin]; [right; left|].
      destruct (IH Hin) as [->|Hd]; [left; reflexivity|right; right; exact Hd].
Qed.

Lemma foldl_set_add_spec acc members :
  NoDup acc ->
  NoDup (foldl set_add acc members) /\
  forall x, x ∈ foldl set_add acc members <-> x ∈ acc \/ x ∈ members.
Proof.
  revert acc. induction members as [|m members IH]; intros acc Hnd; simpl.
  - split; [exact Hnd|]. intros x. split; [auto|]. intros [?|Hx]; [auto|inversion Hx].
  - assert (Hnd' : NoDup (set_add acc m)).
    { unfold set_add. destruct (bool_decide (m ∈ acc)) eqn:Hm; [exact Hnd|].
      apply bool_decide_eq_false_1 in Hm. apply NoDup_app. split; [exact Hnd|].
      split; [|apply NoDup_singleton].
      intros x Hx Hx'. apply list_elem_of_singleton in Hx'. subst x. contradiction. }
    destruct (IH _ Hnd') as [IH1 IH2]. split; [exact IH1|].
    intros x. rewrite IH2. unfold set_add.
    destruct (bool_decide (m ∈ acc)) eqn:Hm.
    + apply bool_decide_eq_true_1 in Hm. rewrite elem_of_cons. split.
      * intros [?|?]; auto.
      * intros [?|[->|?]]; auto.
    + rewrite elem_of_app, list_elem_of_singleton, elem_of_cons. tauto.
Qed.

Lemma set_of_spec members :
  NoDup (set_of members) /\ forall x, x ∈ set_of members <-> x ∈ members.
Proof.
  destruct (foldl_set_add_spec [] members (NoDup_nil_2)) as [Hnd Hin].
  split; [exact Hnd|]. intros x. unfold set_of. rewrite Hin. split; [|auto].
  intros [Hx|Hx]; [inversion Hx|exact Hx].
Qed.

Lemma foldl_Raise {A B} (step : A -> B -> result A) (e : exn) (l : list B) :
  foldl (fun acc b => a ← acc; step a b) (Raise e) l = Raise e.
Proof. induction l as [|b l IH]; simpl; [reflexivity|exact IH]. Qed.

Lemma foldl_absorbs {A B} (step : result A -> B -> result A) (e : exn) (l : list B) :
  (forall b, step (Raise e) b = Raise e) ->
  foldl step (Raise e) l = Raise e.
Proof. intros Hstep. induction l as [|b l IH]; simpl; [reflexivity|]. rewrite Hstep. exact IH. Qed.

Section MakeCorrFacts.

Context {V : Type} `{EqDecision V}.
Variable repr_loc : location -> string.

Lemma ll_node_inv (loc : location) (style : string) (n : LLNode) :
  ll_node repr_loc loc style = Ok n ->
  exists name ix, hook_name repr_loc loc style = Ok name /\ idx loc = Ok ix /\
                  n = mkLLNode name ix None.
Proof.
  unfold ll_node. destruct (hook_name repr_loc loc style) as [name|e]; [|discriminate].
  rewrite bind_Ok. destruct (idx loc) as [ix|e]; [|discriminate].
  rewrite bind_Ok. intros He. injection He as <-. eauto.
Qed.

Lemma hl_node_of_ll_node (basis_dir : @BasisDirection V) (loc : location) (style : string)
    (n : LLNode) :
  ll_node repr_loc loc style = Ok n ->
  hl_node repr_loc basis_dir loc style
  = Ok (mkHLNode (ll_name n) (bd_name basis_dir) 0 (Some (ll_index n))).
Proof.
  intros Hn. destruct (ll_node_inv loc style n Hn) as (name & ix & Hh & Hi & ->).
  unfold hl_node. rewrite Hh, bind_Ok, Hi, bind_Ok. reflexivity.
Qed.

(** X4.  The identity fallback: without a map of realizations, and every
    location having a hook name and an index, [make_hl_ll_corr] returns a
    dictionary in which every high-level node has no classes and is realised
    by exactly one low-level node, the one with its own hook name and index;
    every basis direction has its node among the keys. *)
Theorem make_hl_ll_corr_identity
    (tracr_hl_corr : list (@BasisDirection V * location)) (style : string) :
  Forall (fun item => exists n, ll_node repr_loc item.2 style = Ok n) tracr_hl_corr ->
  exists d,
    make_hl_ll_corr repr_loc tracr_hl_corr None style = Ok d /\
    is_dict d /\
    (forall k v, (k, v) ∈ d ->
       exists ix, hl_index k = Some ix /\ num_classes k = 0%Z /\
                  v = [mkLLNode (hl_name k) ix None]) /\
    (forall item, item ∈ tracr_hl_corr ->
       exists k, k ∈ keys d /\ label k = bd_name item.1 /\
                 hl_node repr_loc item.1 item.2 style = Ok k).
Proof.
  intros Hall. unfold make_hl_ll_corr.
  match goal with |- context [foldl ?f (Ok []) tracr_hl_corr] => set (step := f) end.
  assert (Hfold : exists d,
    foldl step (Ok []) tracr_hl_corr = Ok d /\ NoDup (keys d) /\
    (forall k v, (k, v) ∈ d ->
       exists ix, hl_index k = Some ix /\ num_classes k = 0%Z /\
                  v = [mkLLNode (hl_name k) ix None]) /\
    (forall item, item ∈ tracr_hl_corr ->
       exists k, k ∈ keys d /\ label k = bd_name item.1 /\
                 hl_node repr_loc item.1 item.2 style = Ok k)).
  { induction tracr_hl_corr as [|[bd loc] items IH] using rev_ind.
    - exists []. simpl. split; [reflexivity|]. split; [constructor|].
      split; [intros k v Hin; inversion Hin|intros item Hin; inversion Hin].
    - apply Forall_app in Hall as [Hall Hlast]. inversion Hlast as [|? ? [n Hn] _]; subst.
      simpl in Hn. destruct (IH Hall) as (d & Hd & Hnd & Hval & Hcov).
      rewrite foldl_app. simpl. rewrite Hd. unfold step at 1. rewrite bind_Ok. simpl.
      rewrite (hl_node_of_ll_node bd loc style n Hn), bind_Ok, Hn, bind_Ok.
      eexists. split; [reflexivity|]. split; [apply setitem_NoDup, Hnd|]. split.
      + intros k v Hin. apply setitem_elem in Hin as [Heq|Hin]; [|apply Hval, Hin].
        injection Heq as -> ->. exists (ll_index n). simpl.
        destruct n as [nm ix sp].
        destruct (ll_node_inv loc style _ Hn) as (name & ix' & _ & _ & Heq).
        injection Heq as -> -> ->. auto.
      + intros item Hin. apply elem_of_app in Hin as [Hin|Hin].
        * destruct (Hcov item Hin) as (k & Hk & Hl & Hh). exists k.
          split; [apply setitem_keys_mono, Hk|auto].
        * apply list_elem_of_singleton in Hin. subst item. simpl.
          eexists. split; [apply setitem_key|]. split; [reflexivity|].
          apply hl_node_of_ll_node, Hn. }
  destruct Hfold as (d & Hd & Hnd & Hval & Hcov).
  exists d. rewrite Hd, bind_Ok, (cls_dict d Hnd). split; [reflexivity|].
  split; [|split; assumption].
  split; [exact Hnd|]. apply Forall_forall. intros [k v] Hin.
  destruct (Hval k v Hin) as (ix & _ & _ & ->). simpl. apply NoDup_singleton.
Qed.

Lemma make_hl_ll_corr_fold
    (tracr_hl_corr : list (@BasisDirection V * location))
    (ll_corr : list (string * V * list location)) (style : string) step :
  step = (fun (acc : result TracrCorrespondence) (item : @BasisDirection V * location) =>
            d ← acc;
            k ← hl_node repr_loc item.1 item.2 style;
            ll_locs ← ll_realizations ll_corr (bd_name item.1) (bd_value item.1);
            nodes ← mapM (fun ll_loc => ll_node repr_loc ll_loc "tl") ll_locs;
            Ok (setitem d k (set_of nodes))) ->
  Forall (realised repr_loc ll_corr style) tracr_hl_corr ->
  exists d,
    foldl step (Ok []) tracr_hl_corr = Ok d /\ is_dict d /\
    (forall k v, (k, v) ∈ d ->
       exists item ll_locs, item ∈ tracr_hl_corr /\
         hl_node repr_loc item.1 item.2 style = Ok k /\
         ll_realizations ll_corr (bd_name item.1) (bd_value item.1) = Ok ll_locs /\
         forall n, n ∈ v <-> exists ll_loc, ll_loc ∈ ll_locs /\
                                       ll_node repr_loc ll_loc "tl" = Ok n) /\
    (forall item, item ∈ tracr_hl_corr ->
       exists k, k ∈ keys d /\ hl_node repr_loc item.1 item.2 style = Ok k).
Proof.
  intros Hstep Hall.
  induction tracr_hl_corr as [|item items IH] using rev_ind.
  - exists []. simpl. split; [reflexivity|]. split; [split; constructor|].
    split; [intros k v Hin; inversion Hin|intros it Hin; inversion Hin].
  - apply Forall_app in Hall as [Hall Hlast].
    inversion Hlast as [|? ? ([k Hk] & ll_locs & Hlocs & Hnodes) _]; subst.
    destruct (IH Hall) as (d & Hd & [Hnd Hsets] & Hval & Hcov).
    destruct (mapM_result_Forall2 (fun ll_loc => ll_node repr_loc ll_loc "tl")
                (fun ll_loc n => ll_node repr_loc ll_loc "tl" = Ok n) ll_locs)
      as (nodes & Hmap & HF).
    { eapply Forall_impl; [exact Hnodes|]. intros loc [n Hn]. eauto. }
    rewrite foldl_app. simpl. rewrite Hd. rewrite bind_Ok, Hk, bind_Ok, Hlocs, bind_Ok.
    rewrite Hmap, bind_Ok.
    destruct (set_of_spec nodes) as [Hsnd Hsin].
    eexists. split; [reflexivity|]. split; [split|split].
    + apply setitem_NoDup, Hnd.
    + apply Forall_forall. intros kv Hin. apply setitem_elem in Hin as [->|Hin].
      * exact Hsnd.
      * rewrite Forall_forall in Hsets. apply Hsets, Hin.
    + intros k' v Hin. apply setitem_elem in Hin as [Heq|Hin].
      * injection Heq as -> ->. exists item, ll_locs.
        split; [apply elem_of_app; right; left|]. split; [exact Hk|]. split; [exact Hlocs|].
        intros n. rewrite Hsin. split.
        -- intros Hn. destruct (Forall2_elem_r _ _ _ _ HF Hn) as (loc & Hloc & Hl). eauto.
        -- intros (loc & Hloc & Hl).
           destruct (Forall2_elem_l _ _ _ _ HF Hloc) as (n' & Hn' & Hl').
           congruence.
      * destruct (Hval k' v Hin) as (it & locs & Hit & Hrest).
        exists it, locs. split; [apply elem_of_app; left; exact Hit|exact Hrest].
    + intros it Hin. apply elem_of_app in Hin as [Hin|Hin].
      * destruct (Hcov it Hin) as (k' & Hk' & Hh). exists k'.
        split; [apply setitem_keys_mono, Hk'|exact Hh].
      * apply list_elem_of_singleton in Hin. subst it.
        exists k. split; [apply setitem_key|exact Hk].
Qed.

(** X5.  With a map of realizations in which every basis direction is realised,
    [make_hl_ll_corr] returns a dictionary of sets: every key is the node of
    a basis direction and its set holds exactly the low-level nodes of the
    locations that the map gives for that direction; every basis direction
    has its node among the keys. *)
Theorem make_hl_ll_corr_realizations
    (tracr_hl_corr : list (@BasisDirection V * location))
    (ll_corr : list (string * V * list location)) (style : string) :
  Forall (realised repr_loc ll_corr style) tracr_hl_corr ->
  exists d,
    make_hl_ll_corr repr_loc tracr_hl_corr (Some ll_corr) style = Ok d /\ is_dict d /\
    (forall k v, (k, v) ∈ d ->
       exists item ll_locs, item ∈ tracr_hl_corr /\
         hl_node repr_loc item.1 item.2 style = Ok k /\
         ll_realizations ll_corr (bd_name item.1) (bd_value item.1) = Ok ll_locs /\
         forall n, n ∈ v <-> exists ll_loc, ll_loc ∈ ll_locs /\
                                       ll_node repr_loc ll_loc "tl" = Ok n) /\
    (forall item, item ∈ tracr_hl_corr ->
       exists k, k ∈ keys d /\ hl_node repr_loc item.1 item.2 style = Ok k).
Proof.
  intros Hall.
  destruct (make_hl_ll_corr_fold tracr_hl_corr ll_corr style _ eq_refl Hall)
    as (d & Hd & Hdict & Hval & Hcov).
  exists d. unfold make_hl_ll_corr. rewrite Hd, bind_Ok, (cls_dict d (proj1 Hdict)).
  auto.
Qed.

Lemma ll_realizations_missing (ll_corr : list (string * V * list location)) name value :
  Forall (fun entry => entry.1 <> (name, value)) ll_corr ->
  ll_realizations ll_corr name value = Raise (KeyError name).
Proof.
  induction 1 as [|[[n v] locs] rest Hne _ IH]; simpl; [reflexivity|].
  rewrite decide_False; [exact IH|]. intros [-> ->]. apply Hne. reflexivity.
Qed.

(** X6.  A basis direction without an entry in the map of realizations makes
    [make_hl_ll_corr] raise a [KeyError], when the directions before it are
    realised and its own node can be built. *)
Theorem make_hl_ll_corr_missing_realization
    (before after : list (@BasisDirection V * location))
    (item : @BasisDirection V * location)
    (ll_corr : list (string * V * list location)) (style : string) :
  Forall (realised repr_loc ll_corr style) before ->
  (exists k, hl_node repr_loc item.1 item.2 style = Ok k) ->
  Forall (fun entry => entry.1 <> (bd_name item.1, bd_value item.1)) ll_corr ->
  make_hl_ll_corr repr_loc (before ++ item :: after) (Some ll_corr) style
  = Raise (KeyError (bd_name item.1)).
Proof.
  intros Hbefore [k Hk] Hmiss. unfold make_hl_ll_corr.
  match goal with |- context [foldl ?f (Ok []) _] => set (step := f) end.
  destruct (make_hl_ll_corr_fold before ll_corr style step eq_refl Hbefore)
    as (d & Hd & _).
  rewrite foldl_app, Hd.
  change (foldl step (Ok d) (item :: after)) with (foldl step (step (Ok d) item) after).
  replace (step (Ok d) item) with (Raise (KeyError (bd_name item.1)) : result TracrCorrespondence).
  - rewrite foldl_absorbs; [reflexivity|]. intros b. reflexivity.
  - unfold step. rewrite bind_Ok, Hk, bind_Ok, (ll_realizations_missing _ _ _ Hmiss).
    reflexivity.
Qed.

End MakeCorrFacts.

Lemma make_hl_ll_corr_identity_witness :
  exists d,
    make_hl_ll_corr (fun _ => "")
      [(mkBasis "tokens" 1, (0%Z, "attn", UnitInt 0)); (mkBasis "ones" 1, (0%Z, "mlp", UnitNone))]
      None "tl" = Ok d /\
    is_dict d /\ length d = 2.
Proof.
  destruct (make_hl_ll_corr_identity (fun _ => "")
      [(mkBasis "tokens" 1, (0%Z, "attn", UnitInt 0)); (mkBasis "ones" 1, (0%Z, "mlp", UnitNone))]
      "tl") as (d & He & Hd & _).
  - repeat constructor; eexists; vm_compute; reflexivity.
  - exists d. split; [exact He|]. split; [exact Hd|].
    vm_compute in He. injection He as <-. reflexivity.
Defined.

Lemma make_hl_ll_corr_realizations_witness :
  exists d,
    make_hl_ll_corr (fun _ => "")
      [(mkBasis "tokens" 1, (0%Z, "attn", UnitInt 0))]
      (Some [(("tokens", 1), [(0%Z, "attn", UnitInt 0); (0%Z, "attn", UnitInt 1)])])
      "tl" = Ok d /\ is_dict d.
Proof.
  destruct (make_hl_ll_corr_realizations (fun _ => "")
      [(mkBasis "tokens" 1, (0%Z, "attn", UnitInt 0))]
      [(("tokens", 1), [(0%Z, "attn", UnitInt 0); (0%Z, "attn", UnitInt 1)])]
      "tl") as (d & He & Hd & _).
  - repeat constructor.
    + eexists. vm_compute. reflexivity.
    + eexists. split; [vm_compute; reflexivity|].
      repeat constructor; eexists; vm_compute; reflexivity.
  - exists d. split; [exact He|exact Hd].
Defined.

Lemma make_hl_ll_corr_missing_realization_witness :
  make_hl_ll_corr (fun _ => "")
    ([] ++ (mkBasis "tokens" 1, (0%Z, "attn", UnitInt 0)) :: [])
    (Some [(("ones", 1), [(0%Z, "mlp", UnitNone)])]) "tl"
  = Raise (KeyError "tokens").
Proof.
  apply (make_hl_ll_corr_missing_realization (fun _ => "") [] []
           (mkBasis "tokens" 1, (0%Z, "attn", UnitInt 0))
           [(("ones", 1), [(0%Z, "mlp", UnitNone)])] "tl").
  - constructor.
  - eexists. vm_compute. reflexivity.
  - repeat constructor. simpl. discriminate.
Defined.

(** ** Patches of the intervention engine *)

Import Torch IIA.

Lemma head_position (bi pi hi j p nh inner : nat) :
  hi < nh -> j < inner ->
  let i := ((bi * p + pi) * nh + hi) * inner + j in
  (i / inner) mod nh = hi /\ i / (nh * inner) = bi * p + pi /\ i mod inner = j.
Proof.
  intros Hhi Hj i. subst i.
  assert (Hq : (((bi * p + pi) * nh + hi) * inner + j) / inner = (bi * p + pi) * nh + hi).
  { symmetry. apply (Nat.div_unique _ _ _ j); [exact Hj|]. ring. }
  split; [|split].
  - rewrite Hq. symmetry. apply (Nat.mod_unique _ _ (bi * p + pi)); [exact Hhi|]. ring.
  - symmetry. apply (Nat.div_unique _ _ _ (hi * inner + j)); [nia|]. ring.
  - symmetry. apply (Nat.mod_unique _ _ ((bi * p + pi) * nh + hi)); [exact Hj|]. ring.
Qed.

Lemma radix_lt (a A x X : nat) : a < A -> x < X -> a * X + x < A * X.
Proof.
  intros Ha Hx. apply Nat.lt_le_trans with (S a * X); [simpl; lia|].
  apply Nat.mul_le_mono_r. lia.
Qed.

Lemma position_in_range (bi pi hi j b p nh inner : nat) :
  bi < b -> pi < p -> hi < nh -> j < inner ->
  ((bi * p + pi) * nh + hi) * inner + j < b * (p * (nh * inner)).
Proof.
  intros Hb Hp Hh Hj.
  replace (b * (p * (nh * inner))) with (b * p * nh * inner) by ring.
  apply radix_lt; [|exact Hj]. apply radix_lt; [|exact Hh]. apply radix_lt; assumption.
Qed.

(** [act[:, :, h] = src[:, :, h]] on tensors of one shape: the entries of
    head [h] are those of [src], the others are kept. *)
Lemma assign_head_spec (act src : tensor) (h b p nh : nat) (rest : list nat) :
  shape act = b :: p :: nh :: rest -> shape src = b :: p :: nh :: rest ->
  h < nh -> well_shaped act ->
  exists out,
    assign_head act src h = Ok out /\
    shape out = shape act /\ well_shaped out /\
    forall bi pi hi j, bi < b -> pi < p -> hi < nh -> j < numel rest ->
      let i := ((bi * p + pi) * nh + hi) * numel rest + j in
      nth i (Torch.data out) 0%Q
      = if hi =? h then nth i (Torch.data src) 0%Q else nth i (Torch.data act) 0%Q.
Proof.
  intros Ha Hs Hh Hw. destruct act as [sa da], src as [ss ds].
  unfold well_shaped in *. simpl in Ha, Hs, Hw. subst sa ss.
  unfold assign_head. simpl shape. cbv iota beta.
  apply Nat.ltb_lt in Hh. rewrite Hh. simpl andb. cbv iota. rewrite decide_True by reflexivity.
  eexists. split; [reflexivity|]. simpl shape. simpl Torch.data.
  split; [reflexivity|]. split.
  - rewrite length_imap. exact Hw.
  - intros bi pi hi j Hbi Hpi Hhi Hj.
    destruct (head_position bi pi hi j p nh (numel rest) Hhi Hj) as (H1 & H2 & H3).
    cbv zeta in H1, H2, H3 |- *.
    set (i := ((bi * p + pi) * nh + hi) * numel rest + j) in *.
    assert (Hi : i < length da).
    { rewrite Hw. apply position_in_range; assumption. }
    destruct (lookup_lt_is_Some_2 _ _ Hi) as [x Hx].
    rewrite (nth_lookup (imap _ _)), list_lookup_imap, Hx. simpl.
    rewrite H1, H2, H3.
    destruct (hi =? h) eqn:He.
    + apply Nat.eqb_eq in He. rewrite <- He. reflexivity.
    + rewrite (nth_lookup da), Hx. reflexivity.
Qed.

Section Patches.

Implicit Types (cache : gmap string tensor) (hook_name : string).

(** X7.  With a head index the hook overwrites, in the activation it is given,
    the slice of that head with the slice of the patch, and nothing else:
    the shape is kept, the entries of the head are those of the patch and
    every other entry is the one of the activation. *)
Theorem head_patch_replaces_one_head
    (activation src : tensor) hook_name cache (h b p nh : nat) (rest : list nat) :
  cache !! hook_name = Some src ->
  shape activation = b :: p :: nh :: rest -> shape src = b :: p :: nh :: rest ->
  h < nh -> well_shaped activation ->
  exists out,
    regular_intervention_hook_fn activation hook_name cache (Some h) = Ok out /\
    shape out = shape activation /\ well_shaped out /\
    forall bi pi hi j, bi < b -> pi < p -> hi < nh -> j < numel rest ->
      let i := ((bi * p + pi) * nh + hi) * numel rest + j in
      nth i (Torch.data out) 0%Q
      = if hi =? h then nth i (Torch.data src) 0%Q
        else nth i (Torch.data activation) 0%Q.
Proof.
  intros Hc Ha Hs Hh Hw. unfold regular_intervention_hook_fn.
  rewrite (cache_get_Some _ _ _ Hc), bind_Ok.
  exact (assign_head_spec activation src h b p nh rest Ha Hs Hh Hw).
Qed.

Lemma nth_zeros n i : nth i (replicate n 0%Q) 0%Q = 0%Q.
Proof.
  rewrite nth_lookup. destruct (replicate n 0%Q !! i) as [x|] eqn:Hx; [|reflexivity].
  apply lookup_replicate in Hx as [-> _]. reflexivity.
Qed.

Lemma lookup_patch (patch : tensor) hook_name other :
  other <> hook_name ->
  cache_get (<[hook_name := patch]> (∅ : gmap string tensor)) other = Raise (KeyError other).
Proof.
  intros Hne. unfold cache_get.
  rewrite lookup_insert_ne by congruence. rewrite lookup_empty. reflexivity.
Qed.

(** X8.  Resample ablation: each network is patched with its own corrupted
    activation at the hook, whatever the activation it computed; the patch
    functions hold no other hook, so at any other one they raise
    [KeyError]. *)
Theorem resample_patch_is_corrupted_activation
    hook_name (bc hc bk hk : gmap string tensor) (tb th : tensor) :
  bk !! hook_name = Some tb -> hk !! hook_name = Some th ->
  exists fb fh,
    build_hook_fns hook_name None bc hc bk hk "resample" = Ok (fb, fh) /\
    forall activation,
      call_hook fb activation hook_name = Ok tb /\
      call_hook fh activation hook_name = Ok th /\
      forall other, other <> hook_name ->
        call_hook fb activation other = Raise (KeyError other) /\
        call_hook fh activation other = Raise (KeyError other).
Proof.
  intros Hb Hh. unfold build_hook_fns.
  change (String.eqb "resample" "resample") with true. cbv iota.
  rewrite (cache_get_Some _ _ _ Hb), bind_Ok, (cache_get_Some _ _ _ Hh), !bind_Ok.
  eexists _, _. split; [reflexivity|]. intros activation.
  unfold call_hook, regular_intervention_hook_fn. cbn [corrupted_cache head_index fst snd].
  unfold cache_get at 1 2. rewrite !lookup_insert_eq.
  split; [reflexivity|]. split; [reflexivity|].
  intros other Hne. split; apply lookup_patch, Hne.
Qed.

(** X9.  Zero ablation with a head index: the patched activation of the base
    network keeps the shape of the activation, is zero on the slice of that
    head and equal to the activation everywhere else. *)
Theorem zero_ablation_zeroes_one_head
    hook_name (bc hc bk hk : gmap string tensor) (cb ch activation : tensor)
    (h b p nh : nat) (rest : list nat) :
  bc !! hook_name = Some cb -> hc !! hook_name = Some ch ->
  shape cb = b :: p :: nh :: rest -> shape activation = b :: p :: nh :: rest ->
  h < nh -> well_shaped activation ->
  exists fb fh out,
    build_hook_fns hook_name (Some h) bc hc bk hk "zero" = Ok (fb, fh) /\
    call_hook fb activation hook_name = Ok out /\
    shape out = shape activation /\ well_shaped out /\
    forall bi pi hi j, bi < b -> pi < p -> hi < nh -> j < numel rest ->
      let i := ((bi * p + pi) * nh + hi) * numel rest + j in
      nth i (Torch.data out) 0%Q
      = if hi =? h then 0%Q else nth i (Torch.data activation) 0%Q.
Proof.
  intros Hb Hh Hcb Hact Hlt Hw. unfold build_hook_fns.
  change (String.eqb "zero" "resample") with false.
  change (String.eqb "zero" "mean") with false.
  change (String.eqb "zero" "zero") with true. cbv iota.
  rewrite (cache_get_Some _ _ _ Hb), bind_Ok, (cache_get_Some _ _ _ Hh), !bind_Ok.
  cbn [fst snd].
  destruct (assign_head_spec activation (zeros_like cb) h b p nh rest Hact Hcb Hlt Hw)
    as (out & Hout & Hshape & Hwell & Hentries).
  eexists _, _, out. split; [reflexivity|].
  unfold call_hook, regular_intervention_hook_fn. cbn [corrupted_cache head_index].
  unfold cache_get. rewrite lookup_insert_eq, bind_Ok.
  split; [exact Hout|]. split; [exact Hshape|]. split; [exact Hwell|].
  intros bi pi hi j Hbi Hpi Hhi Hj. cbv zeta.
  rewrite (Hentries bi pi hi j Hbi Hpi Hhi Hj).
  destruct (hi =? h); [|reflexivity]. apply nth_zeros.
Qed.

(** X10.  A hook that is missing from one of the caches the ablation type reads
    (the corrupted ones for resample, the clean ones for mean and zero)
    makes [build_hook_fns] raise [KeyError] with the name of the hook. *)
Theorem build_hook_fns_missing_hook
    hook_name (head_index : option nat) (bc hc bk hk : gmap string tensor) (a : string) :
  supported a ->
  (if String.eqb a "resample"
   then bk !! hook_name = None \/ hk !! hook_name = None
   else bc !! hook_name = None \/ hc !! hook_name = None) ->
  build_hook_fns hook_name head_index bc hc bk hk a = Raise (KeyError hook_name).
Proof.
  intros Ha Hmiss. unfold build_hook_fns.
  assert (Hget : forall (c c' : gmap string tensor) {A} (k : tensor -> tensor -> result A),
             c !! hook_name = None \/ c' !! hook_name = None ->
             (x ← cache_get c hook_name; y ← cache_get c' hook_name; k x y)
             = Raise (KeyError hook_name)).
  { intros c c' A k [Hc|Hc]; unfold cache_get.
    - rewrite Hc. reflexivity.
    - rewrite Hc. destruct (c !! hook_name); reflexivity. }
  destruct Ha as [-> | [-> | ->]]; simpl String.eqb in *; cbv iota in *.
  - rewrite (Hget bc hc); [reflexivity|exact Hmiss].
  - rewrite (Hget bc hc); [reflexivity|exact Hmiss].
  - rewrite (Hget bk hk); [reflexivity|exact Hmiss].
Qed.

End Patches.

Lemma head_patch_replaces_one_head_witness :
  exists out,
    regular_intervention_hook_fn
      (mkTensor [1; 1; 2; 1] [1; 2]%Q) "blocks.0.attn.hook_result"
      (<["blocks.0.attn.hook_result" := mkTensor [1; 1; 2; 1] [7; 8]%Q]> ∅) (Some 1)
    = Ok out /\ shape out = [1; 1; 2; 1].
Proof.
  destruct (head_patch_replaces_one_head
              (mkTensor [1; 1; 2; 1] [1; 2]%Q) (mkTensor [1; 1; 2; 1] [7; 8]%Q)
              "blocks.0.attn.hook_result"
              (<["blocks.0.attn.hook_result" := mkTensor [1; 1; 2; 1] [7; 8]%Q]> ∅)
              1 1 1 2 [1])
    as (out & He & Hs & _).
  - reflexivity.
  - reflexivity.
  - reflexivity.
  - lia.
  - reflexivity.
  - exists out. split; [exact He|exact Hs].
Defined.

Lemma resample_patch_is_corrupted_activation_witness :
  exists fb fh,
    build_hook_fns "hook_embed" None ∅ ∅
      (<["hook_embed" := example_activation]> ∅)
      (<["hook_embed" := zeros_like example_activation]> ∅) "resample" = Ok (fb, fh) /\
    call_hook fb (zeros_like example_activation) "hook_embed" = Ok example_activation.
Proof.
  destruct (resample_patch_is_corrupted_activation "hook_embed" ∅ ∅
              (<["hook_embed" := example_activation]> ∅)
              (<["hook_embed" := zeros_like example_activation]> ∅)
              example_activation (zeros_like example_activation))
    as (fb & fh & He & Hcall).
  - reflexivity.
  - reflexivity.
  - exists fb, fh. split; [exact He|]. apply (Hcall (zeros_like example_activation)).
Defined.

Lemma zero_ablation_zeroes_one_head_witness :
  exists fb fh out,
    build_hook_fns "blocks.0.attn.hook_result" (Some 0)
      (<["blocks.0.attn.hook_result" := mkTensor [1; 1; 2; 1] [7; 8]%Q]> ∅)
      (<["blocks.0.attn.hook_result" := mkTensor [1; 1; 2; 1] [5; 6]%Q]> ∅)
      ∅ ∅ "zero" = Ok (fb, fh) /\
    call_hook fb (mkTensor [1; 1; 2; 1] [1; 2]%Q) "blocks.0.attn.hook_result" = Ok out /\
    shape out = [1; 1; 2; 1].
Proof.
  destruct (zero_ablation_zeroes_one_head "blocks.0.attn.hook_result"
              (<["blocks.0.attn.hook_result" := mkTensor [1; 1; 2; 1] [7; 8]%Q]> ∅)
              (<["blocks.0.attn.hook_result" := mkTensor [1; 1; 2; 1] [5; 6]%Q]> ∅)
              ∅ ∅ (mkTensor [1; 1; 2; 1] [7; 8]%Q) (mkTensor [1; 1; 2; 1] [5; 6]%Q)
              (mkTensor [1; 1; 2; 1] [1; 2]%Q) 0 1 1 2 [1])
    as (fb & fh & out & He & Hcall & Hs & _).
  - reflexivity.
  - reflexivity.
  - reflexivity.
  - reflexivity.
  - lia.
  - reflexivity.
  - exists fb, fh, out. split; [exact He|]. split; [exact Hcall|exact Hs].
Defined.

Lemma build_hook_fns_missing_hook_witness :
  build_hook_fns "hook_embed" None ∅ (<["hook_embed" := example_activation]> ∅) ∅ ∅ "mean"
  = Raise (KeyError "hook_embed").
Proof.
  apply (build_hook_fns_missing_hook "hook_embed" None ∅
           (<["hook_embed" := example_activation]> ∅) ∅ ∅ "mean").
  - right. left. reflexivity.
  - left. reflexivity.
Defined.

(** ** The rows of the evaluator *)

Lemma close_entries_refl {F} (isclose : F -> F -> bool) (l : list (list (list F))) :
  (forall x, isclose x x = true) ->
  Forall (fun b => b = true) (close_entries isclose l l).
Proof.
  intros Hrefl. unfold close_entries.
  apply Forall_concat, Forall_concat.
  induction l as [|m l IH]; simpl; [constructor|].
  constructor; [|exact IH]. clear IH.
  induction m as [|r m IH]; simpl; constructor; [|exact IH].
  clear IH. induction r as [|x r IH]; simpl; constructor; [apply Hrefl|exact IH].
Qed.

Lemma close_entries_nonempty {F} (isclose : F -> F -> bool) (l : list (list (list F))) :
  Exists (Exists (fun row => row <> [])) l -> close_entries isclose l l <> [].
Proof.
  unfold close_entries. induction 1 as [m l Hm|m l _ IH]; simpl.
  - rewrite concat_app. intros Happ. apply app_eq_nil in Happ as [Happ _]. revert Happ.
    clear -Hm. induction Hm as [r m Hr|r m _ IH]; simpl.
    + destruct r as [|x r]; [contradiction|]. discriminate.
    + intros Happ. apply app_eq_nil in Happ as [_ Happ]. exact (IH Happ).
  - rewrite concat_app. intros Happ. apply app_eq_nil in Happ as [_ Happ]. exact (IH Happ).
Qed.

Section Rows.

Context {F K model dataset inputs : Type}.
Variable forward : model -> list (string * hook_fn) -> inputs -> result (list (list (list F))).
Variable is_categorical : model -> bool.
Variable get_inputs : dataset -> inputs.
Variable outputs_differ : dataset -> dataset -> list bool.
Variable ltb : F -> F -> bool.
Variable log_softmax : list F -> list F.
Variable kl_div : list (list (list F)) -> list (list (list F)) -> K.
Variable isclose : F -> F -> bool.
Variable mean_abs_diff : list (list (list F)) -> list (list (list F)) -> K.

#[local] Abbreviation evaluate_node :=
  (evaluate_node forward is_categorical get_inputs outputs_differ ltb log_softmax
                 kl_div isclose mean_abs_diff).
#[local] Abbreviation evaluate_iia :=
  (evaluate_iia forward is_categorical get_inputs outputs_differ ltb log_softmax
                kl_div isclose mean_abs_diff).

(** X11.  A network whose output is not categorical, compared with itself under
    any ablation for which the patch can be built: when [isclose] holds of
    every number and itself and the logits have an entry beyond the BOS
    position, the accuracy is 1 and the two effects are the same value. *)
Theorem identical_networks_continuous
    (m : model) (clean corrupted : dataset)
    (corrupted_cache clean_cache : gmap string tensor) (a : string)
    (node : CircuitNode) (fns : hook_fn * hook_fn) (orig int : list (list (list F))) :
  is_categorical m = false ->
  (forall x, isclose x x = true) ->
  forward m [] (get_inputs clean) = Ok orig ->
  build_hook_fns (name node) (index node) clean_cache clean_cache
                 corrupted_cache corrupted_cache a = Ok fns ->
  forward m [(name node, fns.1)] (get_inputs clean) = Ok int ->
  forward m [(name node, fns.2)] (get_inputs clean) = Ok int ->
  Exists (Exists (fun row => row <> [])) (remove_bos int) ->
  exists acc effect,
    evaluate_node m m clean corrupted corrupted_cache corrupted_cache
                  clean_cache clean_cache a node
      = Ok (Continuous (Finite acc) effect effect)
    /\ (acc == 1)%Q
    /\ effect = mean_abs_diff (remove_bos orig) (remove_bos int).
Proof.
  intros Hcat Hrefl Horig Hfns Hint1 Hint2 Hentry.
  destruct (mean_bool_all_true (close_entries isclose (remove_bos int) (remove_bos int)))
    as (acc & Hacc & Hone).
  { apply close_entries_nonempty, Hentry. }
  { apply close_entries_refl, Hrefl. }
  exists acc, (mean_abs_diff (remove_bos orig) (remove_bos int)).
  split; [|split; [exact Hone|reflexivity]].
  unfold IIA.evaluate_node.
  rewrite Horig, !bind_Ok, Hfns, bind_Ok, Hint1, bind_Ok, Hint2, bind_Ok, Hcat.
  rewrite Hacc. reflexivity.
Qed.

(** The nodes that [evaluate_iia] does not skip. *)
#[local] Abbreviation eligible iia_granularity node :=
  (contains (name node) "mlp_in" = false /\
   (iia_granularity = "qkv" \/ is_qkv_granularity_hook (name node) = false)).

Lemma evaluate_iia_rows
    (str : CircuitNode -> string) (all_nodes : list CircuitNode)
    (base hyp : model) (clean corrupted : dataset)
    (bk hk bc hc : gmap string tensor) (iia_granularity a : string)
    (results : gmap string (node_result K)) :
  evaluate_iia str all_nodes base hyp clean corrupted bk hk bc hc iia_granularity a
    = Ok results ->
  (forall s r, results !! s = Some r ->
     exists node, node ∈ all_nodes /\ str node = s /\ eligible iia_granularity node /\
                  evaluate_node base hyp clean corrupted bk hk bc hc a node = Ok r) /\
  (forall node, node ∈ all_nodes -> eligible iia_granularity node ->
     is_Some (results !! str node)).
Proof.
  unfold IIA.evaluate_iia. revert results.
  induction all_nodes as [|x l IH] using rev_ind; intros results Hres.
  - simpl in Hres. injection Hres as <-. split.
    + intros s r Hs. rewrite lookup_empty in Hs. discriminate.
    + intros node Hin. inversion Hin.
  - rewrite foldl_app in Hres. simpl in Hres.
    match type of Hres with (?acc ≫= _) = _ => destruct acc as [res|e] eqn:Hacc end;
      [|discriminate].
    rewrite bind_Ok in Hres. destruct (IH res eq_refl) as [IH1 IH2].
    assert (Hold : forall s r, res !! s = Some r ->
              exists node, node ∈ l ++ [x] /\ str node = s /\
                           eligible iia_granularity node /\
                           evaluate_node base hyp clean corrupted bk hk bc hc a node = Ok r).
    { intros s r Hs. destruct (IH1 s r Hs) as (node & Hin & Hrest).
      exists node. split; [apply elem_of_app; left; exact Hin|exact Hrest]. }
    destruct (contains (name x) "mlp_in") eqn:Hmlp.
    { injection Hres as <-. split; [exact Hold|].
      intros node Hin [Hel Hq]. apply elem_of_app in Hin as [Hin|Hin].
      - apply IH2; [exact Hin|]. split; [exact Hel|exact Hq].
      - apply list_elem_of_singleton in Hin. subst node. congruence. }
    destruct (negb (String.eqb iia_granularity "qkv")
              && is_qkv_granularity_hook (name x)) eqn:Hqkv.
    { injection Hres as <-. split; [exact Hold|].
      intros node Hin Hel. apply elem_of_app in Hin as [Hin|Hin].
      - apply IH2; assumption.
      - apply list_elem_of_singleton in Hin. subst node.
        apply andb_true_iff in Hqkv as [Hg Hq]. apply negb_true_iff in Hg.
        destruct Hel as [_ [Hel|Hel]]; [|congruence].
        subst iia_granularity. discriminate Hg. }
    assert (Hx : eligible iia_granularity x).
    { split; [exact Hmlp|]. apply andb_false_iff in Hqkv as [Hg|Hq]; [left|right; exact Hq].
      apply negb_false_iff in Hg. apply String.eqb_eq in Hg. exact Hg. }
    match type of Hres with (?ev ≫= _) = _ => destruct ev as [r0|e] eqn:Hev end;
      [|discriminate].
    rewrite bind_Ok in Hres. injection Hres as <-. split.
    + intros s r Hs. destruct (decide (str x = s)) as [Heq|Hne].
      * subst s. rewrite lookup_insert_eq in Hs. injection Hs as <-.
        exists x. split; [apply elem_of_app; right; left|]. auto.
      * rewrite lookup_insert_ne in Hs by exact Hne. apply Hold, Hs.
    + intros node Hin Hel. destruct (decide (str x = str node)) as [Heq|Hne].
      * rewrite <- Heq, lookup_insert_eq. eauto.
      * rewrite lookup_insert_ne by exact Hne.
        apply elem_of_app in Hin as [Hin|Hin]; [apply IH2; assumption|].
        apply list_elem_of_singleton in Hin. subst node. contradiction.
Qed.

(** X12.  When [evaluate_iia] returns, its rows are those of the nodes it does not
    skip: every key is [str] of a node of the circuit whose hook name does
    not contain [mlp_in] and which is no query, key or value hook unless the
    granularity is [qkv], and its row is what the evaluation of such a node
    gives; every such node has a row. *)
Theorem evaluate_iia_keys
    (str : CircuitNode -> string) (all_nodes : list CircuitNode)
    (base hyp : model) (clean corrupted : dataset)
    (bk hk bc hc : gmap string tensor) (iia_granularity a : string)
    (results : gmap string (node_result K)) :
  evaluate_iia str all_nodes base hyp clean corrupted bk hk bc hc iia_granularity a
    = Ok results ->
  (forall s r, results !! s = Some r ->
     exists node, node ∈ all_nodes /\ str node = s /\
       contains (name node) "mlp_in" = false /\
       (iia_granularity = "qkv" \/ is_qkv_granularity_hook (name node) = false) /\
       evaluate_node base hyp clean corrupted bk hk bc hc a node = Ok r) /\
  (forall node, node ∈ all_nodes ->
     contains (name node) "mlp_in" = false ->
     iia_granularity = "qkv" \/ is_qkv_granularity_hook (name node) = false ->
     is_Some (results !! str node)).
Proof.
  intros Hres. destruct (evaluate_iia_rows _ _ _ _ _ _ _ _ _ _ _ _ _ Hres) as [H1 H2].
  split.
  - intros s r Hs. destruct (H1 s r Hs) as (node & Hin & Hstr & [Hm Hq] & Hev).
    exists node. auto.
  - intros node Hin Hm Hq. apply H2; [exact Hin|]. split; assumption.
Qed.

End Rows.

Lemma identical_networks_continuous_witness :
  exists acc effect,
    IIA.evaluate_node (example_forward 0%Z 1%Z) (fun _ => false) fst
        example_outputs_differ Z.ltb (fun row => row) (fun _ _ => tt) Z.eqb (fun _ _ => tt)
        tt tt example_clean example_corrupted ∅ ∅
        (<["hook_embed" := example_activation]> ∅)
        (<["hook_embed" := example_activation]> ∅)
        "zero" (mkNode "hook_embed" None)
      = Ok (Continuous (Finite acc) effect effect)
    /\ (acc == 1)%Q.
Proof.
  destruct (identical_networks_continuous
              (example_forward 0%Z 1%Z) (fun _ => false) fst
              example_outputs_differ Z.ltb (fun row => row) (fun _ _ => tt) Z.eqb
              (fun _ _ => tt)
              tt example_clean example_corrupted ∅
              (<["hook_embed" := example_activation]> ∅) "zero"
              (mkNode "hook_embed" None)
              (mkHook (<["hook_embed" := zeros_like example_activation]> ∅) None,
               mkHook (<["hook_embed" := zeros_like example_activation]> ∅) None)
              [[[0; 1]; [1; 0]]; [[0; 1]; [0; 1]]]%Z
              [[[0; 0]; [0; 0]]; [[0; 0]; [0; 0]]]%Z)
    as (acc & effect & He & Hacc & _).
  - reflexivity.
  - apply Z.eqb_refl.
  - reflexivity.
  - reflexivity.
  - reflexivity.
  - reflexivity.
  - constructor. constructor. discriminate.
  - exists acc, effect. split; [exact He|exact Hacc].
Defined.

Lemma evaluate_iia_keys_witness :
  exists results,
    IIA.evaluate_iia (example_forward 0%Z 1%Z) (fun _ => true) fst
        example_outputs_differ Z.ltb (fun row => row) (fun _ _ => tt) Z.eqb (fun _ _ => tt)
        name [mkNode "hook_embed" None; mkNode "blocks.0.hook_mlp_in" None;
              mkNode "blocks.0.attn.hook_q" (Some 0)]
        tt tt example_clean example_corrupted ∅ ∅
        (<["hook_embed" := example_activation]> ∅)
        (<["hook_embed" := example_activation]> ∅)
        "head" "zero" = Ok results /\
    is_Some (results !! "hook_embed").
Proof.
  destruct (IIA.evaluate_iia (example_forward 0%Z 1%Z) (fun _ => true) fst
        example_outputs_differ Z.ltb (fun row => row) (fun _ _ => tt) Z.eqb (fun _ _ => tt)
        name [mkNode "hook_embed" None; mkNode "blocks.0.hook_mlp_in" None;
              mkNode "blocks.0.attn.hook_q" (Some 0)]
        tt tt example_clean example_corrupted ∅ ∅
        (<["hook_embed" := example_activation]> ∅)
        (<["hook_embed" := example_activation]> ∅)
        "head" "zero") as [results|e] eqn:He; [|vm_compute in He; discriminate He].
  exists results. split; [reflexivity|].
  apply (proj2 (evaluate_iia_keys _ _ _ _ _ _ _ _ _ _ _ _ _ _ _ _ _ _ _ _ _ _ He)
           (mkNode "hook_embed" None)).
  - left.
  - reflexivity.
  - right. reflexivity.
Defined.

(** ** Hook filters and the edges of the sampler *)

Import Sampler.

Lemma append_cons (c : ascii) (s t : string) :
  (String c s ++ t)%string = String c (s ++ t)%string.
Proof. reflexivity. Qed.

Lemma append_nil (t : string) : ("" ++ t)%string = t.
Proof. reflexivity. Qed.

Lemma prefix_app (sub s : string) :
  String.prefix sub s = true <-> exists post, s = (sub ++ post)%string.
Proof.
  revert s. induction sub as [|c sub IH]; intros s.
  - split; [intros _; exists s; reflexivity|intros _; destruct s; reflexivity].
  - destruct s as [|c' s]; simpl.
    + split; [discriminate|intros [post Hp]; discriminate Hp].
    + destruct (Ascii.ascii_dec c c') as [->|Hne].
      * rewrite IH. split; intros [post Hp]; exists post;
          rewrite append_cons in *; congruence.
      * split; [discriminate|]. intros [post Hp]. rewrite append_cons in Hp. congruence.
Qed.

(** [sub in s] holds exactly when [s] is [sub] between two strings. *)
Lemma contains_substring (s sub : string) :
  contains s sub = true <-> exists pre post, s = (pre ++ sub ++ post)%string.
Proof.
  induction s as [|c s IH].
  - change (contains "" sub) with (String.prefix sub "" || false).
    rewrite orb_false_r, prefix_app. split.
    + intros [post Hp]. exists "", post. exact Hp.
    + intros (pre & post & Hp). destruct pre; [exists post; exact Hp|].
      rewrite append_cons in Hp. discriminate Hp.
  - change (contains (String c s) sub)
      with (String.prefix sub (String c s) || contains s sub).
    rewrite orb_true_iff, prefix_app, IH. split.
    + intros [[post Hp]|(pre & post & Hp)].
      * exists "", post. exact Hp.
      * exists (String c pre), post. rewrite append_cons, Hp. reflexivity.
    + intros (pre & post & Hp). destruct pre as [|c' pre].
      * left. exists post. exact Hp.
      * right. rewrite append_cons in Hp. injection Hp as _ Hp. exists pre, post. exact Hp.
Qed.

(** X13.  The hooks that are patched are the hooks of the base model, in their
    order, whose name has one of the filters as a substring; without a list
    of filters all of them, with an empty list none. *)
Theorem hook_names_for_patching_substring (base_hooks : list string) :
  hook_names_for_patching base_hooks None = base_hooks /\
  forall filters,
    sublist (hook_names_for_patching base_hooks (Some filters)) base_hooks /\
    forall name,
      name ∈ hook_names_for_patching base_hooks (Some filters) <->
      name ∈ base_hooks /\
      exists f pre post, f ∈ filters /\ name = (pre ++ f ++ post)%string.
Proof.
  unfold hook_names_for_patching. split.
  - simpl. induction base_hooks as [|x l IH]; simpl; [reflexivity|]. f_equal. exact IH.
  - intros filters. split.
    + induction base_hooks as [|x l IH]; simpl; [constructor|].
      destruct (negb _); [apply sublist_skip|apply sublist_cons]; exact IH.
    + intros name. rewrite list_elem_of_In, filter_In, <- list_elem_of_In.
      simpl. rewrite negb_involutive, existsb_exists.
      split; intros [Hin Hex]; (split; [exact Hin|]).
      * destruct Hex as (f & Hf & Hc). apply contains_substring in Hc as (pre & post & Hc).
        exists f, pre, post. split; [apply list_elem_of_In, Hf|exact Hc].
      * destruct Hex as (f & pre & post & Hf & Hc). exists f.
        split; [apply list_elem_of_In, Hf|]. apply contains_substring. eauto.
Qed.

Section SamplerEdges.

Context {InterventionType : Type} {rng : Type} `{PyRandom rng}.
Implicit Types (options tys : list InterventionType).

(** X14.  A hook that is to be patched but is no hook of the hypothesis model
    stops [get_interventions] on its assertion: nothing is yielded and the
    generator of random numbers is left as it was. *)
Theorem get_interventions_missing_hook
    (base_hooks hypothesis_hooks : list string) (hook_filters : option (list string))
    options (max_interventions : nat) (g : rng) (name : string) :
  name ∈ hook_names_for_patching base_hooks hook_filters ->
  name ∉ hypothesis_hooks ->
  get_interventions base_hooks hypothesis_hooks hook_filters options max_interventions g
  = (([], Some (AssertionError
         (Some "All hook names for patching should be present in the hypothesis model."))),
     g).
Proof.
  intros Hin Hout. unfold get_interventions.
  assert (Hall : forallb (fun name => existsb (String.eqb name) hypothesis_hooks)
                   (hook_names_for_patching base_hooks hook_filters) = false).
  { apply not_true_is_false. intros Hall. rewrite forallb_forall in Hall.
    specialize (Hall name (proj1 (list_elem_of_In _ _) Hin)).
    apply existsb_exists in Hall as (x & Hx & He). apply String.eqb_eq in He. subst x.
    apply Hout, list_elem_of_In, Hx. }
  rewrite Hall. reflexivity.
Qed.

Lemma types_of_index_base_below_2 options k index :
  length options < 2 ->
  types_of_index options k index
  = Raise (ValueError "Bases less than 2 not handled in base_repr.").
Proof.
  intros Hm. unfold types_of_index, Np.base_repr.
  change (length Np.digits) with 36.
  destruct (Nat.ltb_spec 36 (length options)); [lia|].
  destruct (Nat.ltb_spec (length options) 2); [|lia]. reflexivity.
Qed.

(** X15.  With fewer than two intervention types [get_interventions] yields
    nothing, whatever the hooks and the budget; when the hooks to patch are
    hooks of the hypothesis model, the budget is positive and there is one
    combination to build, it raises the [ValueError] of [np.base_repr]. *)
Theorem get_interventions_fewer_than_two_options
    (base_hooks hypothesis_hooks : list string) (hook_filters : option (list string))
    options (max_interventions : nat) (g : rng) :
  length options < 2 ->
  (get_interventions base_hooks hypothesis_hooks hook_filters options
                     max_interventions g).1.1 = [] /\
  ((forall name, name ∈ hook_names_for_patching base_hooks hook_filters ->
                 name ∈ hypothesis_hooks) ->
   1 <= max_interventions ->
   length options ^ length (hook_names_for_patching base_hooks hook_filters) = 1 ->
   (get_interventions base_hooks hypothesis_hooks hook_filters options
                      max_interventions g).1.2
   = Some (ValueError "Bases less than 2 not handled in base_repr.")).
Proof.
  intros Hm. unfold get_interventions.
  set (names := hook_names_for_patching base_hooks hook_filters).
  assert (Hgen : forall indices,
            generate (fun index => tys ← types_of_index options (length names) index;
                                   Ok (mkIntervention names tys)) indices
            = ([], match indices with
                   | [] => None
                   | _ => Some (ValueError "Bases less than 2 not handled in base_repr.")
                   end)).
  { intros [|i indices]; [reflexivity|]. simpl.
    rewrite types_of_index_base_below_2 by exact Hm. reflexivity. }
  split.
  - destruct (negb _); [reflexivity|].
    destruct (_ && _); [reflexivity|].
    destruct (max_interventions <? length options ^ length names).
    + destruct (random_sample g _ max_interventions) as [indices g'].
      simpl. rewrite Hgen. reflexivity.
    + simpl. rewrite Hgen. reflexivity.
  - intros Hpresent Hmax Htotal.
    rewrite (names_present names hypothesis_hooks Hpresent). simpl negb. cbv iota.
    rewrite Htotal. destruct (Nat.ltb_spec max_interventions 1); [lia|].
    simpl. rewrite types_of_index_base_below_2 by exact Hm. reflexivity.
Qed.

(** X16.  When no hook is to be patched (no hook of the base model passes the
    filters) and there are between two and thirty-six types, there is one
    combination, and the body of the loop reads its index 0 as one digit:
    the list of intervention types that it computes for the constructor of
    the intervention has one member, the first type, for no hook name. *)
Theorem get_interventions_no_hook
    (base_hooks : list string) (hook_filters : option (list string))
    options (o0 : InterventionType) :
  let names := hook_names_for_patching base_hooks hook_filters in
  names = [] ->
  2 <= length options <= 36 -> options !! 0 = Some o0 ->
  seq 0 (length options ^ length names) = [0] /\
  types_of_index options (length names) 0 = Ok [o0].
Proof.
  intros names Hnames [Hm2 Hm36] Ho. rewrite Hnames. split; [reflexivity|].
  unfold types_of_index, Np.base_repr. change (length Np.digits) with 36.
  destruct (Nat.ltb_spec 36 (length options)); [lia|].
  destruct (Nat.ltb_spec (length options) 2); [lia|].
  simpl. rewrite Ho. reflexivity.
Qed.

Lemma lsb_digits_one_digit m k i :
  i < m -> 1 <= k -> rev (lsb_digits m k i) = replicate (k - 1) 0 ++ [i].
Proof.
  intros Hi Hk.
  rewrite (lsb_digits_small m 1 ltac:(lia) k i Hk) by (simpl; lia).
  simpl lsb_digits. rewrite Nat.mod_small by exact Hi.
  rewrite rev_app_distr, rev_replicate. reflexivity.
Qed.

Lemma mapM_padded {A} (f : ascii -> result A) (o0 : A) (n d : nat) :
  f (dchar 0) = Ok o0 ->
  mapM f (map dchar (replicate n 0 ++ [d]))
  = (o ← f (dchar d); Ok (replicate n o0 ++ [o])).
Proof.
  intros H0. induction n as [|n IH].
  - simpl replicate. simpl app. simpl map. rewrite mapM_result_cons.
    destruct (f (dchar d)); reflexivity.
  - simpl replicate. rewrite <- app_comm_cons, map_cons, mapM_result_cons, H0, bind_Ok, IH.
    destruct (f (dchar d)); reflexivity.
Qed.

Lemma generate_app {A B} (f : A -> result B) (xs xs' : list A) (ys : list B) :
  generate f xs = (ys, None) ->
  generate f (xs ++ xs') = (ys ++ (generate f xs').1, (generate f xs').2).
Proof.
  revert ys. induction xs as [|x xs IH]; intros ys Hg; simpl in Hg.
  - injection Hg as <-. simpl. destruct (generate f xs'); reflexivity.
  - simpl. destruct (f x) as [y|e]; [|discriminate Hg].
    destruct (generate f xs) as [zs e] eqn:Hzs. injection Hg as <- ->.
    rewrite (IH zs eq_refl). reflexivity.
Qed.

Lemma types_of_index_one_digit options (o0 : InterventionType) k index :
  2 <= length options <= 36 -> 1 <= k -> index < length options ->
  options !! 0 = Some o0 ->
  types_of_index options k index
  = (o ← (d ← int_of_char (dchar index);
          match options !! d with
          | Some o => Ok o
          | None => Raise (IndexError "list index out of range")
          end);
     Ok (replicate (k - 1) o0 ++ [o])).
Proof.
  intros Hm Hk Hi Ho. unfold types_of_index.
  destruct (zfill_base_repr (length options) k index Hm Hk) as (repr & Hb & Hz).
  { apply Nat.lt_le_trans with (length options ^ 1); [simpl; lia|].
    apply Nat.pow_le_mono_r; lia. }
  rewrite Hb, bind_Ok, Hz, lsb_digits_one_digit by assumption.
  apply mapM_padded. change (dchar 0) with "0"%char.
  change (int_of_char "0") with (Ok 0 : result nat). rewrite bind_Ok, Ho. reflexivity.
Qed.

(** X17.  With more than ten intervention types (up to the thirty-six that
    [np.base_repr] writes) and a budget that covers every combination,
    [get_interventions] yields the interventions of the indices 0 to 9 and
    then raises [ValueError]: the digit of index 10 is the letter [A], which
    [int] does not read. *)
Theorem get_interventions_more_than_ten_options
    (base_hooks hypothesis_hooks : list string) (hook_filters : option (list string))
    options (max_interventions : nat) (g : rng) :
  let names := hook_names_for_patching base_hooks hook_filters in
  1 <= length names -> 11 <= length options <= 36 ->
  (forall name, name ∈ names -> name ∈ hypothesis_hooks) ->
  length options ^ length names <= max_interventions ->
  exists ys,
    get_interventions base_hooks hypothesis_hooks hook_filters options max_interventions g
    = ((ys, Some (ValueError "invalid literal for int() with base 10: 'A'")), g) /\
    length ys = 10 /\
    Forall (fun y => hook_names y = names /\ length (intervention_types y) = length names) ys.
Proof.
  intros names Hk [Hm11 Hm36] Hpresent Hmax. unfold get_interventions. fold names.
  rewrite (names_present names hypothesis_hooks Hpresent). simpl negb. cbv iota.
  destruct (Nat.ltb_spec max_interventions (length options ^ length names)); [lia|].
  cbv iota beta. simpl andb. cbv iota.
  set (total := length options ^ length names).
  assert (Htotal : 11 <= total).
  { apply Nat.le_trans with (length options ^ 1); [simpl; lia|].
    apply Nat.pow_le_mono_r; lia. }
  destruct (lookup_lt_is_Some_2 options 0 ltac:(lia)) as [o0 Ho].
  set (f := fun index => tys ← types_of_index options (length names) index;
                         Ok (mkIntervention names tys)).
  replace (seq 0 total) with (seq 0 10 ++ 10 :: seq 11 (total - 11)).
  2:{ replace total with (10 + (1 + (total - 11))) at 2 by lia.
      rewrite !seq_app. reflexivity. }
  destruct (generate_ok f (seq 0 10)) as (ys & Hys & HF).
  { apply Forall_forall. intros i Hi. apply list_elem_of_In, in_seq in Hi.
    unfold f. rewrite (types_of_index_one_digit options o0) by (try assumption; lia).
    rewrite int_of_dchar by lia. rewrite bind_Ok.
    destruct (lookup_lt_is_Some_2 options i ltac:(lia)) as [o Hoi].
    rewrite Hoi, !bind_Ok. eauto. }
  exists ys. rewrite (generate_app f _ _ ys Hys).
  assert (H10 : f 10 = Raise (ValueError "invalid literal for int() with base 10: 'A'")).
  { unfold f. rewrite (types_of_index_one_digit options o0) by (try assumption; lia).
    reflexivity. }
  simpl generate. rewrite H10. simpl. rewrite app_nil_r.
  split; [reflexivity|]. split.
  - rewrite <- (Forall2_length _ _ _ HF). apply length_seq.
  - apply Forall_forall. intros y Hy.
    destruct (Forall2_elem_r _ _ _ _ HF Hy) as (i & Hi & Hf).
    apply list_elem_of_In, in_seq in Hi. unfold f in Hf.
    rewrite (types_of_index_one_digit options o0) in Hf by (try assumption; lia).
    rewrite int_of_dchar in Hf by lia. rewrite bind_Ok in Hf.
    destruct (options !! i) as [o|]; [|discriminate Hf].
    rewrite !bind_Ok in Hf. injection Hf as <-. simpl.
    split; [reflexivity|]. rewrite length_app, length_replicate. simpl. lia.
Qed.

End SamplerEdges.

Lemma get_interventions_missing_hook_witness :
  get_interventions ["hook_embed"; "blocks.0.hook_mlp_out"] ["hook_embed"]
    (Some ["hook_mlp_out"]) [0; 1] 5 0
  = (([], Some (AssertionError
         (Some "All hook names for patching should be present in the hypothesis model."))),
     0).
Proof.
  apply (get_interventions_missing_hook
           ["hook_embed"; "blocks.0.hook_mlp_out"] ["hook_embed"]
           (Some ["hook_mlp_out"]) [0; 1] 5 0 "blocks.0.hook_mlp_out").
  - apply list_elem_of_In. vm_compute. left. reflexivity.
  - intros Hin. apply list_elem_of_In in Hin. simpl in Hin.
    destruct Hin as [Hin|[]]. discriminate Hin.
Defined.

Lemma get_interventions_fewer_than_two_options_witness :
  (get_interventions ["hook_embed"] ["hook_embed"] None [0] 3 0).1.1 = [].
Proof.
  apply (get_interventions_fewer_than_two_options
           ["hook_embed"] ["hook_embed"] None [0] 3 0).
  simpl. lia.
Defined.

Lemma get_interventions_no_hook_witness :
  seq 0 (length [0; 1] ^ length (hook_names_for_patching ["hook_embed"] (Some []))) = [0] /\
  types_of_index [0; 1] (length (hook_names_for_patching ["hook_embed"] (Some []))) 0
  = Ok [0].
Proof.
  apply (get_interventions_no_hook ["hook_embed"] (Some []) [0; 1] 0).
  - reflexivity.
  - simpl. lia.
  - reflexivity.
Defined.

Lemma get_interventions_more_than_ten_options_witness :
  exists ys,
    get_interventions ["hook_embed"] ["hook_embed"] None (seq 0 11) 11 0
    = ((ys, Some (ValueError "invalid literal for int() with base 10: 'A'")), 0) /\
    length ys = 10.
Proof.
  destruct (get_interventions_more_than_ten_options
              ["hook_embed"] ["hook_embed"] None (seq 0 11) 11 0)
    as (ys & He & Hl & _).
  - simpl. lia.
  - simpl. lia.
  - intros name Hn. exact Hn.
  - simpl. lia.
  - exists ys. split; [exact He|exact Hl].
Defined.

(** ** The size of the input space and the order of the unique rows *)

Import Dataset.

Lemma foldl_powers (v : nat) (n lo a : nat) :
  foldl (fun total_len l => total_len + S v ^ l) a (seq lo n) * v + S v ^ lo
  = a * v + S v ^ (lo + n).
Proof.
  revert lo a. induction n as [|n IH]; intros lo a.
  - simpl. rewrite Nat.add_0_r. reflexivity.
  - simpl seq. simpl foldl. specialize (IH (S lo) (a + S v ^ lo)).
    replace (lo + S n) with (S lo + n) by lia.
    rewrite Nat.pow_succ_r' in IH. nia.
Qed.

Section TotalLen.

Context {token nprng : Type} `{NpRandom nprng}.
Implicit Types (case : @BenchmarkCase token nprng).

(** X18.  [get_total_len] is a geometric sum: for a vocabulary of [v >= 1] tokens
    and lengths from [min_len] to [max_len],
    [total_len * (v - 1) + v ^ min_len = v ^ (max_len + 1)]; in particular
    the total is 0 when [min_len = max_len + 1]. *)
Theorem get_total_len_geometric case :
  1 <= length (get_vocab case) ->
  get_min_seq_len case <= get_max_seq_len case + 1 ->
  get_total_len case * (length (get_vocab case) - 1)
    + length (get_vocab case) ^ get_min_seq_len case
  = length (get_vocab case) ^ (get_max_seq_len case + 1).
Proof.
  intros Hv Hlen. unfold get_total_len, range.
  destruct (length (get_vocab case)) as [|v]; [lia|].
  replace (S v - 1) with v by lia.
  rewrite foldl_powers. simpl. f_equal. lia.
Qed.

End TotalLen.

Lemma get_total_len_geometric_witness :
  get_total_len toy_case * (2 - 1) + 2 ^ 1 = 2 ^ (1 + 1).
Proof.
  apply (get_total_len_geometric toy_case); simpl; lia.
Defined.

Lemma np_unique_Sorted keys : Sorted (fun a b => String.leb a b) (np_unique keys).
Proof.
  unfold np_unique. apply Sorted_merge_sort.
  intros a b. destruct (String.leb_total a b) as [Hab|Hba].
  - left. rewrite Hab. exact I.
  - right. rewrite Hba. exact I.
Qed.

Section UniqueOrder.

Context {token nprng : Type} `{NpRandom nprng}.
Variable str_row : list token -> string.

#[local] Abbreviation row_key := (Dataset.row_key str_row).
#[local] Abbreviation get_unique_data := (Dataset.get_unique_data str_row).

(** X19.  When the input space is not smaller than [max_len] and the sample has
    at most [max_len] different keys, the rows of the result are not in the
    order in which they were drawn but in the order of their keys: the keys
    of the result are the sorted different keys of the sample, and the
    generator of [numpy.random] is used by [get_clean_data] only. *)
Theorem get_unique_data_sorted_by_key
    (case : BenchmarkCase) (max_len : nat) (g g1 : nprng)
    (ins outs : list (list token)) :
  max_len <= get_total_len case ->
  get_clean_data case (3 * max_len) g = ((ins, outs), g1) ->
  Forall2 (fun x y => length x = length y) ins outs ->
  length (remove_dups (map row_key ins)) <= max_len ->
  exists ds,
    get_unique_data case max_len g = (Ok ds, g1) /\
    map row_key (data ds) = np_unique (map row_key ins) /\
    Sorted (fun a b => String.leb a b) (map row_key (data ds)).
Proof.
  intros Hge Hgen Hw Hcap. unfold Dataset.get_unique_data.
  destruct (Nat.ltb_spec (get_total_len case) max_len); [lia|].
  rewrite Hgen.
  set (keys := map (Dataset.row_key str_row) ins) in *.
  destruct (first_occurences_spec str_row ins) as (focc & Hm & HF). fold keys in Hm, HF.
  rewrite Hm.
  pose proof (Forall2_length _ _ _ Hw) as Hlen_io.
  assert (Hkeys_len : length keys = length ins) by apply length_map.
  assert (Hrange : Forall (fun p => p < length ins) focc).
  { apply Forall_forall. intros p Hp.
    destruct (Forall2_elem_r _ _ _ _ HF Hp) as (k & _ & Hk & _).
    rewrite <- Hkeys_len. eapply lookup_lt_Some; eauto. }
  destruct (take_indices_ok ins focc Hrange) as (uin & Huin & HFin).
  destruct (take_indices_ok outs focc) as (uout & Huout & HFout).
  { rewrite <- Hlen_io. exact Hrange. }
  rewrite Huin, Huout.
  assert (Hukeys : map row_key uin = np_unique keys).
  { apply list_eq_same_length with (n := length focc).
    - rewrite (Forall2_length _ _ _ HF). reflexivity.
    - rewrite length_map, (Forall2_length _ _ _ HFin). reflexivity.
    - intros q kx k Hq Hkx Hk.
      change (map ?f uin) with (f <$> uin) in Hkx.
      rewrite list_lookup_fmap in Hkx.
      destruct (uin !! q) as [x|] eqn:Hx; [|discriminate]. simpl in Hkx.
      injection Hkx as <-.
      destruct (Forall2_lookup_r _ _ _ _ _ HFin Hx) as (p & Hp & Hpx).
      destruct (Forall2_lookup_lr _ _ _ _ _ _ HF Hk Hp) as [Hkp _].
      unfold keys in Hkp. change (map ?f ins) with (f <$> ins) in Hkp.
      rewrite list_lookup_fmap, Hpx in Hkp. simpl in Hkp. congruence. }
  assert (Hulen : length uin = length (remove_dups keys)).
  { rewrite <- np_unique_length, <- Hukeys, length_map. reflexivity. }
  destruct (Nat.ltb_spec max_len (length uin)) as [Hbig|Hsmall]; [lia|].
  rewrite (new_TracrDataset_ok uin uout) by (eapply select_same_width; eauto).
  exists (mkDataset uin uout). cbn [data]. split; [reflexivity|].
  split; [exact Hukeys|]. rewrite Hukeys. apply np_unique_Sorted.
Qed.

End UniqueOrder.

Lemma get_unique_data_sorted_by_key_witness :
  exists ds,
    Dataset.get_unique_data toy_str_row toy_case 2 0 = (Ok ds, 0) /\
    map (Dataset.row_key toy_str_row) (data ds)
    = np_unique (map (Dataset.row_key toy_str_row)
                     (get_clean_data toy_case 6 0).1.1).
Proof.
  destruct (get_unique_data_sorted_by_key toy_str_row toy_case 2 0 0
              (get_clean_data toy_case 6 0).1.1 (get_clean_data toy_case 6 0).1.2)
    as (ds & He & Hk & _).
  - vm_compute. lia.
  - reflexivity.
  - vm_compute. repeat constructor.
  - vm_compute. lia.
  - exists ds. split; [exact He|exact Hk].
Defined.

(** ** The enumeration of all sequences of a case *)

Import Sampler TracrCase.

Lemma Forall2_rev_both {A B} (P : A -> B -> Prop) (l : list A) (k : list B) :
  Forall2 P l k -> Forall2 P (rev l) (rev k).
Proof.
  induction 1 as [|x y l k Hxy _ IH]; simpl; [constructor|].
  apply Forall2_app; [exact IH|]. constructor; [exact Hxy|constructor].
Qed.

Lemma picks_zeros {A} (vals : list A) (v0 : A) n :
  vals !! 0 = Some v0 -> picks vals (replicate n 0) (replicate n v0).
Proof. intros H0. induction n; simpl; constructor; assumption. Qed.

Section Enumeration.

Context {token : Type}.
Variables TRACR_BOS TRACR_PAD : token.
Variable get_vocab : list token.
Variable sorted : list token -> list token.
Variable get_correct_output_for_input : list token -> list token.

Implicit Types (vals sample : list token).

Lemma digits_loop_spec vals (v0 : token) fuel :
  vals !! 0 = Some v0 ->
  forall num k, num <= fuel -> num < length vals ^ k ->
    exists ts, digits_loop fuel num (length vals) vals = Done ts /\
               length ts <= k /\
               picks vals (lsb_digits (length vals) k num)
                     (ts ++ replicate (k - length ts) v0).
Proof.
  intros H0. induction fuel as [|fuel IH]; intros num k Hf Hk.
  - assert (num = 0) by lia. subst num. exists []. simpl.
    split; [reflexivity|]. split; [lia|].
    rewrite lsb_digits_zero, Nat.sub_0_r. apply picks_zeros, H0.
  - simpl. destruct (Nat.eqb_spec num 0) as [->|Hn].
    + exists []. simpl. split; [reflexivity|]. split; [lia|].
      rewrite lsb_digits_zero, Nat.sub_0_r. apply picks_zeros, H0.
    + assert (Hbase : 2 <= length vals).
      { destruct (length vals) as [|[|b]] eqn:Hb; [| |lia].
        - apply lookup_lt_Some in H0. lia.
        - rewrite Nat.pow_1_l in Hk. lia. }
      destruct (Nat.eqb_spec (length vals) 0); [lia|].
      destruct k as [|k]; [simpl in Hk; lia|].
      destruct (lookup_lt_is_Some_2 vals (num mod length vals)) as [v Hv].
      { apply Nat.mod_upper_bound. lia. }
      assert (Hd : num / length vals <= fuel).
      { assert (num / length vals < num) by (apply Nat.div_lt; lia). lia. }
      destruct (IH (num / length vals) k Hd (div_lt_pow (length vals) k num ltac:(lia) Hk))
        as (ts & Hts & Hl & Hp).
      exists (v :: ts). unfold getitem. rewrite Hv. cbn [mbind outcome_bind].
      rewrite Hts. cbn [mbind outcome_bind]. split; [reflexivity|].
      split; [simpl; lia|]. simpl. constructor; [exact Hv|exact Hp].
Qed.

(** The sample of an index: the values at the digits of the index in base
    [len(vals)], most significant digit first. *)
Lemma sample_of_index_spec vals k index :
  index < length vals ^ k ->
  exists sample, sample_of_index vals (S k) index = Done sample /\
                 picks vals (rev (lsb_digits (length vals) k index)) sample.
Proof.
  intros Hi. unfold sample_of_index.
  replace (S k - 1) with k by lia.
  destruct vals as [|v0 vals'] eqn:Hvals.
  - simpl length in *. destruct k as [|k]; [|simpl in Hi; lia].
    simpl in Hi. assert (index = 0) by lia. subst index.
    exists []. split; [reflexivity|constructor].
  - rewrite <- Hvals in *. assert (H0 : vals !! 0 = Some v0) by (subst vals; reflexivity).
    destruct (digits_loop_spec vals v0 index H0 index k (le_n _) Hi) as (ts & Hts & Hl & Hp).
    rewrite Hts. cbn [mbind outcome_bind].
    destruct (Nat.ltb_spec (length ts) k) as [Hlt|Hge].
    + unfold getitem. rewrite H0. cbn [mbind outcome_bind].
      eexists. split; [reflexivity|]. apply Forall2_rev_both, Hp.
    + cbn [mbind outcome_bind]. eexists. split; [reflexivity|].
      replace (k - length ts) with 0 in Hp by lia. simpl in Hp.
      rewrite app_nil_r in Hp. apply Forall2_rev_both, Hp.
Qed.

#[local] Abbreviation sample_at seq_len index :=
  (match sample_of_index (sorted get_vocab) seq_len index with
   | Done sample => sample
   | Fail _ => []
   end).
#[local] Abbreviation input_row max_seq_len seq_len index :=
  (TRACR_BOS :: sample_at seq_len index ++ replicate (max_seq_len - seq_len) TRACR_PAD).
#[local] Abbreviation output_row max_seq_len seq_len index :=
  (TRACR_BOS :: get_correct_output_for_input (sample_at seq_len index)
             ++ replicate (max_seq_len - seq_len) TRACR_PAD).
#[local] Abbreviation indices_of seq_len :=
  (seq 0 (length (sorted get_vocab) ^ (seq_len - 1))).

Lemma gen_all_data_inner (max_seq_len k : nat) (indices : list nat) :
  Forall (fun index => index < length (sorted get_vocab) ^ k) indices ->
  forall ins outs,
    foldl (fun acc index =>
             data ← acc;
             sample ← sample_of_index (sorted get_vocab) (S k) index;
             let output := get_correct_output_for_input sample in
             Done (data.1 ++ [TRACR_BOS :: sample
                                ++ replicate (max_seq_len - S k) TRACR_PAD],
                   data.2 ++ [TRACR_BOS :: output
                                ++ replicate (max_seq_len - S k) TRACR_PAD]))
          (Done (ins, outs)) indices
    = Done (ins ++ map (fun index => input_row max_seq_len (S k) index) indices,
            outs ++ map (fun index => output_row max_seq_len (S k) index) indices).
Proof.
  induction 1 as [|index indices Hi _ IH]; intros ins outs.
  - simpl. rewrite !app_nil_r. reflexivity.
  - simpl foldl. cbn [mbind outcome_bind].
    destruct (sample_of_index_spec (sorted get_vocab) k index Hi) as (sample & Hs & _).
    rewrite Hs. cbn [mbind outcome_bind fst snd]. rewrite IH.
    simpl map. rewrite Hs, <- !app_assoc. reflexivity.
Qed.

Lemma gen_all_data_outer (max_seq_len : nat) (seq_lens : list nat) :
  Forall (fun seq_len => 1 <= seq_len) seq_lens ->
  forall ins outs,
    foldl (fun acc seq_len =>
             data ← acc;
             let pad_len := max_seq_len - seq_len in
             let pad := replicate pad_len TRACR_PAD in
             indices ← index_range (length (sorted get_vocab)) seq_len;
             foldl (fun acc index =>
                      data ← acc;
                      sample ← sample_of_index (sorted get_vocab) seq_len index;
                      let output := get_correct_output_for_input sample in
                      Done (data.1 ++ [TRACR_BOS :: sample ++ pad],
                            data.2 ++ [TRACR_BOS :: output ++ pad]))
                   (Done data) indices)
          (Done (ins, outs)) seq_lens
    = Done (ins ++ flat_map (fun seq_len =>
                               map (fun index => input_row max_seq_len seq_len index)
                                   (indices_of seq_len)) seq_lens,
            outs ++ flat_map (fun seq_len =>
                                map (fun index => output_row max_seq_len seq_len index)
                                    (indices_of seq_len)) seq_lens).
Proof.
  induction 1 as [|seq_len seq_lens Hlen _ IH]; intros ins outs.
  - simpl. rewrite !app_nil_r. reflexivity.
  - simpl foldl. cbn [mbind outcome_bind].
    destruct seq_len as [|k]; [lia|]. cbn [index_range mbind outcome_bind].
    rewrite gen_all_data_inner.
    2:{ apply Forall_forall. intros i Hi. apply elem_of_seq in Hi. lia. }
    rewrite IH. simpl flat_map. rewrite Nat.sub_0_r.
    rewrite <- !app_assoc. reflexivity.
Qed.

(** The result of [gen_all_data] for lengths of at least 1: block after
    block, one row for every index. *)
Lemma gen_all_data_blocks (min_seq_len max_seq_len : nat) :
  1 <= min_seq_len ->
  gen_all_data TRACR_BOS TRACR_PAD get_vocab sorted get_correct_output_for_input
               min_seq_len max_seq_len
  = Done (flat_map (fun seq_len =>
                      map (fun index => input_row max_seq_len seq_len index)
                          (indices_of seq_len))
                   (Dataset.range min_seq_len (max_seq_len + 1)),
          flat_map (fun seq_len =>
                      map (fun index => output_row max_seq_len seq_len index)
                          (indices_of seq_len))
                   (Dataset.range min_seq_len (max_seq_len + 1))).
Proof.
  intros Hmin. unfold gen_all_data. rewrite gen_all_data_outer; [reflexivity|].
  apply Forall_forall. intros l Hl. unfold Dataset.range in Hl.
  apply elem_of_seq in Hl. lia.
Qed.

Lemma sample_at_spec seq_len index :
  1 <= seq_len -> index < length (sorted get_vocab) ^ (seq_len - 1) ->
  picks (sorted get_vocab)
        (rev (lsb_digits (length (sorted get_vocab)) (seq_len - 1) index))
        (sample_at seq_len index).
Proof.
  intros Hl Hi. destruct seq_len as [|k]; [lia|].
  replace (S k - 1) with k in * by lia.
  destruct (sample_of_index_spec (sorted get_vocab) k index Hi) as (sample & Hs & Hp).
  rewrite Hs. exact Hp.
Qed.

Lemma sample_at_length seq_len index :
  1 <= seq_len -> index < length (sorted get_vocab) ^ (seq_len - 1) ->
  S (length (sample_at seq_len index)) = seq_len.
Proof.
  intros Hl Hi. rewrite <- (picks_length _ _ _ (sample_at_spec seq_len index Hl Hi)).
  rewrite length_rev, lsb_digits_length. lia.
Qed.

Lemma picks_elem (vals : list token) ds sample :
  picks vals ds sample -> Forall (fun v => v ∈ vals) sample.
Proof.
  induction 1 as [|d v ds sample Hd _ IH]; constructor; [|exact IH].
  eapply list_elem_of_lookup_2, Hd.
Qed.

(** Every sequence over the vocabulary is the sample of an index. *)
Lemma sample_at_complete sample :
  Forall (fun v => v ∈ sorted get_vocab) sample ->
  exists index, index < length (sorted get_vocab) ^ length sample /\
                sample_at (S (length sample)) index = sample.
Proof.
  intros Hs. destruct (picks_exists (sorted get_vocab) sample Hs) as (ds & Hp & Hb).
  pose proof (picks_length _ _ _ Hp) as Hlen.
  destruct (sorted get_vocab) as [|v0 vals'] eqn:Hvals.
  - destruct sample as [|v sample]; [|inversion Hs as [|? ? Hv]; inversion Hv].
    exists 0. split; [simpl; lia|reflexivity].
  - rewrite <- Hvals in *.
    assert (Hm : 0 < length (sorted get_vocab)) by (rewrite Hvals; simpl; lia).
    destruct (lsb_of_value (length (sorted get_vocab)) (rev ds) Hm (Forall_rev Hb))
      as [Hv Hl].
    rewrite rev_involutive, length_rev, Hlen in Hv, Hl.
    exists (value_of_digits (length (sorted get_vocab)) ds). split; [exact Hv|].
    pose proof (sample_at_spec (S (length sample)) _ ltac:(lia)
                  ltac:(replace (S (length sample) - 1) with (length sample) by lia;
                        exact Hv)) as Hp'.
    replace (S (length sample) - 1) with (length sample) in Hp' by lia.
    rewrite Hl, rev_involutive in Hp'.
    exact (picks_fun _ _ _ _ Hp' Hp).
Qed.

(** Different indices of one length give different samples. *)
Lemma sample_at_inj seq_len i j :
  NoDup (sorted get_vocab) -> 1 <= seq_len ->
  i < length (sorted get_vocab) ^ (seq_len - 1) ->
  j < length (sorted get_vocab) ^ (seq_len - 1) ->
  sample_at seq_len i = sample_at seq_len j -> i = j.
Proof.
  intros Hnd Hl Hi Hj Heq.
  pose proof (sample_at_spec seq_len i Hl Hi) as Hpi.
  pose proof (sample_at_spec seq_len j Hl Hj) as Hpj.
  rewrite Heq in Hpi.
  pose proof (picks_inj _ _ _ _ Hnd Hpi Hpj) as Hds.
  destruct (length (sorted get_vocab)) as [|b] eqn:Hb.
  - destruct (seq_len - 1); simpl in Hi, Hj; lia.
  - rewrite <- (value_rev_lsb (S b) (seq_len - 1) i) by (try lia; exact Hi).
    rewrite <- (value_rev_lsb (S b) (seq_len - 1) j) by (try lia; exact Hj).
    rewrite Hds. reflexivity.
Qed.

(** Rows of different lengths differ when the padding is no token of the
    vocabulary. *)
Lemma padded_rows_differ (max_seq_len : nat) (s s' : list token) :
  TRACR_PAD ∉ sorted get_vocab ->
  Forall (fun v => v ∈ sorted get_vocab) s' ->
  length s < length s' -> S (length s') <= max_seq_len ->
  s ++ replicate (max_seq_len - S (length s)) TRACR_PAD
  <> s' ++ replicate (max_seq_len - S (length s')) TRACR_PAD.
Proof.
  intros Hpad Hs' Hlt Hmax Heq.
  destruct (lookup_lt_is_Some_2 s' (length s) Hlt) as [t Ht].
  assert (Hin : t ∈ sorted get_vocab).
  { rewrite Forall_forall in Hs'. apply Hs'. eapply list_elem_of_lookup_2, Ht. }
  apply (f_equal (fun l => l !! length s)) in Heq.
  rewrite lookup_app_r in Heq by lia. rewrite Nat.sub_diag in Heq.
  rewrite (lookup_app_l s') in Heq by exact Hlt. rewrite Ht in Heq.
  rewrite lookup_replicate_2 in Heq by lia. congruence.
Qed.

(** The rows of [gen_all_data]: inputs and outputs side by side. *)
Lemma gen_all_data_aligned (min_seq_len max_seq_len : nat) input_data output_data :
  sorted get_vocab ≡ₚ get_vocab ->
  1 <= min_seq_len ->
  gen_all_data TRACR_BOS TRACR_PAD get_vocab sorted get_correct_output_for_input
               min_seq_len max_seq_len = Done (input_data, output_data) ->
  Forall2 (fun input output =>
             exists sample,
               min_seq_len <= S (length sample) <= max_seq_len /\
               Forall (fun v => v ∈ get_vocab) sample /\
               input = TRACR_BOS :: sample
                         ++ replicate (max_seq_len - S (length sample)) TRACR_PAD /\
               output = TRACR_BOS :: get_correct_output_for_input sample
                          ++ replicate (max_seq_len - S (length sample)) TRACR_PAD)
          input_data output_data.
Proof.
  intros Hperm Hmin Hgen. rewrite (gen_all_data_blocks _ _ Hmin) in Hgen.
  injection Hgen as <- <-.
  assert (Hrange : Forall (fun l => min_seq_len <= l <= max_seq_len)
                     (Dataset.range min_seq_len (max_seq_len + 1))).
  { apply Forall_forall. intros l Hl. apply elem_of_seq in Hl. lia. }
  induction Hrange as [|l ls Hl _ IH]; simpl; [constructor|].
  apply Forall2_app; [|exact IH].
  assert (Hidx : Forall (fun i => i < length (sorted get_vocab) ^ (l - 1))
                   (indices_of l)).
  { apply Forall_forall. intros i Hi. apply elem_of_seq in Hi. lia. }
  induction Hidx as [|i idx Hi _ IHi]; simpl; constructor; [|exact IHi].
  exists (sample_at l i).
  rewrite (sample_at_length l i) by (try exact Hi; lia).
  split; [exact Hl|]. split; [|split; reflexivity].
  eapply Forall_impl; [exact (picks_elem _ _ _ (sample_at_spec l i ltac:(lia) Hi))|].
  intros v Hv. cbv beta in Hv. rewrite <- Hperm. exact Hv.
Qed.

Lemma gen_all_data_lengths (min_seq_len max_seq_len : nat) input_data output_data :
  1 <= min_seq_len ->
  gen_all_data TRACR_BOS TRACR_PAD get_vocab sorted get_correct_output_for_input
               min_seq_len max_seq_len = Done (input_data, output_data) ->
  length input_data = length output_data.
Proof.
  intros Hmin Hgen. rewrite (gen_all_data_blocks _ _ Hmin) in Hgen.
  injection Hgen as <- <-.
  induction (Dataset.range min_seq_len (max_seq_len + 1)) as [|l ls IH]; simpl;
    [reflexivity|].
  rewrite !length_app, !length_map, IH. reflexivity.
Qed.

Lemma gen_all_data_Done (min_seq_len max_seq_len : nat) :
  1 <= min_seq_len ->
  exists input_data output_data,
    gen_all_data TRACR_BOS TRACR_PAD get_vocab sorted get_correct_output_for_input
                 min_seq_len max_seq_len = Done (input_data, output_data).
Proof. intros Hmin. eexists _, _. apply gen_all_data_blocks, Hmin. Qed.

(** X20.  [gen_all_data] with lengths of at least 1 returns, row by row, the
    padded input [BOS, sample, PAD...] and the padded output of the program
    on [sample], for sequences [sample] over the vocabulary whose length
    with BOS lies between the two lengths; and every such sequence has its
    row among the inputs. *)
Theorem gen_all_data_enumerates (min_seq_len max_seq_len : nat) :
  sorted get_vocab ≡ₚ get_vocab ->
  1 <= min_seq_len ->
  exists input_data output_data,
    gen_all_data TRACR_BOS TRACR_PAD get_vocab sorted get_correct_output_for_input
                 min_seq_len max_seq_len = Done (input_data, output_data) /\
    Forall2 (fun input output =>
               exists sample,
                 min_seq_len <= S (length sample) <= max_seq_len /\
                 Forall (fun v => v ∈ get_vocab) sample /\
                 input = TRACR_BOS :: sample
                           ++ replicate (max_seq_len - S (length sample)) TRACR_PAD /\
                 output = TRACR_BOS :: get_correct_output_for_input sample
                            ++ replicate (max_seq_len - S (length sample)) TRACR_PAD)
            input_data output_data /\
    forall sample,
      min_seq_len <= S (length sample) <= max_seq_len ->
      Forall (fun v => v ∈ get_vocab) sample ->
      TRACR_BOS :: sample ++ replicate (max_seq_len - S (length sample)) TRACR_PAD
        ∈ input_data.
Proof.
  intros Hperm Hmin. eexists _, _. split; [apply gen_all_data_blocks, Hmin|]. split.
  - apply gen_all_data_aligned; [exact Hperm|exact Hmin|].
    apply gen_all_data_blocks, Hmin.
  - intros sample Hlen Hvoc.
    destruct (sample_at_complete sample) as (index & Hi & Hs).
    { eapply Forall_impl; [exact Hvoc|]. intros v Hv. cbv beta in Hv.
      rewrite Hperm. exact Hv. }
    apply list_elem_of_In, in_flat_map. exists (S (length sample)). split.
    + apply list_elem_of_In, elem_of_seq. lia.
    + apply in_map_iff. exists index. rewrite Hs. split; [reflexivity|].
      apply in_seq. simpl. rewrite Nat.sub_0_r. lia.
Qed.

(** X21.  No sequence is generated twice, when the vocabulary lists no token
    twice and the padding marker is none of its tokens. *)
Theorem gen_all_data_no_duplicates (min_seq_len max_seq_len : nat) :
  sorted get_vocab ≡ₚ get_vocab ->
  1 <= min_seq_len ->
  NoDup get_vocab -> TRACR_PAD ∉ get_vocab ->
  exists input_data output_data,
    gen_all_data TRACR_BOS TRACR_PAD get_vocab sorted get_correct_output_for_input
                 min_seq_len max_seq_len = Done (input_data, output_data) /\
    NoDup input_data.
Proof.
  intros Hperm Hmin Hnd Hpad. rewrite <- Hperm in Hnd, Hpad.
  eexists _, _. split; [apply gen_all_data_blocks, Hmin|].
  assert (Hrange : Forall (fun l => 1 <= l <= max_seq_len)
                     (Dataset.range min_seq_len (max_seq_len + 1))).
  { apply Forall_forall. intros l Hl. apply elem_of_seq in Hl. lia. }
  assert (Hls : NoDup (Dataset.range min_seq_len (max_seq_len + 1))) by apply NoDup_seq.
  induction Hrange as [|l ls Hl Hrest IH]; simpl; [constructor|].
  apply NoDup_cons in Hls as [Hnotin Hls].
  apply NoDup_app. split; [|split; [|exact (IH Hls)]].
  - apply NoDup_fmap_2_strong; [|apply NoDup_seq].
    intros i j Hi Hj Heq. apply elem_of_seq in Hi, Hj.
    injection Heq as Heq. apply app_inv_tail in Heq.
    apply (sample_at_inj l i j Hnd); (exact Heq || lia).
  - intros row Hrow Hrow'.
    apply list_elem_of_In, in_map_iff in Hrow as (i & <- & Hi). apply in_seq in Hi.
    apply list_elem_of_In, in_flat_map in Hrow' as (l' & Hl' & Hrow').
    apply in_map_iff in Hrow' as (j & Heq & Hj). apply in_seq in Hj.
    assert (Hl'r : 1 <= l' <= max_seq_len).
    { rewrite Forall_forall in Hrest. apply Hrest, list_elem_of_In, Hl'. }
    assert (Hne : l <> l').
    { intros ->. apply Hnotin, list_elem_of_In, Hl'. }
    assert (Hl1 : 1 <= l) by lia. assert (Hl1' : 1 <= l') by lia.
    assert (Hi' : i < length (sorted get_vocab) ^ (l - 1)) by lia.
    assert (Hj' : j < length (sorted get_vocab) ^ (l' - 1)) by lia.
    pose proof (sample_at_length l i Hl1 Hi') as Hli.
    pose proof (sample_at_length l' j Hl1' Hj') as Hlj.
    pose proof (picks_elem _ _ _ (sample_at_spec l i Hl1 Hi')) as Hvi.
    pose proof (picks_elem _ _ _ (sample_at_spec l' j Hl1' Hj')) as Hvj.
    injection Heq as Heq.
    rewrite <- Hli in Heq at 2. rewrite <- Hlj in Heq at 2.
    destruct (Nat.lt_total l l') as [Hlt|[Heq'|Hgt]]; [|contradiction|].
    + apply (padded_rows_differ max_seq_len (sample_at l i) (sample_at l' j) Hpad Hvj);
        [lia|lia|]. symmetry. exact Heq.
    + apply (padded_rows_differ max_seq_len (sample_at l' j) (sample_at l i) Hpad Hvi);
        [lia|lia|]. exact Heq.
Qed.

Lemma foldl_powers_rows {A} (row : nat -> nat -> A) (v : nat) (seq_lens : list nat) :
  Forall (fun seq_len => 1 <= seq_len) seq_lens ->
  forall a,
    foldl (fun total_len l => total_len + v ^ l) a seq_lens
    = a + length (flat_map (fun seq_len => map (row seq_len) (seq 0 (v ^ (seq_len - 1))))
                           seq_lens) * v.
Proof.
  induction 1 as [|l ls Hl _ IH]; intros a; simpl; [lia|].
  rewrite IH, length_app, length_map, length_seq.
  destruct l as [|k]; [lia|]. simpl. rewrite Nat.sub_0_r. lia.
Qed.

(** X22.  [get_total_data_len] counts [len(vocab)] times as many sequences as
    [gen_all_data] generates for the two lengths of the case: a sequence of
    length [l] with BOS has [l - 1] tokens of the vocabulary. *)
Theorem gen_all_data_count (get_max_seq_len get_min_seq_len : nat) :
  sorted get_vocab ≡ₚ get_vocab ->
  1 <= get_min_seq_len ->
  exists input_data output_data,
    gen_all_data TRACR_BOS TRACR_PAD get_vocab sorted get_correct_output_for_input
                 get_min_seq_len get_max_seq_len = Done (input_data, output_data) /\
    length input_data = length output_data /\
    length input_data * length get_vocab
    = get_total_data_len get_vocab sorted get_max_seq_len get_min_seq_len.
Proof.
  intros Hperm Hmin. eexists _, _. split; [apply gen_all_data_blocks, Hmin|].
  assert (Hrange : Forall (fun l => 1 <= l)
                     (Dataset.range get_min_seq_len (get_max_seq_len + 1))).
  { apply Forall_forall. intros l Hl. apply elem_of_seq in Hl. lia. }
  split.
  - clear Hrange. induction (Dataset.range get_min_seq_len (get_max_seq_len + 1))
      as [|l ls IH]; simpl; [reflexivity|].
    rewrite !length_app, !length_map, IH. reflexivity.
  - unfold get_total_data_len.
    rewrite (foldl_powers_rows (fun seq_len index => input_row get_max_seq_len seq_len index)
               (length (sorted get_vocab)) _ Hrange 0).
    rewrite (Permutation_length Hperm). reflexivity.
Qed.

Lemma foldl_Fail {A B} (step : outcome A -> B -> outcome A) (e : error) (l : list B) :
  (forall b, step (Fail e) b = Fail e) -> foldl step (Fail e) l = Fail e.
Proof.
  intros Hstep. induction l as [|b l IH]; simpl; [reflexivity|]. rewrite Hstep. exact IH.
Qed.

(** With a minimal length of 0 nothing is generated: the count of the
    sequences of length 0 is a negative power, a float that [range]
    refuses, or no number at all for an empty vocabulary. *)
Lemma gen_all_data_length_zero (max_seq_len : nat) :
  gen_all_data TRACR_BOS TRACR_PAD get_vocab sorted get_correct_output_for_input
               0 max_seq_len
  = Fail (if length (sorted get_vocab) =? 0
          then ZeroDivisionError "0.0 cannot be raised to a negative power"
          else TypeError "'float' object cannot be interpreted as an integer").
Proof.
  unfold gen_all_data, Dataset.range.
  replace (max_seq_len + 1 - 0) with (S max_seq_len) by lia.
  simpl seq. simpl foldl. cbn [mbind outcome_bind index_range].
  destruct (length (sorted get_vocab) =? 0); cbn [mbind outcome_bind];
    (rewrite foldl_Fail; [reflexivity|intros b; reflexivity]).
Qed.

End Enumeration.

Lemma gen_all_data_enumerates_witness :
  exists input_data output_data,
    example_gen_all_data 2 3 = Done (input_data, output_data) /\
    [0; 2; 1] ∈ input_data.
Proof.
  destruct (gen_all_data_enumerates 0 9 [1; 2] (fun l => l) (@rev nat) 2 3)
    as (input_data & output_data & He & _ & Hall).
  - reflexivity.
  - lia.
  - exists input_data, output_data. split; [exact He|].
    apply (Hall [2; 1]).
    + simpl. lia.
    + repeat constructor.
Defined.

Lemma gen_all_data_no_duplicates_witness :
  exists input_data output_data,
    example_gen_all_data 2 3 = Done (input_data, output_data) /\ NoDup input_data.
Proof.
  apply (gen_all_data_no_duplicates 0 9 [1; 2] (fun l => l) (@rev nat) 2 3).
  - reflexivity.
  - lia.
  - repeat constructor; intros Hin; apply list_elem_of_In in Hin; simpl in Hin;
      intuition discriminate.
  - intros Hin. apply list_elem_of_In in Hin. simpl in Hin. intuition discriminate.
Defined.

Lemma gen_all_data_count_witness :
  exists input_data output_data,
    example_gen_all_data 2 3 = Done (input_data, output_data) /\
    length input_data = length output_data /\
    length input_data * 2 = get_total_data_len [1; 2] (fun l => l) 3 2.
Proof.
  apply (gen_all_data_count 0 9 [1; 2] (fun l => l) (@rev nat) 3 2).
  - reflexivity.
  - lia.
Defined.

(** ** Clean data: seeding, sampling, shuffling *)

Import TracrCase.

Lemma map_nth_seq {A} (l : list A) (d : A) :
  map (fun i => nth i l d) (seq 0 (length l)) = l.
Proof.
  induction l as [|x l IH]; [reflexivity|].
  simpl length. simpl seq. simpl map. f_equal.
  rewrite <- seq_shift, map_map. exact IH.
Qed.

Lemma zip_map_same {A B C} (f : A -> B) (g : A -> C) (l : list A) :
  zip (map f l) (map g l) = map (fun x => (f x, g x)) l.
Proof. induction l as [|x l IH]; simpl; [reflexivity|]. f_equal. exact IH. Qed.

(** Two lists read at the same shuffled positions keep their pairs. *)
Lemma shuffled_pairs {A} (xs ys : list A) (d : A) (indices : list nat) :
  length xs = length ys -> indices ≡ₚ seq 0 (length xs) ->
  zip (map (fun i => nth i xs d) indices) (map (fun i => nth i ys d) indices)
  ≡ₚ zip xs ys.
Proof.
  intros Hlen Hperm. rewrite zip_map_same.
  assert (Hzip : map (fun i => (nth i xs d, nth i ys d)) (seq 0 (length xs)) = zip xs ys).
  { rewrite <- zip_map_same, map_nth_seq, Hlen, map_nth_seq. reflexivity. }
  rewrite <- Hzip. apply Permutation_map, Hperm.
Qed.

Lemma shuffled_Forall2 {A} (P : A -> A -> Prop) (xs ys : list A) (d : A)
    (indices : list nat) :
  Forall2 P xs ys -> Forall (fun i => i < length xs) indices ->
  Forall2 P (map (fun i => nth i xs d) indices) (map (fun i => nth i ys d) indices).
Proof.
  intros HF. induction 1 as [|i indices Hi _ IH]; simpl; constructor; [|exact IH].
  destruct (lookup_lt_is_Some_2 xs i Hi) as [x Hx].
  destruct (Forall2_lookup_l _ _ _ _ _ HF Hx) as (y & Hy & Hxy).
  rewrite (nth_lookup xs), (nth_lookup ys), Hx, Hy. exact Hxy.
Qed.

Section CleanData.

Context {token pyrng nprng trng : Type} `{EqDecision token}
        `{CaseRandom token pyrng nprng trng}.
Variables TRACR_BOS TRACR_PAD : token.
Variable get_vocab : list token.
Variable sorted : list token -> list token.
Variables get_max_seq_len get_min_seq_len : nat.
Variable get_correct_output_for_input : list token -> list token.
Variable str : list token -> string.

#[local] Abbreviation generators := (@generators pyrng nprng trng).
#[local] Abbreviation get_clean_data :=
  (get_clean_data TRACR_BOS TRACR_PAD get_vocab sorted get_max_seq_len get_min_seq_len
                  get_correct_output_for_input str).
#[local] Abbreviation sample_data :=
  (sample_data TRACR_BOS TRACR_PAD get_vocab sorted get_correct_output_for_input).
#[local] Abbreviation gen_all_data :=
  (gen_all_data TRACR_BOS TRACR_PAD get_vocab sorted get_correct_output_for_input).
#[local] Abbreviation produce_data :=
  (produce_data TRACR_BOS TRACR_PAD get_vocab sorted get_max_seq_len get_min_seq_len
                get_correct_output_for_input).

(** An input and its output: BOS, then a sequence over [vals] and the
    output of the program on it, both padded to [max_seq_len]. *)
#[local] Abbreviation row_pair vals min_seq_len max_seq_len input output :=
  (exists sample,
     min_seq_len <= S (length sample) <= max_seq_len /\
     Forall (fun v => v ∈ vals) sample /\
     input = TRACR_BOS :: sample
               ++ replicate (max_seq_len - S (length sample)) TRACR_PAD /\
     output = TRACR_BOS :: get_correct_output_for_input sample
                ++ replicate (max_seq_len - S (length sample)) TRACR_PAD).

Lemma reorder_spec (data : list (list token)) (indices : list nat) :
  Forall (fun i => i < length data) indices ->
  reorder data indices = Done (map (fun i => nth i data []) indices).
Proof.
  unfold reorder. induction 1 as [|i indices Hi _ IH]; [reflexivity|].
  destruct (lookup_lt_is_Some_2 data i Hi) as [row Hrow].
  cbn [mapM]. rewrite Hrow. cbn [mbind outcome_bind]. rewrite IH.
  cbn [mbind outcome_bind]. simpl map. rewrite (nth_lookup data), Hrow. reflexivity.
Qed.

(** The loop that is to remove duplicates looks strings up among tuples
    and so keeps every row. *)
Lemma remove_duplicates_keeps_all (input_data output_data : list (list token)) :
  length input_data = length output_data ->
  remove_duplicates str input_data output_data = Done (input_data, output_data).
Proof.
  intros Hlen. unfold remove_duplicates.
  match goal with |- context [foldl ?f _ _] => set (step := f) end.
  assert (Hk : forall k, k <= length input_data ->
            exists unique_inputs,
              foldl step (Done ([], [], [])) (seq 0 k)
              = Done (unique_inputs, take k input_data, take k output_data) /\
              Forall (fun o => exists t, o = PyTuple t) unique_inputs).
  { induction k as [|k IH]; intros Hle.
    - exists []. split; [reflexivity|constructor].
    - destruct (IH ltac:(lia)) as (u & Hu & Htuples).
      rewrite seq_S, foldl_app, Hu. simpl foldl.
      destruct (lookup_lt_is_Some_2 input_data k ltac:(lia)) as [input Hin].
      destruct (lookup_lt_is_Some_2 output_data k ltac:(lia)) as [output Hout].
      rewrite Hin. cbn [mbind outcome_bind].
      rewrite bool_decide_eq_true_2.
      2:{ intros Hmem. rewrite Forall_forall in Htuples.
          destruct (Htuples _ Hmem) as [t Ht]. discriminate Ht. }
      rewrite Hout. cbn [mbind outcome_bind].
      rewrite (take_S_r _ _ _ Hin), (take_S_r _ _ _ Hout).
      eexists. split; [reflexivity|].
      destruct (bool_decide _); [exact Htuples|].
      apply Forall_app. split; [exact Htuples|]. constructor; [eauto|constructor]. }
  destruct (Hk (length input_data) (le_n _)) as (u & Hu & _).
  rewrite Hu. cbn [mbind outcome_bind fst snd].
  rewrite firstn_all. rewrite Hlen at 1. rewrite firstn_all. reflexivity.
Qed.

Lemma gen_random_input_output_Done (vals : list token) (min_seq_len max_seq_len : nat)
    (st st' : generators) input output :
  gen_random_input_output TRACR_BOS TRACR_PAD get_correct_output_for_input
                          vals min_seq_len max_seq_len st
  = (Done (input, output), st') ->
  row_pair vals min_seq_len max_seq_len input output /\
  torch_state st' = torch_state st.
Proof.
  unfold gen_random_input_output.
  destruct (Nat.ltb_spec max_seq_len min_seq_len) as [|Hle]; [discriminate|].
  pose proof (random_randint_range (random_state st) _ _ Hle) as Hrange.
  destruct (random_randint (random_state st) min_seq_len max_seq_len) as [seq_len g].
  simpl in Hrange. cbn [random_state numpy_state torch_state].
  destruct (bool_decide (vals = []) && negb (seq_len =? 1)) eqn:Hempty;
    [discriminate|].
  destruct (Nat.eqb_spec seq_len 0) as [|Hpos]; [discriminate|].
  assert (Hpre : vals <> [] \/ seq_len - 1 = 0).
  { apply andb_false_iff in Hempty as [Hv|Hn].
    - left. apply bool_decide_eq_false in Hv. exact Hv.
    - right. apply negb_false_iff, Nat.eqb_eq in Hn. lia. }
  pose proof (np_random_choice_length (numpy_state st) vals _ Hpre) as Hlen.
  pose proof (fun v => np_random_choice_elem (numpy_state st) vals _ v Hpre) as Helem.
  destruct (np_random_choice (numpy_state st) vals (seq_len - 1)) as [sample g'].
  simpl in Hlen, Helem. intros Heq. injection Heq as <- <- <-.
  split; [|reflexivity]. exists sample.
  replace (S (length sample)) with seq_len by lia.
  split; [exact Hrange|]. split; [apply Forall_forall, Helem|]. split; reflexivity.
Qed.

Lemma gen_random_input_output_succeeds (vals : list token)
    (min_seq_len max_seq_len : nat) (st : generators) :
  1 <= min_seq_len <= max_seq_len -> vals <> [] ->
  exists input output st',
    gen_random_input_output TRACR_BOS TRACR_PAD get_correct_output_for_input
                            vals min_seq_len max_seq_len st
    = (Done (input, output), st').
Proof.
  intros [Hmin Hle] Hvals. unfold gen_random_input_output.
  destruct (Nat.ltb_spec max_seq_len min_seq_len) as [|_]; [lia|].
  pose proof (random_randint_range (random_state st) _ _ Hle) as Hrange.
  destruct (random_randint (random_state st) min_seq_len max_seq_len) as [seq_len g].
  simpl in Hrange. rewrite (bool_decide_eq_false_2 _ Hvals). simpl andb. cbv iota.
  destruct (Nat.eqb_spec seq_len 0) as [|_]; [lia|].
  destruct (np_random_choice _ vals (seq_len - 1)) as [sample g']. eauto.
Qed.

Lemma sample_data_loop_Done (n : nat) (vals : list token) (min_seq_len max_seq_len : nat) :
  forall data (st st' : generators) data',
    sample_data_loop TRACR_BOS TRACR_PAD get_correct_output_for_input
                     n vals min_seq_len max_seq_len data st = (Done data', st') ->
    exists rows_in rows_out,
      data' = (data.1 ++ rows_in, data.2 ++ rows_out) /\
      length rows_in = n /\
      Forall2 (fun input output => row_pair vals min_seq_len max_seq_len input output)
              rows_in rows_out /\
      torch_state st' = torch_state st.
Proof.
  induction n as [|n IH]; intros data st st' data' Hloop; simpl in Hloop.
  - injection Hloop as <- <-. exists [], []. rewrite !app_nil_r.
    split; [destruct data; reflexivity|]. split; [reflexivity|]. split; [constructor|].
    reflexivity.
  - destruct (gen_random_input_output _ _ _ vals min_seq_len max_seq_len st)
      as [[[input output]|e] st1] eqn:Hgen; [|discriminate].
    destruct (gen_random_input_output_Done _ _ _ _ _ _ _ Hgen) as [Hrow Ht].
    destruct (IH _ _ _ _ Hloop) as (rows_in & rows_out & -> & Hn & HF & Ht').
    exists (input :: rows_in), (output :: rows_out). simpl fst. simpl snd.
    rewrite <- !app_assoc. split; [reflexivity|]. split; [simpl; lia|].
    split; [constructor; assumption|]. congruence.
Qed.

Lemma sample_data_loop_succeeds (n : nat) (vals : list token)
    (min_seq_len max_seq_len : nat) :
  1 <= min_seq_len <= max_seq_len -> vals <> [] ->
  forall data (st : generators),
    exists data' st',
      sample_data_loop TRACR_BOS TRACR_PAD get_correct_output_for_input
                       n vals min_seq_len max_seq_len data st = (Done data', st').
Proof.
  intros Hlen Hvals. induction n as [|n IH]; intros data st; simpl; [eauto|].
  destruct (gen_random_input_output_succeeds vals _ _ st Hlen Hvals)
    as (input & output & st1 & ->).
  apply IH.
Qed.

(** X23.  [sample_data] on a vocabulary that is not empty, for lengths from 1
    on: it returns [n_samples] inputs and as many outputs; each input is
    BOS, a sequence over the vocabulary whose length with BOS lies between
    the two lengths, and padding up to [max_seq_len], and the output at the
    same position is that of the program on that sequence, padded alike.
    The generator of torch is not used. *)
Theorem sample_data_rows (n_samples min_seq_len max_seq_len : nat) (st : generators) :
  sorted get_vocab ≡ₚ get_vocab ->
  1 <= min_seq_len <= max_seq_len -> get_vocab <> [] ->
  exists input_data output_data st',
    sample_data n_samples min_seq_len max_seq_len st
    = (Done (input_data, output_data), st') /\
    length input_data = n_samples /\
    Forall2 (fun input output =>
               row_pair get_vocab min_seq_len max_seq_len input output)
            input_data output_data /\
    torch_state st' = torch_state st.
Proof.
  intros Hperm Hlen Hvocab. unfold TracrCase.sample_data.
  assert (Hvals : sorted get_vocab <> []).
  { intros Hnil. apply Hvocab. rewrite Hnil in Hperm.
    symmetry. apply Permutation_nil_l, Hperm. }
  destruct (sample_data_loop_succeeds n_samples _ _ _ Hlen Hvals ([], []) st)
    as ([input_data output_data] & st' & Hloop).
  destruct (sample_data_loop_Done _ _ _ _ _ _ _ _ Hloop)
    as (rows_in & rows_out & Heq & Hn & HF & Ht).
  simpl in Heq. injection Heq as -> ->.
  exists rows_in, rows_out, st'. split; [exact Hloop|]. split; [exact Hn|].
  split; [|exact Ht].
  eapply Forall2_impl; [exact HF|]. intros input output (sample & Hl & Hv & Hi & Ho).
  exists sample. split; [exact Hl|]. split; [|split; assumption].
  eapply Forall_impl; [exact Hv|]. intros v Hin. cbv beta in Hin.
  rewrite <- Hperm. exact Hin.
Qed.

Lemma produce_data_cases (min_samples max_samples : option nat)
    (min_seq_len max_seq_len : nat) (st st' : generators) input_data output_data :
  produce_data min_samples max_samples min_seq_len max_seq_len st
  = (Done (Some (input_data, output_data)), st') ->
  (gen_all_data min_seq_len max_seq_len = Done (input_data, output_data) /\ st' = st) \/
  (exists n, sample_data n min_seq_len max_seq_len st
             = (Done (input_data, output_data), st')).
Proof.
  unfold TracrCase.produce_data.
  set (total := get_total_data_len get_vocab sorted get_max_seq_len get_min_seq_len).
  assert (Hall : (data ← gen_all_data min_seq_len max_seq_len; Done (Some data), st)
                 = (Done (Some (input_data, output_data)), st') ->
                 gen_all_data min_seq_len max_seq_len = Done (input_data, output_data)
                 /\ st' = st).
  { destruct (gen_all_data min_seq_len max_seq_len) as [data|e]; cbn [mbind outcome_bind];
      intros Heq; [|discriminate]. injection Heq as -> ->. auto. }
  assert (Hsampled : forall n,
            (let '(r, st0) := sample_data n min_seq_len max_seq_len st in
             (data ← r; Done (Some data), st0))
            = (Done (Some (input_data, output_data)), st') ->
            exists n, sample_data n min_seq_len max_seq_len st
                      = (Done (input_data, output_data), st')).
  { intros n. destruct (sample_data n min_seq_len max_seq_len st) as [[data|e] st0] eqn:Hs;
      cbn [mbind outcome_bind]; intros Heq; [|discriminate].
    injection Heq as -> ->. exists n. exact Hs. }
  destruct min_samples as [lo|], max_samples as [hi|].
  - destruct ((lo <? total) && (total <? hi)); [auto|].
    destruct (total <? lo); intros Heq; right; eapply Hsampled, Heq.
  - destruct (total <? lo); intros Heq; [right; eapply Hsampled, Heq|discriminate].
  - intros Heq. right. eapply Hsampled, Heq.
  - auto.
Qed.

Lemma sample_data_Done (n min_seq_len max_seq_len : nat) (st st' : generators)
    input_data output_data :
  sample_data n min_seq_len max_seq_len st = (Done (input_data, output_data), st') ->
  Forall2 (fun input output =>
             row_pair (sorted get_vocab) min_seq_len max_seq_len input output)
          input_data output_data.
Proof.
  intros Hs. unfold TracrCase.sample_data in Hs.
  destruct (sample_data_loop_Done _ _ _ _ _ _ _ _ Hs)
    as (rows_in & rows_out & Heq & _ & HF & _).
  simpl in Heq. injection Heq as -> ->. exact HF.
Qed.

Lemma produce_data_lengths (min_samples max_samples : option nat)
    (min_seq_len max_seq_len : nat) (st st' : generators) input_data output_data :
  1 <= min_seq_len ->
  produce_data min_samples max_samples min_seq_len max_seq_len st
  = (Done (Some (input_data, output_data)), st') ->
  length input_data = length output_data.
Proof.
  intros Hmin Hp. destruct (produce_data_cases _ _ _ _ _ _ _ _ Hp) as [[Hall _]|[n Hs]].
  - exact (gen_all_data_lengths _ _ _ _ _ _ _ _ _ Hmin Hall).
  - exact (Forall2_length _ _ _ (sample_data_Done _ _ _ _ _ _ _ Hs)).
Qed.

Lemma produce_data_rows (min_samples max_samples : option nat)
    (min_seq_len max_seq_len : nat) (st st' : generators) input_data output_data :
  sorted get_vocab ≡ₚ get_vocab -> 1 <= min_seq_len ->
  produce_data min_samples max_samples min_seq_len max_seq_len st
  = (Done (Some (input_data, output_data)), st') ->
  Forall2 (fun input output => row_pair get_vocab min_seq_len max_seq_len input output)
          input_data output_data.
Proof.
  intros Hperm Hmin Hp.
  destruct (produce_data_cases _ _ _ _ _ _ _ _ Hp) as [[Hall _]|[n Hs]].
  - exact (gen_all_data_aligned _ _ _ _ _ _ _ _ _ Hperm Hmin Hall).
  - eapply Forall2_impl; [exact (sample_data_Done _ _ _ _ _ _ _ Hs)|].
    intros input output (sample & Hl & Hv & Hi & Ho).
    exists sample. split; [exact Hl|]. split; [|split; assumption].
    eapply Forall_impl; [exact Hv|]. intros v Hin. cbv beta in Hin.
    rewrite <- Hperm. exact Hin.
Qed.

(** What [get_clean_data] returns, in terms of the data produced and of
    the shuffle. *)
Lemma get_clean_data_Done (min_samples max_samples seed : option nat)
    (unique_data variable_length_seqs : bool) (st st' : generators)
    input_data output_data :
  get_clean_data min_samples max_samples seed unique_data variable_length_seqs st
  = (Done (input_data, output_data), st') ->
  let min_seq_len := if variable_length_seqs then get_min_seq_len else get_max_seq_len in
  exists st0 st1 produced_in produced_out indices,
    2 <= min_seq_len /\
    seed_generators seed st = (Done tt, st0) /\
    produce_data min_samples max_samples min_seq_len get_max_seq_len st0
    = (Done (Some (produced_in, produced_out)), st1) /\
    1 < length (remove_dups produced_out) /\
    length produced_in = length produced_out /\
    indices ≡ₚ seq 0 (length produced_in) /\
    input_data = map (fun i => nth i produced_in []) indices /\
    output_data = map (fun i => nth i produced_out []) indices.
Proof.
  intros Hget min_seq_len. unfold TracrCase.get_clean_data in Hget. fold min_seq_len in Hget.
  destruct (Nat.ltb_spec min_seq_len 2) as [|Hmin]; [discriminate|].
  destruct (seed_generators seed st) as [[[]|e] st0] eqn:Hseed; [|discriminate].
  destruct (produce_data min_samples max_samples min_seq_len get_max_seq_len st0)
    as [[[[produced_in produced_out]|]|e] st1] eqn:Hp; [|discriminate|discriminate].
  destruct (Nat.ltb_spec 1 (length (remove_dups produced_out))) as [Hdiff|];
    [|discriminate]. simpl negb in Hget. cbv iota in Hget.
  assert (Hmin1 : 1 <= min_seq_len) by lia.
  pose proof (produce_data_lengths _ _ _ _ _ _ _ _ Hmin1 Hp) as Hlen.
  assert (Hkeep : (if unique_data then remove_duplicates str produced_in produced_out
                   else Done (produced_in, produced_out))
                  = Done (produced_in, produced_out)).
  { destruct unique_data; [apply remove_duplicates_keeps_all, Hlen|reflexivity]. }
  rewrite Hkeep in Hget.
  pose proof (np_random_shuffle_Permutation (numpy_state st1) (length produced_in))
    as Hperm.
  destruct (np_random_shuffle (numpy_state st1) (length produced_in)) as [indices g].
  simpl in Hperm.
  assert (Hrange : Forall (fun i => i < length produced_in) indices).
  { apply Forall_forall. intros i Hi. rewrite Hperm in Hi. apply elem_of_seq in Hi. lia. }
  rewrite (reorder_spec produced_in indices Hrange) in Hget.
  rewrite (reorder_spec produced_out indices) in Hget by (rewrite <- Hlen; exact Hrange).
  cbn [mbind outcome_bind] in Hget. injection Hget as <- <- <-.
  exists st0, st1, produced_in, produced_out, indices. auto 10.
Qed.

(** X24.  The flag [unique_data] changes nothing: the loop that is to remove
    repeated inputs looks the string of an input up in a set of tuples,
    finds none and keeps every row. *)
Theorem get_clean_data_unique_data_no_effect
    (min_samples max_samples seed : option nat) (variable_length_seqs : bool)
    (st : generators) :
  get_clean_data min_samples max_samples seed true variable_length_seqs st
  = get_clean_data min_samples max_samples seed false variable_length_seqs st.
Proof.
  unfold TracrCase.get_clean_data.
  set (min_seq_len := if variable_length_seqs then get_min_seq_len else get_max_seq_len).
  destruct (Nat.ltb_spec min_seq_len 2) as [|Hmin]; [reflexivity|].
  destruct (seed_generators seed st) as [[[]|e] st0]; [|reflexivity].
  destruct (produce_data min_samples max_samples min_seq_len get_max_seq_len st0)
    as [[[[produced_in produced_out]|]|e] st1] eqn:Hp; [|reflexivity|reflexivity].
  destruct (negb _); [reflexivity|].
  rewrite remove_duplicates_keeps_all; [reflexivity|].
  assert (Hmin1 : 1 <= min_seq_len) by lia.
  exact (produce_data_lengths _ _ _ _ _ _ _ _ Hmin1 Hp).
Qed.

(** X25.  The rows that [get_clean_data] returns keep inputs and outputs
    together through the shuffle: the sequences have at least two
    positions, each input is BOS, a sequence over the vocabulary and
    padding up to the maximal length, the output at the same position is
    that of the program on that sequence, padded alike; and two of the
    outputs differ. *)
Theorem get_clean_data_rows (min_samples max_samples seed : option nat)
    (unique_data variable_length_seqs : bool) (st st' : generators)
    input_data output_data :
  sorted get_vocab ≡ₚ get_vocab ->
  get_clean_data min_samples max_samples seed unique_data variable_length_seqs st
  = (Done (input_data, output_data), st') ->
  let min_seq_len := if variable_length_seqs then get_min_seq_len else get_max_seq_len in
  2 <= min_seq_len /\
  Forall2 (fun input output =>
             row_pair get_vocab min_seq_len get_max_seq_len input output)
          input_data output_data /\
  exists output output', output ∈ output_data /\ output' ∈ output_data /\
                         output <> output'.
Proof.
  intros Hsorted Hget min_seq_len.
  destruct (get_clean_data_Done _ _ _ _ _ _ _ _ _ Hget)
    as (st0 & st1 & pin & pout & indices & Hmin & _ & Hp & Hdiff & Hlen & Hperm & -> & ->).
  fold min_seq_len in Hmin, Hp. split; [exact Hmin|]. split.
  - apply shuffled_Forall2.
    + assert (Hmin1 : 1 <= min_seq_len) by lia.
      exact (produce_data_rows _ _ _ _ _ _ _ _ Hsorted Hmin1 Hp).
    + apply Forall_forall. intros i Hi. rewrite Hperm in Hi. apply elem_of_seq in Hi. lia.
  - assert (Hout : map (fun i => nth i pout []) indices ≡ₚ pout).
    { transitivity (map (fun i => nth i pout []) (seq 0 (length pout))).
      - rewrite <- Hlen. apply Permutation_map, Hperm.
      - rewrite map_nth_seq. reflexivity. }
    pose proof (NoDup_remove_dups pout) as Hnd.
    destruct (remove_dups pout) as [|o [|o' rest]] eqn:Hrd; simpl in Hdiff; try lia.
    exists o, o'. rewrite !Hout.
    split; [apply elem_of_remove_dups; rewrite Hrd; left|].
    split; [apply elem_of_remove_dups; rewrite Hrd; right; left|].
    apply NoDup_cons in Hnd as [Hnotin _]. intros ->. apply Hnotin. left.
Qed.

(** X26.  When all the sequences are to be produced (no bound on the number of
    samples, or a number of possible sequences strictly between the two
    bounds), the rows returned are those of [gen_all_data] in another
    order, each input still with its output. *)
Theorem get_clean_data_all_sequences (min_samples max_samples seed : option nat)
    (unique_data variable_length_seqs : bool) (st st' : generators)
    input_data output_data :
  (min_samples = None /\ max_samples = None) \/
  (exists lo hi, min_samples = Some lo /\ max_samples = Some hi /\
     lo < get_total_data_len get_vocab sorted get_max_seq_len get_min_seq_len < hi) ->
  get_clean_data min_samples max_samples seed unique_data variable_length_seqs st
  = (Done (input_data, output_data), st') ->
  exists all_inputs all_outputs,
    gen_all_data (if variable_length_seqs then get_min_seq_len else get_max_seq_len)
                 get_max_seq_len = Done (all_inputs, all_outputs) /\
    zip input_data output_data ≡ₚ zip all_inputs all_outputs.
Proof.
  intros Hbranch Hget.
  destruct (get_clean_data_Done _ _ _ _ _ _ _ _ _ Hget)
    as (st0 & st1 & pin & pout & indices & Hmin & _ & Hp & _ & Hlen & Hperm & -> & ->).
  exists pin, pout. split; [|apply shuffled_pairs; assumption].
  unfold TracrCase.produce_data in Hp.
  destruct Hbranch as [[-> ->]|(lo & hi & -> & -> & Hlo & Hhi)].
  - destruct (gen_all_data _ _) as [data|e]; cbn [mbind outcome_bind] in Hp;
      [|discriminate]. injection Hp as -> _. reflexivity.
  - destruct (Nat.ltb_spec lo (get_total_data_len get_vocab sorted
                                 get_max_seq_len get_min_seq_len)); [|lia].
    destruct (Nat.ltb_spec (get_total_data_len get_vocab sorted
                              get_max_seq_len get_min_seq_len) hi); [|lia].
    simpl andb in Hp. cbv iota in Hp.
    destruct (gen_all_data _ _) as [data|e]; cbn [mbind outcome_bind] in Hp;
      [|discriminate]. injection Hp as -> _. reflexivity.
Qed.

(** X27.  With a seed, what [get_clean_data] returns does not depend on the
    states in which it finds the three generators. *)
Theorem get_clean_data_seeded (min_samples max_samples : option nat) (seed : nat)
    (unique_data variable_length_seqs : bool) (st st' : generators) :
  (get_clean_data min_samples max_samples (Some seed) unique_data
                  variable_length_seqs st).1
  = (get_clean_data min_samples max_samples (Some seed) unique_data
                    variable_length_seqs st').1.
Proof.
  unfold TracrCase.get_clean_data, seed_generators.
  destruct (_ <? 2); [reflexivity|].
  destruct (2 ^ 64 <=? N.of_nat seed)%N; [reflexivity|].
  cbn [random_state numpy_state torch_state].
  destruct (2 ^ 32 <=? N.of_nat seed)%N; reflexivity.
Qed.

(** X29.  With a lower bound on the number of samples and no upper bound,
    a case that has at least as many possible sequences as the lower bound
    gets no data at all: no branch produces any, and the assertion on the
    outputs fails on [None] with a [TypeError]. *)
Theorem get_clean_data_no_upper_bound (lo : nat) (seed : option nat)
    (unique_data variable_length_seqs : bool) (st : generators) :
  2 <= (if variable_length_seqs then get_min_seq_len else get_max_seq_len) ->
  (forall s, seed = Some s -> (N.of_nat s < 2 ^ 32)%N) ->
  get_total_data_len get_vocab sorted get_max_seq_len get_min_seq_len >= lo ->
  (get_clean_data (Some lo) None seed unique_data variable_length_seqs st).1
  = Fail (TypeError "'NoneType' object is not iterable").
Proof.
  intros Hmin Hseed Htotal. unfold TracrCase.get_clean_data.
  destruct (Nat.ltb_spec (if variable_length_seqs then get_min_seq_len
                          else get_max_seq_len) 2) as [|_]; [lia|].
  assert (Hs : exists st0, seed_generators seed st = (Done tt, st0)).
  { unfold seed_generators. destruct seed as [s|]; [|eauto].
    specialize (Hseed s eq_refl).
    destruct (N.leb_spec (2 ^ 64) (N.of_nat s)) as [Hbig|_].
    { assert ((2 ^ 32 < 2 ^ 64)%N) by reflexivity. lia. }
    destruct (N.leb_spec (2 ^ 32) (N.of_nat s)) as [Hbig|_]; [lia|]. eauto. }
  destruct Hs as [st0 ->]. unfold TracrCase.produce_data.
  destruct (Nat.ltb_spec (get_total_data_len get_vocab sorted get_max_seq_len
                            get_min_seq_len) lo); [lia|]. reflexivity.
Qed.

End CleanData.

Lemma sample_data_rows_witness :
  exists input_data output_data st',
    TracrCase.sample_data 0 9 [1; 2] (fun l => l) (@rev nat) 3 2 3
                          (TracrCase.mkGenerators 0 0 0)
    = (Done (input_data, output_data), st') /\
    length input_data = 3.
Proof.
  destruct (sample_data_rows 0 9 [1; 2] (fun l => l) (@rev nat) 3 2 3
              (TracrCase.mkGenerators 0 0 0))
    as (input_data & output_data & st' & He & Hl & _).
  - reflexivity.
  - lia.
  - discriminate.
  - exists input_data, output_data, st'. split; [exact He|exact Hl].
Defined.

Lemma get_clean_data_rows_witness :
  exists output output',
    output ∈ [[0; 2; 2]; [0; 1; 2]; [0; 2; 1]; [0; 1; 1]; [0; 2; 9]; [0; 1; 9]] /\
    output' ∈ [[0; 2; 2]; [0; 1; 2]; [0; 2; 1]; [0; 1; 1]; [0; 2; 9]; [0; 1; 9]] /\
    output <> output'.
Proof.
  apply (get_clean_data_rows 0 9 [1; 2] (fun l => l) 3 2 (@rev nat) toy_str_row
           (Some 1) (Some 100) (Some 42) false true
           (TracrCase.mkGenerators 0 0 0) (TracrCase.mkGenerators 42 43 42)
           [[0; 2; 2]; [0; 2; 1]; [0; 1; 2]; [0; 1; 1]; [0; 2; 9]; [0; 1; 9]]
           [[0; 2; 2]; [0; 1; 2]; [0; 2; 1]; [0; 1; 1]; [0; 2; 9]; [0; 1; 9]]).
  - reflexivity.
  - vm_compute. reflexivity.
Defined.

Lemma get_clean_data_all_sequences_witness :
  exists all_inputs all_outputs,
    example_gen_all_data 2 3 = Done (all_inputs, all_outputs) /\
    zip [[0; 2; 2]; [0; 2; 1]; [0; 1; 2]; [0; 1; 1]; [0; 2; 9]; [0; 1; 9]]
        [[0; 2; 2]; [0; 1; 2]; [0; 2; 1]; [0; 1; 1]; [0; 2; 9]; [0; 1; 9]]
    ≡ₚ zip all_inputs all_outputs.
Proof.
  apply (get_clean_data_all_sequences 0 9 [1; 2] (fun l => l) 3 2 (@rev nat) toy_str_row
           (Some 1) (Some 100) (Some 42) false true
           (TracrCase.mkGenerators 0 0 0) (TracrCase.mkGenerators 42 43 42)).
  - right. exists 1, 100. split; [reflexivity|]. split; [reflexivity|].
    vm_compute. lia.
  - vm_compute. reflexivity.
Defined.

Lemma get_clean_data_no_upper_bound_witness :
  (example_get_clean_data (Some 1) None (Some 42) false true
     (TracrCase.mkGenerators 0 0 0)).1
  = Fail (TypeError "'NoneType' object is not iterable").
Proof.
  apply (get_clean_data_no_upper_bound 0 9 [1; 2] (fun l => l) 3 2 (@rev nat) toy_str_row
           1 (Some 42) false true (TracrCase.mkGenerators 0 0 0)).
  - simpl. lia.
  - intros s Hs. injection Hs as <-. reflexivity.
  - vm_compute. lia.
Defined.

(** ** The table over all ablation types *)

Import Torch IIA.

(** The keys of the rows of [evaluate_iia]. *)
Lemma composite_key_inj (key key' a a' : string) :
  key ∈ ["kl_div"; "accuracy"; "base_model_effect"; "hypothesis_model_effect";
         "effective_accuracy"] ->
  key' ∈ ["kl_div"; "accuracy"; "base_model_effect"; "hypothesis_model_effect";
          "effective_accuracy"] ->
  a ∈ ablation_types -> a' ∈ ablation_types ->
  (key ++ "_" ++ a ++ "_ablation")%string = (key' ++ "_" ++ a' ++ "_ablation")%string ->
  key = key' /\ a = a'.
Proof.
  unfold ablation_types. intros Hk Hk' Ha Ha' Heq.
  repeat match goal with
         | H : _ ∈ _ :: _ |- _ => apply elem_of_cons in H as [->|H]
         | H : _ ∈ [] |- _ => inversion H
         end;
    first [split; reflexivity | vm_compute in Heq; discriminate Heq].
Qed.

Lemma composite_key_not_base (key a : string) :
  key ∈ ["kl_div"; "accuracy"; "base_model_effect"; "hypothesis_model_effect";
         "effective_accuracy"] ->
  a ∈ ablation_types ->
  (key ++ "_" ++ a ++ "_ablation")%string <> "node".
Proof.
  unfold ablation_types. intros Hk Ha Heq.
  repeat match goal with
         | H : _ ∈ _ :: _ |- _ => apply elem_of_cons in H as [->|H]
         | H : _ ∈ [] |- _ => inversion H
         end; vm_compute in Heq; discriminate Heq.
Qed.

Section AllAblations.

Context {F K model dataset inputs : Type}.
Variable forward : model -> list (string * hook_fn) -> inputs -> result (list (list (list F))).
Variable is_categorical : model -> bool.
Variable get_inputs : dataset -> inputs.
Variable outputs_differ : dataset -> dataset -> list bool.
Variable ltb : F -> F -> bool.
Variable log_softmax : list F -> list F.
Variable kl_div : list (list (list F)) -> list (list (list F)) -> K.
Variable isclose : F -> F -> bool.
Variable mean_abs_diff : list (list (list F)) -> list (list (list F)) -> K.
Variable run_with_cache : model -> inputs -> result (gmap string tensor).

#[local] Abbreviation evaluate_iia :=
  (evaluate_iia forward is_categorical get_inputs outputs_differ ltb log_softmax
                kl_div isclose mean_abs_diff).
#[local] Abbreviation evaluate_iia_on_all_ablation_types :=
  (evaluate_iia_on_all_ablation_types forward is_categorical get_inputs outputs_differ
     ltb log_softmax kl_div isclose mean_abs_diff run_with_cache).
#[local] Abbreviation table := (gmap string (gmap string (@cell K))).
#[local] Abbreviation composite key a := (key ++ "_" ++ a ++ "_ablation")%string.

Lemma result_items_keys (r : node_result K) key v :
  (key, v) ∈ result_items r ->
  key ∈ ["kl_div"; "accuracy"; "base_model_effect"; "hypothesis_model_effect";
         "effective_accuracy"].
Proof.
  intros Hin. apply list_elem_of_In in Hin. apply list_elem_of_In.
  destruct r as [kl acc be he [e|]|acc be he]; simpl in Hin |- *;
    repeat (destruct Hin as [Hin|Hin]; [injection Hin as <- _; tauto|]);
    contradiction.
Qed.

Lemma result_items_NoDup (r : node_result K) : NoDup (result_items r).*1.
Proof.
  destruct r as [kl acc be he [e|]|acc be he]; simpl;
    apply (bool_decide_unpack _); vm_compute; exact I.
Qed.

(** The row of a node after the metrics of one ablation type are stored. *)
#[local] Abbreviation merged a items row :=
  (foldl (fun (row : gmap string (@cell K)) (entry : string * @cell K) =>
            <[composite entry.1 a := entry.2]> row) row items).

Lemma merged_other (a : string) (items : list (string * @cell K))
    (row : gmap string (@cell K)) (k : string) :
  (forall key v, (key, v) ∈ items -> composite key a <> k) ->
  merged a items row !! k = row !! k.
Proof.
  revert row. induction items as [|[key v] items IH]; intros row Hne; [reflexivity|].
  simpl foldl. rewrite IH.
  - apply lookup_insert_ne. apply (Hne key v). left.
  - intros key' v' Hin. apply (Hne key' v'). right. exact Hin.
Qed.

Lemma merged_item (a : string) (items : list (string * @cell K))
    (row : gmap string (@cell K)) (key : string) (v : @cell K) :
  NoDup items.*1 -> (key, v) ∈ items ->
  merged a items row !! composite key a = Some v.
Proof.
  revert row. induction items as [|[key0 v0] items IH]; intros row Hnd Hin;
    [inversion Hin|].
  simpl in Hnd. apply NoDup_cons in Hnd as [Hnotin Hnd].
  simpl foldl. apply elem_of_cons in Hin as [Heq|Hin].
  - injection Heq as -> ->. rewrite merged_other; [apply lookup_insert_eq|].
    intros key' v' Hin' Hk. apply string_app_inv_tail in Hk. subst key'.
    apply Hnotin. apply list_elem_of_fmap. exists (key0, v'). auto.
  - apply IH; assumption.
Qed.

Lemma set_cells_row (a : string) (items : list (string * @cell K)) :
  forall (t : table) (s : string) (row : gmap string (@cell K)),
    t !! s = Some row ->
    foldl (fun acc entry => t ← acc; set_cell t s (composite entry.1 a) entry.2)
          (Ok t) items
    = Ok (<[s := merged a items row]> t).
Proof.
  induction items as [|[key v] items IH]; intros t s row Hrow.
  - simpl. rewrite insert_id by exact Hrow. reflexivity.
  - simpl foldl. unfold set_cell at 2. rewrite Hrow.
    rewrite (IH _ s (<[composite key a := v]> row)) by apply lookup_insert_eq.
    rewrite insert_insert_eq. reflexivity.
Qed.

Lemma set_cells_list (a : string) (l : list (string * node_result K)) :
  forall t : table,
    NoDup l.*1 -> (forall s r, (s, r) ∈ l -> is_Some (t !! s)) ->
    exists t' : table,
      foldl (fun acc item =>
               foldl (fun acc entry =>
                        t ← acc; set_cell t item.1 (composite entry.1 a) entry.2)
                     acc (result_items item.2))
            (Ok t) l = Ok t' /\
      (forall s, s ∉ l.*1 -> t' !! s = t !! s) /\
      (forall s r, (s, r) ∈ l ->
         exists row, t !! s = Some row /\
                     t' !! s = Some (merged a (result_items r) row)).
Proof.
  induction l as [|[s0 r0] l IH]; intros t Hnd Hkeys.
  - exists t. split; [reflexivity|]. split; [reflexivity|]. intros s r Hin. inversion Hin.
  - simpl in Hnd. apply NoDup_cons in Hnd as [Hnotin Hnd].
    destruct (Hkeys s0 r0 ltac:(left)) as [row0 Hrow0].
    simpl foldl. rewrite (set_cells_row a (result_items r0) t s0 row0 Hrow0).
    set (t1 := <[s0 := merged a (result_items r0) row0]> t).
    destruct (IH t1 Hnd) as (t' & Hfold & Hother & Hin).
    { intros s r Hsr. unfold t1. destruct (decide (s0 = s)) as [->|Hne].
      - rewrite lookup_insert_eq. eauto.
      - rewrite lookup_insert_ne by exact Hne. apply (Hkeys s r). right. exact Hsr. }
    exists t'. split; [exact Hfold|]. split.
    + intros s Hs. simpl in Hs. apply not_elem_of_cons in Hs as [Hne Hs].
      rewrite (Hother s Hs). unfold t1. apply lookup_insert_ne. congruence.
    + intros s r Hsr. apply elem_of_cons in Hsr as [Heq|Hsr].
      * injection Heq as -> ->. exists row0. split; [exact Hrow0|].
        rewrite (Hother s0 Hnotin). unfold t1. apply lookup_insert_eq.
      * assert (Hne : s0 <> s).
        { intros ->. apply Hnotin. apply list_elem_of_fmap. exists (s, r). auto. }
        destruct (Hin s r Hsr) as (row & Hrow & Ht'). exists row.
        split; [|exact Ht']. unfold t1 in Hrow.
        rewrite lookup_insert_ne in Hrow by exact Hne. exact Hrow.
Qed.

(** Storing the rows of one ablation type: no key is missing, every row
    that has metrics gets them and the other rows are kept. *)
Lemma set_cells_map (a : string) (res : gmap string (node_result K)) (t : table) :
  (forall s, is_Some (res !! s) -> is_Some (t !! s)) ->
  exists t' : table,
    foldl (fun acc item =>
             foldl (fun acc entry =>
                      t ← acc; set_cell t item.1 (composite entry.1 a) entry.2)
                   acc (result_items item.2))
          (Ok t) (map_to_list res) = Ok t' /\
    forall s, t' !! s
              = (fun row => match res !! s with
                            | Some r => merged a (result_items r) row
                            | None => row
                            end) <$> t !! s.
Proof.
  intros Hkeys.
  destruct (set_cells_list a (map_to_list res) t (NoDup_fst_map_to_list res))
    as (t' & Hfold & Hother & Hin).
  { intros s r Hsr. apply elem_of_map_to_list in Hsr. apply Hkeys. eauto. }
  exists t'. split; [exact Hfold|]. intros s.
  destruct (res !! s) as [r|] eqn:Hr.
  - destruct (Hin s r) as (row & Hrow & Ht'); [apply elem_of_map_to_list, Hr|].
    rewrite Ht', Hrow. reflexivity.
  - rewrite Hother.
    + destruct (t !! s); reflexivity.
    + intros Hs. apply list_elem_of_fmap in Hs as ([s' r] & -> & Hsr).
      apply elem_of_map_to_list in Hsr. simpl in Hr. congruence.
Qed.

#[local] Abbreviation eligible iia_granularity node :=
  (contains (name node) "mlp_in" = false /\
   (iia_granularity = "qkv" \/ is_qkv_granularity_hook (name node) = false)).

(** The table before the metrics are stored: one row for each node that is
    not skipped. *)
Lemma initial_table (str : CircuitNode -> string) (all_nodes : list CircuitNode)
    (in_circuit : CircuitNode -> bool) (iia_granularity : string) :
  let t0 : table :=
    foldl (fun table node =>
             let node_str := str node in
             if contains (name node) "mlp_in" then table
             else if negb (String.eqb iia_granularity "qkv")
                     && is_qkv_granularity_hook (name node) then table
             else
               <[node_str := <["node" := CStr node_str]>
                             (<["hook_name" := CStr (name node)]>
                             (<["head_index" := CHead (index node)]>
                             (<["in_circuit" := CBool (in_circuit node)]> ∅)))]> table)
          ∅ all_nodes in
  (forall s, is_Some (t0 !! s) <->
             exists node, node ∈ all_nodes /\ str node = s /\
                          eligible iia_granularity node) /\
  (forall s row, t0 !! s = Some row -> row !! "node" = Some (CStr s)).
Proof.
  induction all_nodes as [|x l IH] using rev_ind; intros t0.
  - subst t0. simpl. split.
    + intros s. rewrite lookup_empty. split; [intros [? Hs]; discriminate Hs|].
      intros (node & Hin & _). inversion Hin.
    + intros s row Hs. rewrite lookup_empty in Hs. discriminate Hs.
  - subst t0. rewrite foldl_app. simpl foldl. cbv zeta in IH.
    match goal with |- context [foldl ?f ∅ l] => set (t := foldl f ∅ l) in * end.
    destruct IH as [IH1 IH2].
    assert (Hold : forall s, (exists node, node ∈ l /\ str node = s /\
                                eligible iia_granularity node) ->
                   exists node, node ∈ l ++ [x] /\ str node = s /\
                                eligible iia_granularity node).
    { intros s (node & Hin & Hrest). exists node.
      split; [apply elem_of_app; left; exact Hin|exact Hrest]. }
    assert (Hskip : ~ eligible iia_granularity x ->
              forall s, (exists node, node ∈ l ++ [x] /\ str node = s /\
                           eligible iia_granularity node) ->
                        exists node, node ∈ l /\ str node = s /\
                                     eligible iia_granularity node).
    { intros Hx s (node & Hin & Hs & Hel). apply elem_of_app in Hin as [Hin|Hin].
      - exists node. auto.
      - apply list_elem_of_singleton in Hin. subst node. contradiction. }
    destruct (contains (name x) "mlp_in") eqn:Hmlp.
    { split; [|exact IH2]. intros s. rewrite IH1. split; [apply Hold|apply Hskip].
      intros [Hc _]. congruence. }
    destruct (negb (String.eqb iia_granularity "qkv")
              && is_qkv_granularity_hook (name x)) eqn:Hqkv.
    { split; [|exact IH2]. intros s. rewrite IH1. split; [apply Hold|apply Hskip].
      apply andb_true_iff in Hqkv as [Hg Hq]. apply negb_true_iff in Hg.
      intros [_ [->|Hq']]; [discriminate Hg|congruence]. }
    assert (Hx : eligible iia_granularity x).
    { split; [exact Hmlp|]. apply andb_false_iff in Hqkv as [Hg|Hq]; [left|right; exact Hq].
      apply negb_false_iff in Hg. apply String.eqb_eq in Hg. exact Hg. }
    split.
    + intros s. destruct (decide (str x = s)) as [<-|Hne].
      * rewrite lookup_insert_eq. split; [|eauto]. intros _. exists x.
        split; [apply elem_of_app; right; left|]. auto.
      * rewrite lookup_insert_ne by exact Hne. rewrite IH1. split; [apply Hold|].
        intros (node & Hin & Hs & Hel). apply elem_of_app in Hin as [Hin|Hin].
        -- exists node. auto.
        -- apply list_elem_of_singleton in Hin. subst node. contradiction.
    + intros s row. destruct (decide (str x = s)) as [<-|Hne].
      * rewrite lookup_insert_eq. intros Heq. injection Heq as <-.
        apply lookup_insert_eq.
      * rewrite lookup_insert_ne by exact Hne. apply IH2.
Qed.

Lemma stored_kept (a a' key : string) (res : gmap string (node_result K)) (s : string)
    (row : gmap string (@cell K)) :
  a <> a' -> a ∈ ablation_types -> a' ∈ ablation_types ->
  key ∈ ["kl_div"; "accuracy"; "base_model_effect"; "hypothesis_model_effect";
         "effective_accuracy"] ->
  match res !! s with
  | Some r => merged a' (result_items r) row
  | None => row
  end !! composite key a = row !! composite key a.
Proof.
  intros Hne Ha Ha' Hkey. destruct (res !! s) as [r|]; [|reflexivity].
  apply merged_other. intros key' v Hin Heq.
  destruct (composite_key_inj key' key a' a) as [_ Haa]; try assumption.
  - exact (result_items_keys r key' v Hin).
  - congruence.
Qed.

Lemma stored_base (a : string) (res : gmap string (node_result K)) (s : string)
    (row : gmap string (@cell K)) :
  a ∈ ablation_types ->
  match res !! s with
  | Some r => merged a (result_items r) row
  | None => row
  end !! "node" = row !! "node".
Proof.
  intros Ha. destruct (res !! s) as [r|]; [|reflexivity].
  apply merged_other. intros key v Hin.
  apply composite_key_not_base; [exact (result_items_keys r key v Hin)|exact Ha].
Qed.

(** X28.  When the forward passes with caches and the three evaluations return,
    [evaluate_iia_on_all_ablation_types] returns too (no row is missing
    when the metrics are stored): the table has one row for every node
    that is not skipped (no [mlp_in] hook, no query, key or value hook
    unless the granularity is [qkv]) and no other; a row names its node,
    and holds every metric of that node for every ablation type under the
    key [<metric>_<type>_ablation]. *)
Theorem evaluate_iia_on_all_ablation_types_table
    (str : CircuitNode -> string) (all_nodes : list CircuitNode)
    (in_circuit : CircuitNode -> bool) (base hyp : model)
    (clean corrupted : dataset) (iia_granularity : string)
    (bk hk bc hc : gmap string tensor)
    (r_zero r_mean r_resample : gmap string (node_result K)) :
  run_with_cache base (get_inputs corrupted) = Ok bk ->
  run_with_cache hyp (get_inputs corrupted) = Ok hk ->
  run_with_cache base (get_inputs clean) = Ok bc ->
  run_with_cache hyp (get_inputs clean) = Ok hc ->
  evaluate_iia str all_nodes base hyp clean corrupted bk hk bc hc iia_granularity "zero"
    = Ok r_zero ->
  evaluate_iia str all_nodes base hyp clean corrupted bk hk bc hc iia_granularity "mean"
    = Ok r_mean ->
  evaluate_iia str all_nodes base hyp clean corrupted bk hk bc hc iia_granularity "resample"
    = Ok r_resample ->
  exists t : table,
    evaluate_iia_on_all_ablation_types str all_nodes in_circuit base hyp clean corrupted
                                       iia_granularity = Ok t /\
    (forall s, is_Some (t !! s) <->
               exists node, node ∈ all_nodes /\ str node = s /\
                 contains (name node) "mlp_in" = false /\
                 (iia_granularity = "qkv" \/ is_qkv_granularity_hook (name node) = false)) /\
    (forall s row, t !! s = Some row ->
       row !! "node" = Some (CStr s) /\
       forall a res r key v,
         (a, res) ∈ [("zero", r_zero); ("mean", r_mean); ("resample", r_resample)] ->
         res !! s = Some r -> (key, v) ∈ result_items r ->
         row !! composite key a = Some v).
Proof.
  intros Hbk Hhk Hbc Hhc Hzero Hmean Hresample.
  unfold IIA.evaluate_iia_on_all_ablation_types.
  rewrite Hbk, bind_Ok, Hhk, bind_Ok, Hbc, bind_Ok, Hhc, bind_Ok. cbv zeta.
  destruct (initial_table str all_nodes in_circuit iia_granularity) as [Hdom Hnode].
  match goal with |- context [foldl _ (Ok ?t) ablation_types] => set (t0 := t) in * end.
  assert (Hkeys : forall a res,
            evaluate_iia str all_nodes base hyp clean corrupted bk hk bc hc
                         iia_granularity a = Ok res ->
            forall s, is_Some (res !! s) -> is_Some (t0 !! s)).
  { intros a res Hres s [r Hr]. apply Hdom.
    destruct (evaluate_iia_rows _ _ _ _ _ _ _ _ _ _ _ _ _ _ _ _ _ _ _ _ _ _ Hres)
      as [Hrows _].
    destruct (Hrows s r Hr) as (node & Hin & Hs & Hel & _). eauto. }
  destruct (set_cells_map "zero" r_zero t0 (Hkeys _ _ Hzero)) as (t1 & Hfold1 & Ht1).
  destruct (set_cells_map "mean" r_mean t1) as (t2 & Hfold2 & Ht2).
  { intros s Hs. rewrite Ht1. apply fmap_is_Some, (Hkeys _ _ Hmean), Hs. }
  destruct (set_cells_map "resample" r_resample t2) as (t3 & Hfold3 & Ht3).
  { intros s Hs. rewrite Ht2. apply fmap_is_Some. rewrite Ht1.
    apply fmap_is_Some, (Hkeys _ _ Hresample), Hs. }
  exists t3. split.
  - unfold ablation_types.
    change (foldl ?f ?a ["zero"; "mean"; "resample"])
      with (f (f (f a "zero") "mean") "resample").
    cbv beta. rewrite bind_Ok, Hzero, bind_Ok, Hfold1.
    rewrite bind_Ok, Hmean, bind_Ok, Hfold2.
    rewrite bind_Ok, Hresample, bind_Ok, Hfold3. reflexivity.
  - split.
    + intros s. rewrite Ht3, fmap_is_Some, Ht2, fmap_is_Some, Ht1, fmap_is_Some.
      apply Hdom.
    + intros s row Hrow. rewrite Ht3, Ht2, Ht1 in Hrow.
      destruct (t0 !! s) as [row0|] eqn:Hrow0; [|discriminate Hrow].
      simpl in Hrow. injection Hrow as <-.
      assert (Hz : "zero" ∈ ablation_types) by (apply (bool_decide_unpack _); reflexivity).
      assert (Hm : "mean" ∈ ablation_types) by (apply (bool_decide_unpack _); reflexivity).
      assert (Hr : "resample" ∈ ablation_types)
        by (apply (bool_decide_unpack _); reflexivity).
      split.
      * rewrite !stored_base by assumption. apply (Hnode s row0 Hrow0).
      * intros a res r key v Ha Hres Hitem.
        pose proof (result_items_keys r key v Hitem) as Hkey.
        apply elem_of_cons in Ha as [Ha|Ha]; [|apply elem_of_cons in Ha as [Ha|Ha]];
          [| |apply list_elem_of_singleton in Ha]; injection Ha as -> ->.
        -- rewrite (stored_kept "zero" "resample") by (assumption || discriminate).
           rewrite (stored_kept "zero" "mean") by (assumption || discriminate).
           rewrite Hres. apply merged_item; [apply result_items_NoDup|exact Hitem].
        -- rewrite (stored_kept "mean" "resample") by (assumption || discriminate).
           rewrite Hres. apply merged_item; [apply result_items_NoDup|exact Hitem].
        -- rewrite Hres. apply merged_item; [apply result_items_NoDup|exact Hitem].
Qed.

End AllAblations.

Lemma evaluate_iia_on_all_ablation_types_table_witness :
  exists t,
    IIA.evaluate_iia_on_all_ablation_types
      (example_forward 0%Z 1%Z) (fun _ => true) fst example_outputs_differ
      Z.ltb (fun row => row) (fun _ _ => tt) Z.eqb (fun _ _ => tt)
      (fun _ _ => Ok (<["hook_embed" := example_activation]> ∅))
      name [mkNode "hook_embed" None; mkNode "blocks.0.hook_mlp_in" None]
      (fun _ => true) tt tt example_clean example_corrupted "head" = Ok t /\
    is_Some (t !! "hook_embed").
Proof.
  pose (ev := IIA.evaluate_iia (example_forward 0%Z 1%Z) (fun _ => true) fst
                example_outputs_differ Z.ltb (fun row => row) (fun _ _ => tt) Z.eqb
                (fun _ _ => tt) name
                [mkNode "hook_embed" None; mkNode "blocks.0.hook_mlp_in" None]
                tt tt example_clean example_corrupted
                (<["hook_embed" := example_activation]> ∅)
                (<["hook_embed" := example_activation]> ∅)
                (<["hook_embed" := example_activation]> ∅)
                (<["hook_embed" := example_activation]> ∅) "head").
  destruct (ev "zero") as [r_zero|e] eqn:Hzero; [|vm_compute in Hzero; discriminate Hzero].
  destruct (ev "mean") as [r_mean|e] eqn:Hmean; [|vm_compute in Hmean; discriminate Hmean].
  destruct (ev "resample") as [r_resample|e] eqn:Hresample;
    [|vm_compute in Hresample; discriminate Hresample].
  destruct (evaluate_iia_on_all_ablation_types_table
              (example_forward 0%Z 1%Z) (fun _ => true) fst example_outputs_differ
              Z.ltb (fun row => row) (fun _ _ => tt) Z.eqb (fun _ _ => tt)
              (fun _ _ => Ok (<["hook_embed" := example_activation]> ∅))
              name [mkNode "hook_embed" None; mkNode "blocks.0.hook_mlp_in" None]
              (fun _ => true) tt tt example_clean example_corrupted "head"
              (<["hook_embed" := example_activation]> ∅)
              (<["hook_embed" := example_activation]> ∅)
              (<["hook_embed" := example_activation]> ∅)
              (<["hook_embed" := example_activation]> ∅)
              r_zero r_mean r_resample eq_refl eq_refl eq_refl eq_refl
              Hzero Hmean Hresample)
    as (t & He & Hdom & _).
  exists t. split; [exact He|]. apply Hdom. exists (mkNode "hook_embed" None).
  split; [left|]. split; [reflexivity|]. split; [reflexivity|right; reflexivity].
Defined.
